(** * Derived-structure engine of voronoi-and-stuff: a shallow embedding

    The TypeScript sources [src/lib/math-utils.ts], [src/lib/constants.ts],
    [src/lib/types.ts] and [src/lib/geometry-algorithms.ts] are transcribed
    function by function.

    - A JavaScript [number] used as a coordinate, distance or radius is an
      IEEE 754 binary64 value: Rocq's primitive [float], whose operations
      [+ - * / sqrt abs <? <=? =?] are the ones the JavaScript engine runs
      (round to nearest even, NaN unordered, [+0 =? -0]).
    - A [number] used as an array index is a [Z]; [-1] is the sentinel the
      source uses, and an array read out of range is [undefined].
    - A property read on [undefined] throws a [TypeError]: a function that
      can throw returns [option], with [None] for the exception.
    - Arrays are lists; [Set<string>] and [Map<string, number>] keep their
      insertion order, so they are lists of keys and association lists. *)

From Stdlib Require Import String.
From Stdlib Require Import ZArith List Bool Lia Floats QArith Lqa Permutation.
Import ListNotations.

Set Warnings "-inexact-float".

(** ** The JavaScript built-ins the sources call *)

Module JS.

Definition POSITIVE_INFINITY : float := infinity.

(** [Number.isFinite]: neither NaN nor an infinity. *)
Definition isFinite (v : float) : bool := is_finite v.

(** [Math.abs]. *)
Definition Math_abs (v : float) : float := abs v.

(** [Math.max] on two numbers: NaN if either is NaN, and [+0] is larger
    than [-0]. *)
Definition Math_max (a b : float) : float :=
  if is_nan a || is_nan b then nan
  else if (a <? b)%float then b
  else if (b <? a)%float then a
  else match classify a with NZero => b | _ => a end.

(** [Math.min] on two numbers. *)
Definition Math_min (a b : float) : float :=
  if is_nan a || is_nan b then nan
  else if (a <? b)%float then a
  else if (b <? a)%float then b
  else match classify a with NZero => a | _ => match classify b with NZero => b | _ => a end end.

(** [Math.hypot] on two numbers.  ECMAScript fixes the special cases
    (an infinite argument gives [+Infinity], even next to a NaN; otherwise
    a NaN gives NaN; all zeros give [+0]) and leaves the remaining case to
    an implementation-approximated square root of the sum of squares.  The
    remaining case follows V8: the arguments are scaled by the largest
    magnitude and the squares are added with Kahan's compensation. *)
Definition Math_hypot (a b : float) : float :=
  let a' := abs a in
  let b' := abs b in
  if (a' =? infinity)%float || (b' =? infinity)%float then infinity
  else if is_nan a || is_nan b then nan
  else
    let max := if (a' <? b')%float then b' else a' in
    if (max =? 0)%float then 0%float
    else
      let n1 := (a' / max)%float in
      let sum1 := (n1 * n1)%float in            (* 0 + (n*n - 0) *)
      let comp1 := ((sum1 - 0) - sum1)%float in
      let n2 := (b' / max)%float in
      let summand2 := (n2 * n2 - comp1)%float in
      let sum2 := (sum1 + summand2)%float in
      (sqrt sum2 * max)%float.

End JS.

(** ** types.ts *)

Record Point : Type := { id : Z; x : float; y : float }.

(** [EdgeIndex = [number, number]] and [TriangleIndex]. *)
Definition EdgeIndex : Type := (Z * Z)%type.
Definition TriangleIndex : Type := (Z * Z * Z)%type.

(** The seven members of the union type [GraphMode]. *)
Inductive GraphMode : Type :=
| voronoi | alpha_shape | alpha_complex | nn_crust | gabriel | rng | mst.

(** The string literal each member stands for. *)
Definition GraphMode_value (m : GraphMode) : string :=
  match m with
  | voronoi => "voronoi"%string
  | alpha_shape => "alpha-shape"%string
  | alpha_complex => "alpha-complex"%string
  | nn_crust => "nn-crust"%string
  | gabriel => "gabriel"%string
  | rng => "rng"%string
  | mst => "mst"%string
  end.

Definition all_GraphMode : list GraphMode :=
  [voronoi; alpha_shape; alpha_complex; nn_crust; gabriel; rng; mst].

Definition Polygon : Type := list (float * float).

Record DerivedStructures : Type := {
  voronoiCells : list Polygon;
  graphEdges : list EdgeIndex;
  alphaTriangles : list TriangleIndex
}.

Record AlphaData : Type := {
  triangles : list TriangleIndex;
  allEdges : list EdgeIndex;
  boundaryEdges : list EdgeIndex
}.

(** ** Numbers for the slider mapping

    The slider mapping of [math-utils.ts] uses only literals, the four
    arithmetic operations and [<=].  It is written once over this interface
    and read at two instances: binary64, which is what runs, and exact
    rationals, which is the function the rounded computation approximates. *)

Class Number (num : Type) : Type := {
  lit : Q -> num;
  add : num -> num -> num;
  sub : num -> num -> num;
  mul : num -> num -> num;
  div : num -> num -> num;
  le : num -> num -> bool
}.

(** An integer below [2^63] as a binary64 number. *)
Definition float_of_Z (z : Z) : float :=
  if (z <? 0)%Z then (- of_uint63 (Uint63.of_Z (- z)))%float
  else of_uint63 (Uint63.of_Z z).

(** A decimal literal denotes the binary64 number nearest to it, which is
    the correctly rounded quotient of its numerator and denominator when
    both are below [2^53]. *)
#[export] Instance Number_float : Number float := {|
  lit q := (float_of_Z (Qnum q) / float_of_Z (Zpos (Qden q)))%float;
  add := PrimFloat.add;
  sub := PrimFloat.sub;
  mul := PrimFloat.mul;
  div := PrimFloat.div;
  le := PrimFloat.leb
|}.

#[export] Instance Number_Q : Number Q := {|
  lit q := q;
  add := Qplus;
  sub := Qminus;
  mul := Qmult;
  div := Qdiv;
  le := Qle_bool
|}.

(** ** constants.ts *)

Definition EPSILON : float := 1e-6%float.

Record SliderRange (num : Type) : Type := {
  sliderMax : num;
  radiusMin : num;
  radiusMax : num
}.
Arguments sliderMax {num}.
Arguments radiusMin {num}.
Arguments radiusMax {num}.

Section SliderRanges.
Context {num : Type} `{Number num}.

Definition FIRST_RANGE : SliderRange num :=
  {| sliderMax := lit 0.5; radiusMin := lit 12; radiusMax := lit 500 |}.
Definition SECOND_RANGE : SliderRange num :=
  {| sliderMax := lit 0.75; radiusMin := lit 500; radiusMax := lit 1000 |}.
Definition THIRD_RANGE : SliderRange num :=
  {| sliderMax := lit 1.0; radiusMin := lit 1000; radiusMax := lit 5000 |}.
End SliderRanges.

(** ** math-utils.ts *)

Definition clamp (value min max : float) : float :=
  JS.Math_max min (JS.Math_min max value).

Section SliderMapping.
Context {num : Type} `{Number num}.

(** The formula of each of the three branches of [sliderToRadius]. *)
Definition sliderToRadius_first (t : num) : num :=
  let localT := div t (sliderMax FIRST_RANGE) in
  add (radiusMin FIRST_RANGE)
      (mul localT (sub (radiusMax FIRST_RANGE) (radiusMin FIRST_RANGE))).

Definition sliderToRadius_second (t : num) : num :=
  let localT := div (sub t (sliderMax FIRST_RANGE)) (lit 0.25) in
  add (radiusMin SECOND_RANGE)
      (mul localT (sub (radiusMax SECOND_RANGE) (radiusMin SECOND_RANGE))).

Definition sliderToRadius_third (t : num) : num :=
  let localT := div (sub t (sliderMax SECOND_RANGE)) (lit 0.25) in
  add (radiusMin THIRD_RANGE)
      (mul localT (sub (radiusMax THIRD_RANGE) (radiusMin THIRD_RANGE))).

Definition sliderToRadius (t : num) : num :=
  if le t (sliderMax FIRST_RANGE) then sliderToRadius_first t
  else if le t (sliderMax SECOND_RANGE) then sliderToRadius_second t
  else sliderToRadius_third t.

Definition radiusToSlider (r : num) : num :=
  if le r (radiusMax FIRST_RANGE) then
    mul (div (sub r (radiusMin FIRST_RANGE))
             (sub (radiusMax FIRST_RANGE) (radiusMin FIRST_RANGE)))
        (sliderMax FIRST_RANGE)
  else if le r (radiusMax SECOND_RANGE) then
    add (sliderMax FIRST_RANGE)
        (mul (div (sub r (radiusMin SECOND_RANGE))
                  (sub (radiusMax SECOND_RANGE) (radiusMin SECOND_RANGE)))
             (lit 0.25))
  else
    add (sliderMax SECOND_RANGE)
        (mul (div (sub r (radiusMin THIRD_RANGE))
                  (sub (radiusMax THIRD_RANGE) (radiusMin THIRD_RANGE)))
             (lit 0.25)).
End SliderMapping.

Definition distanceSquared (a b : Point) : float :=
  let dx := (x a - x b)%float in
  let dy := (y a - y b)%float in
  (dx * dx + dy * dy)%float.

Definition distance (a b : Point) : float :=
  JS.Math_hypot (x a - x b)%float (y a - y b)%float.

Definition triangleArea (ax ay bx by' cx cy : float) : float :=
  (JS.Math_abs (ax * (by' - cy) + bx * (cy - ay) + cx * (ay - by')) * 0.5)%float.

Definition circumradius (ax ay bx by' cx cy : float) : float :=
  let a := JS.Math_hypot (bx - cx) (by' - cy) in
  let b := JS.Math_hypot (ax - cx) (ay - cy) in
  let c := JS.Math_hypot (ax - bx) (ay - by') in
  let area := triangleArea ax ay bx by' cx cy in
  if (area =? 0)%float then JS.POSITIVE_INFINITY
  else ((a * b * c) / (4 * area))%float.

Definition approxEqual (a b : float) : bool := (JS.Math_abs (a - b) <? EPSILON)%float.
Definition approxZero (value : float) : bool := (JS.Math_abs value <? EPSILON)%float.

(** ** geometry-algorithms.ts *)

(** [arr[i]] for an index that is a JavaScript number: [undefined]
    ([None]) below zero and past the end. *)
Definition get {A : Type} (arr : list A) (i : Z) : option A :=
  if (i <? 0)%Z then None else nth_error arr (Z.to_nat i).

(** [arr[i] = v] for an index inside the array (the only writes the
    sources make; a write past the end would extend a JavaScript array). *)
Fixpoint update {A : Type} (arr : list A) (i : nat) (v : A) : list A :=
  match arr, i with
  | [], _ => []
  | _ :: rest, O => v :: rest
  | h :: rest, S i' => h :: update rest i' v
  end.

Definition nextHalfedge (index : Z) : Z :=
  if (index mod 3 =? 2)%Z then (index - 2)%Z else (index + 1)%Z.

(** The key ["a-b"] with [a < b], kept as the pair of integers the
    template string prints.  For the non-negative indices the builders pass,
    [decodeEdgeKey] parses the two fields back, so it is the identity on
    this representation. *)
Definition EdgeKey : Type := (Z * Z)%type.

Definition edgeKey (a b : Z) : EdgeKey :=
  if (a <? b)%Z then (a, b) else (b, a).

Definition decodeEdgeKey (key : EdgeKey) : EdgeIndex := key.

Definition EdgeKey_eqb (k1 k2 : EdgeKey) : bool :=
  (fst k1 =? fst k2)%Z && (snd k1 =? snd k2)%Z.

(** [Set<string>]: [has] and [add], insertion order kept. *)
Definition Set_has (s : list EdgeKey) (k : EdgeKey) : bool :=
  existsb (EdgeKey_eqb k) s.

Definition Set_add (s : list EdgeKey) (k : EdgeKey) : list EdgeKey :=
  if Set_has s k then s else s ++ [k].

(** [Map<string, number>]: [get(k) ?? 0] and [set], insertion order kept. *)
Fixpoint Map_get_or0 (m : list (EdgeKey * Z)) (k : EdgeKey) : Z :=
  match m with
  | [] => 0%Z
  | (k', v) :: rest => if EdgeKey_eqb k k' then v else Map_get_or0 rest k
  end.

Fixpoint Map_set (m : list (EdgeKey * Z)) (k : EdgeKey) (v : Z) : list (EdgeKey * Z) :=
  match m with
  | [] => [(k, v)]
  | (k', v') :: rest =>
      if EdgeKey_eqb k k' then (k', v) :: rest else (k', v') :: Map_set rest k v
  end.

(** [polygon.slice(0, -1)]. *)
Definition slice_0_m1 {A : Type} (arr : list A) : list A := removelast arr.

Definition polygonWithoutDuplicate (polygon : Polygon) : Polygon :=
  match polygon, last polygon (0%float, 0%float) with
  | first :: _, final =>
      if (fst first =? fst final)%float && (snd first =? snd final)%float
      then slice_0_m1 polygon
      else polygon
  | [], _ => polygon
  end.

(** The part of a d3-delaunay triangulation the builders read:
    [triangles] (a [Uint32Array]) and [halfedges] (an [Int32Array]). *)
Module Delaunay.
Record t : Type := { triangles : list Z; halfedges : list Z }.
End Delaunay.

Definition collectDelaunayEdges_step (delaunay : Delaunay.t)
    (acc : list EdgeKey * list EdgeIndex) (edgeIndex : nat)
    : list EdgeKey * list EdgeIndex :=
  let '(seen, edges) := acc in
  let opposite := nth edgeIndex (Delaunay.halfedges delaunay) 0%Z in
  if (0 <=? opposite)%Z && (opposite <? Z.of_nat edgeIndex)%Z then acc
  else
    match get (Delaunay.triangles delaunay) (Z.of_nat edgeIndex),
          get (Delaunay.triangles delaunay) (nextHalfedge (Z.of_nat edgeIndex)) with
    | Some p, Some q =>
        if (p =? q)%Z then acc
        else
          let key := edgeKey p q in
          if Set_has seen key then acc
          else (Set_add seen key, edges ++ [(Z.min p q, Z.max p q)])
    | _, _ => acc
    end.

Definition collectDelaunayEdges (delaunay : Delaunay.t) : list EdgeIndex :=
  snd (fold_left (collectDelaunayEdges_step delaunay)
         (seq 0 (length (Delaunay.halfedges delaunay))) ([], [])).

(** *** computeAlphaData *)

(** The test that lets a triangle through: it is the negation of
    [!Number.isFinite(radius) || radius > alpha]. *)
Definition alphaKeeps (alpha radius : float) : bool :=
  negb (negb (JS.isFinite radius) || (alpha <? radius)%float).

Definition triangleRadius (p0 p1 p2 : Point) : float :=
  circumradius (x p0) (y p0) (x p1) (y p1) (x p2) (y p2).

Definition countEdge (edgeCount : list (EdgeKey * Z)) (e : EdgeKey) : list (EdgeKey * Z) :=
  Map_set edgeCount e (Map_get_or0 edgeCount e + 1)%Z.

(** The loop over [delaunay.triangles], three entries at a time; a last
    group of fewer than three reads [undefined] and is skipped.  [None] is
    the [TypeError] of reading [.x] on a point that does not exist. *)
Fixpoint alphaLoop (points : list Point) (alpha : float) (tris : list Z)
    (alphaTriangles : list TriangleIndex) (edgeCount : list (EdgeKey * Z))
    : option (list TriangleIndex * list (EdgeKey * Z)) :=
  match tris with
  | i0 :: i1 :: i2 :: rest =>
      if (i0 =? i1)%Z || (i1 =? i2)%Z || (i2 =? i0)%Z
      then alphaLoop points alpha rest alphaTriangles edgeCount
      else
        match get points i0, get points i1, get points i2 with
        | Some p0, Some p1, Some p2 =>
            let radius := triangleRadius p0 p1 p2 in
            if negb (JS.isFinite radius) || (alpha <? radius)%float
            then alphaLoop points alpha rest alphaTriangles edgeCount
            else
              let e1 := edgeKey i0 i1 in
              let e2 := edgeKey i1 i2 in
              let e3 := edgeKey i2 i0 in
              alphaLoop points alpha rest (alphaTriangles ++ [(i0, i1, i2)])
                (countEdge (countEdge (countEdge edgeCount e1) e2) e3)
        | _, _, _ => None
        end
  | _ => Some (alphaTriangles, edgeCount)
  end.

Definition computeAlphaData (points : list Point) (delaunay : Delaunay.t)
    (alpha : float) : option AlphaData :=
  match alphaLoop points alpha (Delaunay.triangles delaunay) [] [] with
  | None => None
  | Some (alphaTriangles, edgeCount) =>
      Some {| triangles := alphaTriangles;
              allEdges := map (fun kv => decodeEdgeKey (fst kv)) edgeCount;
              boundaryEdges :=
                map (fun kv => decodeEdgeKey (fst kv))
                    (filter (fun kv => (snd kv =? 1)%Z) edgeCount) |}
  end.

(** *** computeNearestNeighborEdges *)

(** One pass of the inner loop over [j]; the state is
    [(nearestIndex, nearestDistance)]. *)
Definition nearestStep (points : list Point) (i : nat)
    (acc : option (Z * float)) (j : nat) : option (Z * float) :=
  match acc with
  | None => None
  | Some (nearestIndex, nearestDistance) =>
      if (i =? j)%nat then acc
      else
        match nth_error points i, nth_error points j with
        | Some pi, Some pj =>
            let d := distanceSquared pi pj in
            if (d <? nearestDistance)%float then Some (Z.of_nat j, d) else acc
        | _, _ => None
        end
  end.

Definition nearestScan (points : list Point) (i : nat) : option (Z * float) :=
  fold_left (nearestStep points i) (seq 0 (length points))
    (Some ((-1)%Z, JS.POSITIVE_INFINITY)).

Definition nearestEdgesStep (points : list Point)
    (acc : option (list EdgeKey)) (i : nat) : option (list EdgeKey) :=
  match acc with
  | None => None
  | Some edges =>
      match nearestScan points i with
      | None => None
      | Some (nearestIndex, _) =>
          if (0 <=? nearestIndex)%Z
          then Some (Set_add edges (edgeKey (Z.of_nat i) nearestIndex))
          else Some edges
      end
  end.

Definition computeNearestNeighborEdges (points : list Point) : option (list EdgeIndex) :=
  if (length points <? 2)%nat then Some []
  else
    match fold_left (nearestEdgesStep points) (seq 0 (length points)) (Some []) with
    | None => None
    | Some edges => Some (map decodeEdgeKey edges)
    end.

(** *** computeGabrielEdges *)

(** [inside] for the third point [pk] and the edge from [a] to [b]. *)
Definition gabrielInside (a b pk : Point) : bool :=
  let midX := ((x a + x b) / 2)%float in
  let midY := ((y a + y b) / 2)%float in
  let radiusSquared := (distanceSquared a b / 4)%float in
  let dx := (x pk - midX)%float in
  let dy := (y pk - midY)%float in
  (dx * dx + dy * dy <? radiusSquared - EPSILON)%float.

(** The loop over [k] with its [break]: the value is [isGabriel]. *)
Fixpoint gabrielLoop (points : list Point) (aIndex bIndex : Z) (a b : Point)
    (ks : list nat) : option bool :=
  match ks with
  | [] => Some true
  | k :: ks' =>
      if (Z.of_nat k =? aIndex)%Z || (Z.of_nat k =? bIndex)%Z
      then gabrielLoop points aIndex bIndex a b ks'
      else
        match nth_error points k with
        | None => None
        | Some pk =>
            if gabrielInside a b pk then Some false
            else gabrielLoop points aIndex bIndex a b ks'
        end
  end.

Fixpoint computeGabrielEdges_from (points : list Point)
    (candidateEdges : list EdgeIndex) (result : list EdgeIndex)
    : option (list EdgeIndex) :=
  match candidateEdges with
  | [] => Some result
  | (aIndex, bIndex) :: rest =>
      match get points aIndex, get points bIndex with
      | Some a, Some b =>
          match gabrielLoop points aIndex bIndex a b (seq 0 (length points)) with
          | None => None
          | Some isGabriel =>
              computeGabrielEdges_from points rest
                (if isGabriel then result ++ [(aIndex, bIndex)] else result)
          end
      | _, _ => None
      end
  end.

Definition computeGabrielEdges (points : list Point)
    (candidateEdges : list EdgeIndex) : option (list EdgeIndex) :=
  computeGabrielEdges_from points candidateEdges [].

(** *** computeRelativeNeighborhoodEdges *)

Definition rngCloser (a b pk : Point) : bool :=
  let ab := distance a b in
  let ak := distance a pk in
  let bk := distance b pk in
  (JS.Math_max ak bk <? ab - EPSILON)%float.

Fixpoint rngLoop (points : list Point) (aIndex bIndex : Z) (a b : Point)
    (ks : list nat) : option bool :=
  match ks with
  | [] => Some true
  | k :: ks' =>
      if (Z.of_nat k =? aIndex)%Z || (Z.of_nat k =? bIndex)%Z
      then rngLoop points aIndex bIndex a b ks'
      else
        match nth_error points k with
        | None => None
        | Some pk =>
            if rngCloser a b pk then Some false
            else rngLoop points aIndex bIndex a b ks'
        end
  end.

Fixpoint computeRelativeNeighborhoodEdges_from (points : list Point)
    (candidateEdges : list EdgeIndex) (result : list EdgeIndex)
    : option (list EdgeIndex) :=
  match candidateEdges with
  | [] => Some result
  | (aIndex, bIndex) :: rest =>
      match get points aIndex, get points bIndex with
      | Some a, Some b =>
          match rngLoop points aIndex bIndex a b (seq 0 (length points)) with
          | None => None
          | Some isRelativeNeighbor =>
              computeRelativeNeighborhoodEdges_from points rest
                (if isRelativeNeighbor then result ++ [(aIndex, bIndex)] else result)
          end
      | _, _ => None
      end
  end.

Definition computeRelativeNeighborhoodEdges (points : list Point)
    (candidateEdges : list EdgeIndex) : option (list EdgeIndex) :=
  computeRelativeNeighborhoodEdges_from points candidateEdges [].

(** *** computeMinimumSpanningTreeEdges *)

(** The first loop, [for (let i = 1; i < count; i += 1)]: the state is
    [(distances, parent)]. *)
Definition primInitStep (points : list Point)
    (acc : option (list float * list Z)) (i : nat) : option (list float * list Z) :=
  match acc with
  | None => None
  | Some (distances, parent) =>
      match nth_error points 0, nth_error points i with
      | Some p0, Some pi => Some (update distances i (distance p0 pi), update parent i 0%Z)
      | _, _ => None
      end
  end.

(** "Find nearest unvisited point": the state is [(bestIndex, bestDistance)].
    A read of [distances[j]] past the end would be [undefined], which
    compares like NaN. *)
Definition primSelectStep (visited : list bool) (distances : list float)
    (acc : Z * float) (j : nat) : Z * float :=
  if nth j visited false then acc
  else if (nth j distances nan <? snd acc)%float
       then (Z.of_nat j, nth j distances nan)
       else acc.

Definition primSelect (count : nat) (visited : list bool) (distances : list float)
    : Z * float :=
  fold_left (primSelectStep visited distances) (seq 0 count)
    ((-1)%Z, JS.POSITIVE_INFINITY).

(** "Update distances to remaining unvisited points". *)
Definition primRelaxStep (points : list Point) (visited : list bool) (bestIndex : Z)
    (acc : option (list float * list Z)) (j : nat) : option (list float * list Z) :=
  match acc with
  | None => None
  | Some (distances, parent) =>
      if nth j visited false then acc
      else
        match get points bestIndex, nth_error points j with
        | Some pb, Some pj =>
            let d := distance pb pj in
            if (d <? nth j distances nan)%float
            then Some (update distances j d, update parent j bestIndex)
            else acc
        | _, _ => None
        end
  end.

(** The main loop, [for (let iteration = 1; iteration < count; ...)], as
    the number of iterations still to run. *)
Fixpoint primLoop (points : list Point) (count : nat) (iterations : nat)
    (visited : list bool) (distances : list float) (parent : list Z)
    (edges : list EdgeIndex) : option (list EdgeIndex) :=
  match iterations with
  | O => Some edges
  | S iterations' =>
      let bestIndex := fst (primSelect count visited distances) in
      if (bestIndex =? -1)%Z then Some edges
      else
        let visited := update visited (Z.to_nat bestIndex) true in
        let parentIndex := nth (Z.to_nat bestIndex) parent (-1)%Z in
        let edges :=
          if (0 <=? parentIndex)%Z
          then edges ++ [(Z.min bestIndex parentIndex, Z.max bestIndex parentIndex)]
          else edges in
        match fold_left (primRelaxStep points visited bestIndex) (seq 0 count)
                (Some (distances, parent)) with
        | None => None
        | Some (distances, parent) =>
            primLoop points count iterations' visited distances parent edges
        end
  end.

Definition computeMinimumSpanningTreeEdges (points : list Point)
    : option (list EdgeIndex) :=
  let count := length points in
  if (count <? 2)%nat then Some []
  else
    let visited := update (repeat false count) 0 true in
    match fold_left (primInitStep points) (seq 1 (count - 1))
            (Some (repeat JS.POSITIVE_INFINITY count, repeat (-1)%Z count)) with
    | None => None
    | Some (distances, parent) =>
        primLoop points count (count - 1) visited distances parent []
    end.

(** *** computeVoronoiBruteForce *)

(** A pixel coordinate as a JavaScript number (exact below [2^53]). *)
Definition Number_of_nat (n : nat) : float :=
  of_uint63 (Uint63.of_Z (Z.of_nat n)).

Definition MAX_VALUE : float := 0x1.fffffffffffffp+1023%float.

Definition closestSeedStep (points : list Point) (px py : float)
    (acc : option (nat * float)) (i : nat) : option (nat * float) :=
  match acc with
  | None => None
  | Some (closestIndex, closestDistance) =>
      match nth_error points i with
      | None => None
      | Some p =>
          let dx := (px - x p)%float in
          let dy := (py - y p)%float in
          let distSquared := (dx * dx + dy * dy)%float in
          if (distSquared <? closestDistance)%float then Some (i, distSquared) else acc
      end
  end.

Definition bruteForcePixel (points : list Point)
    (acc : option (list Polygon)) (pixel : nat * nat) : option (list Polygon) :=
  match acc with
  | None => None
  | Some cells =>
      let px := Number_of_nat (fst pixel) in
      let py := Number_of_nat (snd pixel) in
      match fold_left (closestSeedStep points px py) (seq 0 (length points))
              (Some (O, MAX_VALUE)) with
      | None => None
      | Some (closestIndex, _) =>
          match nth_error cells closestIndex with
          | None => None
          | Some cell => Some (update cells closestIndex (cell ++ [(px, py)]))
          end
      end
  end.

(** The canvas size is a whole number of pixels: [width] and [height] are
    [nat], and the two nested loops visit the rows top to bottom. *)
Definition computeVoronoiBruteForce (points : list Point) (width height : nat)
    : option (list Polygon) :=
  fold_left (bruteForcePixel points)
    (flat_map (fun py => map (fun px => (px, py)) (seq 0 width)) (seq 0 height))
    (Some (map (fun _ => []) points)).

(** *** computeDerivedStructures *)

Section Orchestrator.

(** d3-delaunay is outside the repository: [Delaunay.from(points, ...)]
    and, for [delaunay.voronoi([0, 0, width, height])],
    [voronoi.cellPolygon(index)] ([None] is its [null]). *)
Variable Delaunay_from : list Point -> Delaunay.t.
Variable cellPolygon : list Point -> nat -> nat -> nat -> option Polygon.

Definition computeDerivedStructures (points : list Point) (width height : nat)
    (alpha : float) (mode : string) : option DerivedStructures :=
  if (length points =? 0)%nat then
    Some {| voronoiCells := []; graphEdges := []; alphaTriangles := [] |}
  else if String.eqb mode "voronoi-bruteforce" then
    match computeVoronoiBruteForce points width height with
    | None => None
    | Some cells =>
        Some {| voronoiCells := cells; graphEdges := []; alphaTriangles := [] |}
    end
  else
    let delaunay := Delaunay_from points in
    let voronoiCells :=
      map (fun index =>
             polygonWithoutDuplicate
               (match cellPolygon points width height index with
                | Some polygon => polygon
                | None => []
                end))
          (seq 0 (length points)) in
    if String.eqb mode "voronoi" then
      Some {| voronoiCells := voronoiCells; graphEdges := []; alphaTriangles := [] |}
    else
      let candidateEdges := collectDelaunayEdges delaunay in
      if String.eqb mode "alpha-shape" || String.eqb mode "alpha-complex" then
        match computeAlphaData points delaunay alpha with
        | None => None
        | Some alphaData =>
            Some {| voronoiCells := voronoiCells;
                    graphEdges :=
                      if String.eqb mode "alpha-shape"
                      then boundaryEdges alphaData else allEdges alphaData;
                    alphaTriangles :=
                      if String.eqb mode "alpha-complex"
                      then triangles alphaData else [] |}
        end
      else if String.eqb mode "nn-crust" then
        match computeNearestNeighborEdges points with
        | None => None
        | Some edges =>
            Some {| voronoiCells := voronoiCells; graphEdges := edges; alphaTriangles := [] |}
        end
      else if String.eqb mode "gabriel" then
        match computeGabrielEdges points candidateEdges with
        | None => None
        | Some edges =>
            Some {| voronoiCells := voronoiCells; graphEdges := edges; alphaTriangles := [] |}
        end
      else if String.eqb mode "rng" then
        match computeRelativeNeighborhoodEdges points candidateEdges with
        | None => None
        | Some edges =>
            Some {| voronoiCells := voronoiCells; graphEdges := edges; alphaTriangles := [] |}
        end
      else
        match computeMinimumSpanningTreeEdges points with
        | None => None
        | Some edges =>
            Some {| voronoiCells := voronoiCells; graphEdges := edges; alphaTriangles := [] |}
        end.

End Orchestrator.


(** ** math-utils.ts: the ray-casting test *)

(** The condition of the [if] for the edge from vertex [vj] to vertex
    [vi]: the two ends are on different sides of the horizontal line through
    the point, and the point is to the left of where the edge meets it. *)
Definition crossesRay (px py : float) (vi vj : float * float) : bool :=
  let xi := fst vi in
  let yi := snd vi in
  let xj := fst vj in
  let yj := snd vj in
  xorb (py <? yi)%float (py <? yj)%float
  && (px <? ((xj - xi) * (py - yi)) / (yj - yi) + xi)%float.

(** One pass of [for (let i = 0, j = polygon.length - 1; ...; j = i++)];
    the state is [(inside, j)].  Both indices stay inside the array. *)
Definition isPointInPolygon_step (px py : float) (polygon : Polygon)
    (acc : bool * nat) (i : nat) : bool * nat :=
  let '(inside, j) := acc in
  let vi := nth i polygon (nan, nan) in
  let vj := nth j polygon (nan, nan) in
  (if crossesRay px py vi vj then negb inside else inside, i).

Definition isPointInPolygon (px py : float) (polygon : Polygon) : bool :=
  fst (fold_left (isPointInPolygon_step px py polygon) (seq 0 (length polygon))
         (false, (length polygon - 1)%nat)).

(** ** geometry-algorithms.ts: shrinkPolygon *)

(** The centroid loop: [cx += x; cy += y] over the vertices, from 0. *)
Definition sumVertices (polygon : Polygon) : float * float :=
  fold_left (fun acc v => ((fst acc + fst v)%float, (snd acc + snd v)%float))
            polygon (0%float, 0%float).

(** The callback of [polygon.map]: one vertex moved toward [(cx, cy)]. *)
Definition shrinkVertex (cx cy amount : float) (v : float * float) : float * float :=
  let dx := (fst v - cx)%float in
  let dy := (snd v - cy)%float in
  let dist := JS.Math_hypot dx dy in
  if (dist =? 0)%float then v
  else
    let shrinkDist := JS.Math_max 0 (dist - amount) in
    ((cx + (dx / dist) * shrinkDist)%float, (cy + (dy / dist) * shrinkDist)%float).

Definition shrinkPolygon (polygon : Polygon) (amount : float) : Polygon :=
  if (length polygon <? 3)%nat || (amount <=? 0)%float then polygon
  else
    let cx := (fst (sumVertices polygon) / Number_of_nat (length polygon))%float in
    let cy := (snd (sumVertices polygon) / Number_of_nat (length polygon))%float in
    map (shrinkVertex cx cy amount) polygon.

(** ** canvas-utils.ts: drawRoundedPolygon *)

(** The calls [drawRoundedPolygon] makes on the 2D context.  The context
    is the list of the calls made on it so far, oldest first. *)
Inductive CanvasCall : Type :=
| beginPath
| closePath
| arc (cx cy radius startAngle endAngle : float)
| moveTo (px py : float)
| lineTo (px py : float)
| quadraticCurveTo (cpx cpy px py : float).

Definition CanvasRenderingContext2D : Type := list CanvasCall.

Definition Math_PI : float := 0x1.921fb54442d18p+1%float.

(** The body of the loop over [index], for a polygon of [count] >= 2
    vertices: the calls of one corner. *)
Definition roundedCorner (points : Polygon) (radius : float) (index : nat)
    : list CanvasCall :=
  let count := Z.of_nat (length points) in
  let '(cx, cy) := nth index points (nan, nan) in
  let '(prevX, prevY) :=
    nth (Z.to_nat ((Z.of_nat index - 1 + count) mod count)) points (nan, nan) in
  let '(nextX, nextY) :=
    nth (Z.to_nat ((Z.of_nat index + 1) mod count)) points (nan, nan) in
  let vPrevX := (prevX - cx)%float in
  let vPrevY := (prevY - cy)%float in
  let vNextX := (nextX - cx)%float in
  let vNextY := (nextY - cy)%float in
  let lenPrev := JS.Math_hypot vPrevX vPrevY in
  let lenNext := JS.Math_hypot vNextX vNextY in
  if (lenPrev =? 0)%float || (lenNext =? 0)%float then
    [if (index =? 0)%nat then moveTo cx cy else lineTo cx cy]
  else
    let offset := JS.Math_min (JS.Math_min radius (lenPrev / 2)) (lenNext / 2) in
    let startX := (cx + (vPrevX / lenPrev) * offset)%float in
    let startY := (cy + (vPrevY / lenPrev) * offset)%float in
    let endX := (cx + (vNextX / lenNext) * offset)%float in
    let endY := (cy + (vNextY / lenNext) * offset)%float in
    [if (index =? 0)%nat then moveTo startX startY else lineTo startX startY;
     quadraticCurveTo cx cy endX endY].

Definition drawRoundedPolygon (ctx : CanvasRenderingContext2D) (polygon : Polygon)
    (radius : float) : CanvasRenderingContext2D :=
  let points := polygonWithoutDuplicate polygon in
  match points with
  | [] => ctx
  | [(cx, cy)] => ctx ++ [beginPath; arc cx cy radius 0 (Math_PI * 2); closePath]
  | _ =>
      (ctx ++ [beginPath])
        ++ flat_map (roundedCorner points radius) (seq 0 (length points))
        ++ [closePath]
  end.

(** ** VoronoiCanvas.tsx: the hit test of the pointer handlers *)

Definition POINT_RADIUS : float := 10%float.
Definition HIT_DISTANCE_MULTIPLIER : float := 2%float.

(** The loop [for (let index = currentPoints.length - 1; index >= 0;
    index -= 1)], with [remaining = index + 1] indices still to visit.
    [currentPoints] is the content of [pointsRef.current]; the position
    [(x, y)] of the source is written [(px, py)] here, [x] and [y] being the
    fields of a point. *)
Fixpoint findPointByPosition_from (currentPoints : list Point) (px py : float)
    (remaining : nat) : option Z :=
  let hitDistance := (POINT_RADIUS * HIT_DISTANCE_MULTIPLIER)%float in
  match remaining with
  | O => Some (-1)%Z
  | S index =>
      match nth_error currentPoints index with
      | None => None
      | Some point =>
          let distanceValue := JS.Math_hypot (x point - px) (y point - py) in
          if (distanceValue <=? hitDistance)%float then Some (Z.of_nat index)
          else findPointByPosition_from currentPoints px py index
      end
  end.

Definition findPointByPosition (currentPoints : list Point) (px py : float) : option Z :=
  findPointByPosition_from currentPoints px py (length currentPoints).

(** ** geometry-algorithms.ts: the edge keys as the strings they are

    [edgeKey] builds the template string [`${a}-${b}`] and [decodeEdgeKey]
    splits it at ["-"] and parses the fields with [Number.parseInt(_, 10)].
    Here both are written on strings, for the array indices the builders
    pass (natural numbers), to compare them with the pairs used above. *)

From Stdlib Require DecimalString DecimalNat DecimalFacts.
From Stdlib Require Import Ascii.

(** [String(n)] for a natural number below [10^21]: its decimal digits. *)
Definition Number_toString (n : nat) : string :=
  DecimalString.NilEmpty.string_of_uint (Nat.to_uint n).

Definition edgeKey_string (a b : nat) : string :=
  if (a <? b)%nat
  then (Number_toString a ++ "-" ++ Number_toString b)%string
  else (Number_toString b ++ "-" ++ Number_toString a)%string.

(** [s.split(sep)] for a one-character separator. *)
Fixpoint String_split (sep : Ascii.ascii) (s : string) : list string :=
  match s with
  | EmptyString => [EmptyString]
  | String c rest =>
      if Ascii.eqb c sep then EmptyString :: String_split sep rest
      else
        match String_split sep rest with
        | field :: fields => String c field :: fields
        | [] => [String c EmptyString]
        end
  end.

Definition digitValue (c : Ascii.ascii) : option nat :=
  let n := Ascii.nat_of_ascii c in
  if (48 <=? n)%nat && (n <=? 57)%nat then Some (n - 48)%nat else None.

(** The value of the longest prefix of decimal digits, continuing from
    [acc]. *)
Fixpoint parseDigits (s : string) (acc : nat) : nat :=
  match s with
  | EmptyString => acc
  | String c rest =>
      match digitValue c with
      | Some d => parseDigits rest (10 * acc + d)
      | None => acc
      end
  end.

Definition isWhiteSpace (c : Ascii.ascii) : bool :=
  let n := Ascii.nat_of_ascii c in
  (n =? 9)%nat || (n =? 10)%nat || (n =? 11)%nat || (n =? 12)%nat || (n =? 13)%nat
  || (n =? 32)%nat.

Fixpoint trimStart (s : string) : string :=
  match s with
  | String c rest => if isWhiteSpace c then trimStart rest else s
  | EmptyString => s
  end.

(** [Number.parseInt(s, 10)]: leading white space is skipped, a sign is
    read, then the longest prefix of digits; [None] is NaN (no digit). *)
Definition Number_parseInt (s : string) : option Z :=
  let unsigned (t : string) : option Z :=
    match t with
    | String c _ =>
        match digitValue c with
        | Some _ => Some (Z.of_nat (parseDigits t 0))
        | None => None
        end
    | EmptyString => None
    end in
  match trimStart s with
  | String c rest =>
      if Ascii.eqb c "-"%char then option_map Z.opp (unsigned rest)
      else if Ascii.eqb c "+"%char then unsigned rest
      else unsigned (String c rest)
  | EmptyString => None
  end.

(** [const [a, b] = key.split("-").map((value) => Number.parseInt(value,
    10))]: a missing second field is [undefined]; [None] stands for NaN and
    for [undefined]. *)
Definition decodeEdgeKey_string (key : string) : option Z * option Z :=
  match map Number_parseInt (String_split "-"%char key) with
  | a :: b :: _ => (a, b)
  | [a] => (a, None)
  | [] => (None, None)
  end.

(** ** math-utils.ts: pseudoRandom, and createInitialPoints *)

(** [Math.floor]: the largest integer not above a number; an infinity, a
    NaN and a zero are returned as they are.  A finite number [±m·2^e] with
    [e >= 0] is an integer already; otherwise its integer part is below
    [2^53] and is a binary64 number. *)
Definition Math_floor (v : float) : float :=
  match Prim2SF v with
  | S754_finite s m e =>
      if (0 <=? e)%Z then v
      else
        let q := (Z.pos m / 2 ^ (- e))%Z in
        if (Z.pos m mod 2 ^ (- e) =? 0)%Z then v
        else if s then float_of_Z (- (q + 1)) else float_of_Z q
  | _ => v
  end.

Definition INITIAL_SEEDS : list (float * float) :=
  [ (0.18, 0.25); (0.38, 0.18); (0.62, 0.22); (0.82, 0.34); (0.22, 0.54);
    (0.46, 0.46); (0.68, 0.52); (0.14, 0.78); (0.44, 0.76); (0.74, 0.78) ]%float.

Section InitialPoints.

(** [Math.sin] is implementation-approximated: any function here. *)
Variable Math_sin : float -> float.

Definition pseudoRandom (seed : float) : float :=
  let x := (Math_sin (seed * 12.9898) * 43758.5453)%float in
  (x - Math_floor x)%float.

(** The callback of [INITIAL_SEEDS.map], for the seed [(u, v)] at
    [index]. *)
Definition createInitialPoint (width height : float) (index : nat) (seed : float * float)
    : Point :=
  let '(u, v) := seed in
  let jitter := ((pseudoRandom (Number_of_nat index) - 0.5) * 0.12)%float in
  let jitterY := ((pseudoRandom (Number_of_nat index + 42) - 0.5) * 0.12)%float in
  {| id := Z.of_nat index;
     x := clamp ((u + jitter) * width) 40 (width - 40);
     y := clamp ((v + jitterY) * height) 40 (height - 40) |}.

Definition createInitialPoints (width height : float) : list Point :=
  map (fun entry => createInitialPoint width height (fst entry) (snd entry))
      (combine (seq 0 (length INITIAL_SEEDS)) INITIAL_SEEDS).

End InitialPoints.
(** * Vocabulary of the properties *)

(** What both [k] loops compute: no [k] other than the two endpoints makes
    [test] true. *)
Definition noThirdPoint (points : list Point) (aIndex bIndex : Z)
    (test : Point -> bool) (ks : list nat) : Prop :=
  forall k pk, In k ks -> Z.of_nat k <> aIndex -> Z.of_nat k <> bIndex ->
               nth_error points k = Some pk -> test pk = false.

(** An edge list addresses the points when both ends of every edge are
    indices of the point sequence. *)
Definition edgesInRange (points : list Point) (edges : list EdgeIndex) : Prop :=
  Forall (fun e => (0 <= fst e < Z.of_nat (length points))%Z /\
                   (0 <= snd e < Z.of_nat (length points))%Z) edges.

(** An edge the Gabriel filter lets through. *)
Definition gabrielKeeps (points : list Point) (e : EdgeIndex) : Prop :=
  exists a b, get points (fst e) = Some a /\ get points (snd e) = Some b /\
              noThirdPoint points (fst e) (snd e) (gabrielInside a b)
                (seq 0 (length points)).

Definition rngKeeps (points : list Point) (e : EdgeIndex) : Prop :=
  exists a b, get points (fst e) = Some a /\ get points (snd e) = Some b /\
              noThirdPoint points (fst e) (snd e) (rngCloser a b)
                (seq 0 (length points)).

(** The triangles of a flat index array: its complete groups of three. *)
Fixpoint chunks3 (tris : list Z) : list TriangleIndex :=
  match tris with
  | i0 :: i1 :: i2 :: rest => (i0, i1, i2) :: chunks3 rest
  | _ => []
  end.

(** The three indices are pairwise different and address points whose
    circumradius passes [test]. *)
Definition triangleWith (points : list Point) (test : float -> bool)
    (t : TriangleIndex) : Prop :=
  let '(i0, i1, i2) := t in
  i0 <> i1 /\ i1 <> i2 /\ i2 <> i0 /\
  exists p0 p1 p2,
    get points i0 = Some p0 /\ get points i1 = Some p1 /\ get points i2 = Some p2 /\
    test (triangleRadius p0 p1 p2) = true.

(** The three indices are pairwise different and one of them addresses
    no point: reading its coordinates throws. *)
Definition missingPoint (points : list Point) (t : TriangleIndex) : Prop :=
  let '(i0, i1, i2) := t in
  i0 <> i1 /\ i1 <> i2 /\ i2 <> i0 /\
  (get points i0 = None \/ get points i1 = None \/ get points i2 = None).

Definition indicesInRange (points : list Point) (indices : list Z) : Prop :=
  Forall (fun i => (0 <= i < Z.of_nat (length points))%Z) indices.

(** ** Graphs on vertex indices *)

(** Two vertices joined by a path of edges, each taken in either
    direction. *)
Inductive connected (edges : list EdgeIndex) : Z -> Z -> Prop :=
| connected_refl v : connected edges v v
| connected_step u v w :
    In (u, v) edges \/ In (v, u) edges -> connected edges v w -> connected edges u w.

(** No cycle: taking any one edge out of the list disconnects its two
    ends.  (A loop, and an edge listed twice, are cycles.) *)
Definition acyclic (edges : list EdgeIndex) : Prop :=
  forall before e after,
    edges = before ++ e :: after -> ~ connected (before ++ after) (fst e) (snd e).


(** No computed distance between two of the points overflows. *)
Definition distancesFinite (points : list Point) : Prop :=
  forall a b, In a points -> In b points ->
              (distance a b <? JS.POSITIVE_INFINITY)%float = true.

(** The number of points marked visited. *)
Definition countVisited (visited : list bool) : nat :=
  length (filter (fun b => b) visited).

(** The sum of the lengths of the edges, added from left to right. *)
Definition totalLength (points : list Point) (edges : list EdgeIndex) : option float :=
  fold_left (fun acc e =>
               match acc, get points (fst e), get points (snd e) with
               | Some total, Some a, Some b => Some (total + distance a b)%float
               | _, _, _ => None
               end)
            edges (Some 0%float).

(** All the orders in which a list can be written. *)
Fixpoint insertions {A : Type} (a : A) (l : list A) : list (list A) :=
  match l with
  | [] => [[a]]
  | h :: t => (a :: l) :: map (cons h) (insertions a t)
  end.

Fixpoint orderings {A : Type} (l : list A) : list (list A) :=
  match l with
  | [] => [[]]
  | h :: t => flat_map (insertions h) (orderings t)
  end.

(** What holds before every iteration of Prim's main loop: the arrays
    have one entry per point, point 0 is visited, every unvisited point
    records a visited parent and its distance to it, and the edges form a
    tree on the visited points. *)
Definition primInvariant (points : list Point) (visited : list bool)
    (distances : list float) (parent : list Z) (edges : list EdgeIndex) : Prop :=
  length visited = length points /\
  length distances = length points /\
  length parent = length points /\
  nth 0 visited false = true /\
  (forall j, (j < length points)%nat -> nth j visited false = false ->
     exists p pp pj,
       nth j parent (-1)%Z = Z.of_nat p /\ (p < length points)%nat /\
       nth p visited false = true /\
       nth_error points p = Some pp /\ nth_error points j = Some pj /\
       nth j distances nan = distance pp pj) /\
  (forall e, In e edges ->
     exists u v, e = (Z.of_nat u, Z.of_nat v) /\
                 (u < length points)%nat /\ (v < length points)%nat /\
                 nth u visited false = true /\ nth v visited false = true) /\
  (forall i, (i < length points)%nat -> nth i visited false = true ->
             connected edges 0%Z (Z.of_nat i)) /\
  acyclic edges /\
  (length edges + 1)%nat = countVisited visited.

(** ** Nearest neighbours *)



(** ** The orchestrator *)

(** The cell polygons [computeDerivedStructures] computes in every mode
    but the brute-force one. *)
Definition cellsOf (cellPolygon : list Point -> nat -> nat -> nat -> option Polygon)
    (points : list Point) (width height : nat) : list Polygon :=
  map (fun index =>
         polygonWithoutDuplicate
           (match cellPolygon points width height index with
            | Some polygon => polygon
            | None => []
            end))
      (seq 0 (length points)).

(** A result bundle whose edges come from [builder]; nothing if the
    builder throws. *)
Definition edgesFrom (cells : list Polygon) (builder : option (list EdgeIndex))
    : option DerivedStructures :=
  option_map (fun edges =>
                {| voronoiCells := cells; graphEdges := edges; alphaTriangles := [] |})
             builder.

(** ** Signs of binary64 values *)

(** The sign of a rounded result is the sign asked for. *)
Definition signed (s : bool) (r : spec_float) : Prop :=
  match r with
  | S754_zero s' | S754_infinity s' | S754_finite s' _ _ => s' = s
  | S754_nan => True
  end.

(** A binary64 value that is not below zero: a zero, a positive number,
    positive infinity or NaN. *)
Definition notNegative (r : spec_float) : Prop :=
  match r with
  | S754_infinity true | S754_finite true _ _ => False
  | _ => True
  end.

(** A zero of either sign, or NaN. *)
Definition zeroOrNaN (r : spec_float) : Prop :=
  match r with
  | S754_zero _ | S754_nan => True
  | _ => False
  end.

(** Two binary64 values of opposite signs and equal magnitude (zeros of
    any sign count as opposite; NaN is opposite to NaN). *)
Definition opposite (r r' : spec_float) : Prop :=
  match r, r' with
  | S754_zero _, S754_zero _ => True
  | S754_nan, S754_nan => True
  | S754_infinity s, S754_infinity s' => s' = negb s
  | S754_finite s m e, S754_finite s' m' e' => s' = negb s /\ m' = m /\ e' = e
  | _, _ => False
  end.

(** ** The diametral circle *)


Definition radiusSquared (a b : Point) : float := (distanceSquared a b / 4)%float.

(** ** Fixed inputs used by the examples *)

(** A right triangle with legs 4 and 3, and its triangulation. *)
Definition rightTriangle : list Point :=
  [ {| id := 0; x := 0; y := 0 |}; {| id := 1; x := 4; y := 0 |};
    {| id := 2; x := 0; y := 3 |} ].

Definition oneTriangle : Delaunay.t :=
  {| Delaunay.triangles := [0; 1; 2]%Z; Delaunay.halfedges := [-1; -1; -1]%Z |}.

(** Two points two units apart and a third one within [2^-20] of the
    first. *)
Definition nearEndpoint : list Point :=
  [ {| id := 0; x := 0; y := 0 |}; {| id := 1; x := 2; y := 0 |};
    {| id := 2; x := 0x1p-20; y := 0x1p-20 |} ].

(** Three points on the line [y = x]. *)
Definition onDiagonal : list Point :=
  [ {| id := 0; x := 0.1; y := 0.1 |}; {| id := 1; x := 0.2; y := 0.2 |};
    {| id := 2; x := 0.3; y := 0.3 |} ].

(** The corners of the unit square and its centre. *)
Definition squareCorners : list Point :=
  [ {| id := 0; x := 0; y := 0 |}; {| id := 1; x := 1; y := 0 |};
    {| id := 2; x := 1; y := 1 |}; {| id := 3; x := 0; y := 1 |} ].

Definition squareCentre : Point := {| id := 4; x := 0.5; y := 0.5 |}.

Definition unitSquare : list Point := squareCorners ++ [squareCentre].


(** An edge of [points] joins the centre of the square (the point with
    [id] 4) to one of its corners. *)
Definition centreToCorner (points : list Point) (e : EdgeIndex) : bool :=
  match get points (fst e), get points (snd e) with
  | Some a, Some b =>
      ((id a =? 4)%Z && (id b <? 4)%Z) || ((id b =? 4)%Z && (id a <? 4)%Z)
  | _, _ => false
  end.

(** The tree computed for one ordering of the square's points: four
    edges, each from the centre to a corner, of total length [4 * sqrt 0.5]. *)
Definition squareTreeOk (points : list Point) : bool :=
  match computeMinimumSpanningTreeEdges points with
  | Some edges =>
      (length edges =? 4)%nat && forallb (centreToCorner points) edges &&
      match totalLength points edges with
      | Some total => (total =? 4 * sqrt 0.5)%float
      | None => false
      end
  | None => false
  end.




(** A number of the program is zero or NaN: it compares equal to 0, or it is
    NaN. *)
Definition isZeroOrNaN (v : float) : Prop :=
  (v =? 0)%float = true \/ is_nan v = true.

(** ** Halfedges *)

(** Halfedge [e] of a triangulation runs from point [p] to point [q]:
    [triangles[e]] is [p] and [triangles[nextHalfedge e]] is [q]. *)
Definition halfedgeFromTo (delaunay : Delaunay.t) (e : nat) (p q : Z) : Prop :=
  (e < length (Delaunay.halfedges delaunay))%nat /\
  get (Delaunay.triangles delaunay) (Z.of_nat e) = Some p /\
  get (Delaunay.triangles delaunay) (nextHalfedge (Z.of_nat e)) = Some q.

(** The twin of halfedge [e] comes earlier in the array, so the loop of
    [collectDelaunayEdges] leaves [e] to it. *)
Definition twinEarlier (delaunay : Delaunay.t) (e : nat) : Prop :=
  (0 <= nth e (Delaunay.halfedges delaunay) 0 < Z.of_nat e)%Z.

(** ** Sides of triangles *)

(** The three sides of a triangle, as [computeAlphaData] keys them. *)
Definition sides (t : TriangleIndex) : list EdgeIndex :=
  let '(i0, i1, i2) := t in
  [decodeEdgeKey (edgeKey i0 i1); decodeEdgeKey (edgeKey i1 i2);
   decodeEdgeKey (edgeKey i2 i0)].

Definition EdgeIndex_eq_dec (e1 e2 : EdgeIndex) : {e1 = e2} + {e1 <> e2}.
Proof. decide equality; apply Z.eq_dec. Defined.

(** In how many of the triangles [ts] the edge [e] is a side (a triangle
    listed twice counts twice). *)
Definition sideCount (ts : list TriangleIndex) (e : EdgeIndex) : nat :=
  count_occ EdgeIndex_eq_dec (flat_map sides ts) e.

(** What the edge counter holds after the sides [E] have been counted. *)
Definition counts (E : list EdgeIndex) (m : list (EdgeKey * Z)) : Prop :=
  NoDup (map fst m) /\
  forall k, (In k (map fst m) <-> In k E) /\
            Map_get_or0 m k = Z.of_nat (count_occ EdgeIndex_eq_dec E k).

(** ** Nearest neighbours, for any coordinates *)

(** [j] is the point the scan from point [i] ends on: another point, at a
    squared distance below infinity, with no point strictly nearer and no
    earlier point as near.  A squared distance that is NaN or infinite is
    never the nearest. *)
Definition nearestFound (points : list Point) (i j : nat) : Prop :=
  j <> i /\
  exists pi pj,
    nth_error points i = Some pi /\ nth_error points j = Some pj /\
    (distanceSquared pi pj <? JS.POSITIVE_INFINITY)%float = true /\
    forall k pk, k <> i -> nth_error points k = Some pk ->
      (distanceSquared pi pk <? distanceSquared pi pj)%float = false /\
      ((k < j)%nat -> (distanceSquared pi pk <=? distanceSquared pi pj)%float = false).

(** ** Trees grown from the first point *)

(** A tree that contains vertex 0 and lies within the vertices [0 .. n-1]:
    at most [n - 1] edges, no cycle, and every edge is written smaller index
    first and has both ends joined to vertex 0. *)
Definition treeFromFirst (n : nat) (edges : list EdgeIndex) : Prop :=
  (length edges <= n - 1)%nat /\ acyclic edges /\
  forall e, In e edges ->
            (0 <= fst e < snd e)%Z /\ (snd e < Z.of_nat n)%Z /\
            connected edges 0%Z (fst e) /\ connected edges 0%Z (snd e).

(** Every edge joins two points whose computed distance is below
    infinity. *)
Definition edgesOfFiniteLength (points : list Point) (edges : list EdgeIndex) : Prop :=
  forall e, In e edges ->
            exists a b, get points (fst e) = Some a /\ get points (snd e) = Some b /\
                        (distance a b <? JS.POSITIVE_INFINITY)%float = true.

(** ** The brute-force diagram *)

(** The pixels of a canvas in the order the two loops visit them: row by
    row, each row from left to right. *)
Definition pixels (width height : nat) : list (nat * nat) :=
  flat_map (fun py => map (fun px => (px, py)) (seq 0 width)) (seq 0 height).

(** The pair of numbers pushed for a pixel. *)
Definition pixelCoordinates (pixel : nat * nat) : float * float :=
  (Number_of_nat (fst pixel), Number_of_nat (snd pixel)).

(** The squared distance the inner loop computes from a pixel to a seed. *)
Definition pixelDistanceSquared (pixel : nat * nat) (p : Point) : float :=
  let dx := (Number_of_nat (fst pixel) - x p)%float in
  let dy := (Number_of_nat (snd pixel) - y p)%float in
  (dx * dx + dy * dy)%float.

(** The seed the inner loop of [computeVoronoiBruteForce] ends on for a
    pixel (0 when there is no seed at all). *)
Definition closestSeed (points : list Point) (pixel : nat * nat) : nat :=
  match fold_left (closestSeedStep points (Number_of_nat (fst pixel))
                     (Number_of_nat (snd pixel)))
                  (seq 0 (length points)) (Some (O, MAX_VALUE)) with
  | Some (closestIndex, _) => closestIndex
  | None => O
  end.

(** Seed [i] is the first seed at the least squared distance from the
    pixel, that distance being below [Number.MAX_VALUE]; or no seed is that
    near and [i] is 0. *)
Definition firstClosest (points : list Point) (pixel : nat * nat) (i : nat) : Prop :=
  (i = O /\
   forall k pk, nth_error points k = Some pk ->
                (pixelDistanceSquared pixel pk <? MAX_VALUE)%float = false) \/
  (exists pi,
      nth_error points i = Some pi /\
      (pixelDistanceSquared pixel pi <? MAX_VALUE)%float = true /\
      forall k pk, nth_error points k = Some pk ->
        (pixelDistanceSquared pixel pk <? pixelDistanceSquared pixel pi)%float = false /\
        ((k < i)%nat ->
         (pixelDistanceSquared pixel pk <=? pixelDistanceSquared pixel pi)%float = false)).

(** ** Polygons *)

(** The same polygon, read from its second vertex on. *)
Definition startFromNext (polygon : Polygon) : Polygon :=
  match polygon with
  | [] => []
  | first :: rest => rest ++ [first]
  end.

(** The loop of [isPointInPolygon], on the vertices themselves: [prev] is
    the vertex before the next one of [vs]. *)
Fixpoint rayParity (px py : float) (prev : float * float) (vs : Polygon) : bool :=
  match vs with
  | [] => false
  | v :: rest => xorb (crossesRay px py v prev) (rayParity px py v rest)
  end.

(** ** Hit testing *)

(** The pointer at [(px, py)] is on the point: within twice the point
    radius. *)
Definition hits (px py : float) (point : Point) : bool :=
  (JS.Math_hypot (x point - px) (y point - py)
     <=? POINT_RADIUS * HIT_DISTANCE_MULTIPLIER)%float.

(** ** Paths on the canvas *)

(** A call that starts a subpath. *)
Definition startsSubpath (call : CanvasCall) : bool :=
  match call with
  | moveTo _ _ | arc _ _ _ _ _ => true
  | _ => false
  end.

(** A call that extends the current subpath. *)
Definition extendsSubpath (call : CanvasCall) : bool :=
  match call with
  | lineTo _ _ | quadraticCurveTo _ _ _ _ => true
  | _ => false
  end.

(** ** Strings of digits *)

Fixpoint digitsOnly (s : string) : bool :=
  match s with
  | EmptyString => true
  | String c rest =>
      match digitValue c with Some _ => digitsOnly rest | None => false end
  end.

(** ** The order in which Prim's loop grows its tree *)

(** One iteration of the main loop: the point that was added and the
    parent it was attached to. *)
Definition PrimStep : Type := (nat * nat)%type.

(** The points in the tree after the steps [steps]: point 0, then one
    point per step. *)
Definition visitedList (steps : list PrimStep) : list nat := O :: map fst steps.

(** The edge pushed for a step. *)
Definition treeEdge (step : PrimStep) : EdgeIndex :=
  (Z.min (Z.of_nat (fst step)) (Z.of_nat (snd step)),
   Z.max (Z.of_nat (fst step)) (Z.of_nat (snd step))).

(** The points hanging below the points [below], after the later steps
    [post]: a point joins when its parent is there already. *)
Fixpoint subtree (post : list PrimStep) (below : list nat) : list nat :=
  match post with
  | [] => below
  | (u, q) :: rest =>
      subtree rest (if existsb (Nat.eqb q) below then u :: below else below)
  end.

(** Each step attaches a new point below [n] to a point already in the
    tree, by an edge no heavier than any other edge from the tree to a point
    outside it. *)
Definition greedy {W : Type} (n : nat) (le : W -> W -> Prop) (w : nat -> nat -> W)
    (steps : list PrimStep) : Prop :=
  NoDup (visitedList steps) /\
  forall pre c p post,
    steps = pre ++ (c, p) :: post ->
    In p (visitedList pre) /\ (c < n)%nat /\
    forall u j, In u (visitedList pre) -> (j < n)%nat -> ~ In j (visitedList pre) ->
                le (w p c) (w u j).

(** Point [i] of the array (for an index of the array). *)
Definition pointAt (points : list Point) (i : nat) : Point :=
  nth i points {| id := 0; x := nan; y := nan |}.

(** The computed distance between points [i] and [j]. *)
Definition distanceBetween (points : list Point) (i j : nat) : float :=
  distance (pointAt points i) (pointAt points j).

Definition noLonger (a b : float) : Prop := (a <=? b)%float = true.

(** What holds before every iteration of Prim's main loop, with the steps
    taken so far: the steps are greedy, they account for the visited points
    and the edges, and every unvisited point records its nearest visited
    point and the distance to it. *)
Definition primGreedy (points : list Point) (visited : list bool)
    (distances : list float) (parent : list Z) (edges : list EdgeIndex)
    (steps : list PrimStep) : Prop :=
  length visited = length points /\
  length distances = length points /\
  length parent = length points /\
  (forall i, (i < length points)%nat ->
             (nth i visited false = true <-> In i (visitedList steps))) /\
  edges = map treeEdge steps /\
  greedy (length points) noLonger (distanceBetween points) steps /\
  (forall j, (j < length points)%nat -> nth j visited false = false ->
     exists q,
       nth j parent (-1)%Z = Z.of_nat q /\ (q < length points)%nat /\
       nth q visited false = true /\
       nth j distances nan = distanceBetween points q j /\
       forall u, (u < length points)%nat -> nth u visited false = true ->
                 noLonger (nth j distances nan) (distanceBetween points u j)) /\
  (length steps + 1)%nat = countVisited visited.
(** * Properties *)

(** ** Order facts about binary64, from the specification of the primitives *)

Module FloatOrder.

Ltac sf_cases :=
  repeat match goal with
         | v : spec_float |- _ => destruct v as [[|]|[|]| |[|] ? ?]
         end;
  cbn in *; try discriminate; try congruence.

Ltac cmp_cases :=
  change (Pos.compare_cont Eq) with Pos.compare in *;
  repeat match goal with
         | H : context [Z.compare ?a ?b] |- _ =>
             destruct (Z.compare_spec a b); cbn in H; try discriminate
         | |- context [Z.compare ?a ?b] =>
             destruct (Z.compare_spec a b); cbn
         | H : context [Pos.compare ?a ?b] |- _ =>
             destruct (Pos.compare_spec a b); cbn in H; try discriminate
         | |- context [Pos.compare ?a ?b] =>
             destruct (Pos.compare_spec a b); cbn
         end;
  subst; try reflexivity; try discriminate; try lia.

Lemma SF_lt_le_trans a b c :
  SFltb a b = true -> SFleb b c = true -> SFltb a c = true.
Proof. unfold SFltb, SFleb, SFcompare. sf_cases; intros; cmp_cases. Qed.

Lemma SF_le_lt_trans a b c :
  SFleb a b = true -> SFltb b c = true -> SFltb a c = true.
Proof. unfold SFltb, SFleb, SFcompare. sf_cases; intros; cmp_cases. Qed.

Lemma SF_le_trans a b c :
  SFleb a b = true -> SFleb b c = true -> SFleb a c = true.
Proof. unfold SFleb, SFcompare. sf_cases; intros; cmp_cases. Qed.

Lemma SF_not_lt_le a b :
  a <> S754_nan -> b <> S754_nan -> SFltb a b = false -> SFleb b a = true.
Proof. unfold SFltb, SFleb, SFcompare. sf_cases; intros; cmp_cases. Qed.

Lemma SF_lt_not_le a b : SFltb a b = true -> SFleb b a = false.
Proof. unfold SFltb, SFleb, SFcompare. sf_cases; intros; cmp_cases. Qed.

Lemma SF_lt_le a b : SFltb a b = true -> SFleb a b = true.
Proof. unfold SFltb, SFleb. destruct (SFcompare a b) as [[]|]; congruence. Qed.

Lemma SF_eqb_refl a : a <> S754_nan -> SFeqb a a = true.
Proof.
  unfold SFeqb, SFcompare. sf_cases; intros; cmp_cases.
Qed.

Lemma SF_le_refl a : a <> S754_nan -> SFleb a a = true.
Proof.
  unfold SFleb, SFcompare. sf_cases; intros; cmp_cases.
Qed.

Lemma SF_lt_not_nan a b : SFltb a b = true -> a <> S754_nan /\ b <> S754_nan.
Proof. unfold SFltb, SFcompare. sf_cases; intros; split; congruence. Qed.

Lemma is_nan_spec v : is_nan v = false <-> Prim2SF v <> S754_nan.
Proof.
  unfold is_nan. rewrite FloatAxioms.eqb_spec. split.
  - intros E N. rewrite N in E. discriminate.
  - intros N. rewrite SF_eqb_refl by assumption. reflexivity.
Qed.

Lemma ltb_leb_trans a b c :
  (a <? b)%float = true -> (b <=? c)%float = true -> (a <? c)%float = true.
Proof. rewrite !FloatAxioms.ltb_spec, FloatAxioms.leb_spec. apply SF_lt_le_trans. Qed.

Lemma leb_ltb_trans a b c :
  (a <=? b)%float = true -> (b <? c)%float = true -> (a <? c)%float = true.
Proof. rewrite !FloatAxioms.ltb_spec, FloatAxioms.leb_spec. apply SF_le_lt_trans. Qed.

Lemma leb_trans a b c :
  (a <=? b)%float = true -> (b <=? c)%float = true -> (a <=? c)%float = true.
Proof. rewrite !FloatAxioms.leb_spec. apply SF_le_trans. Qed.

Lemma not_ltb_leb a b :
  is_nan a = false -> is_nan b = false ->
  (a <? b)%float = false -> (b <=? a)%float = true.
Proof.
  intros Ha Hb. apply is_nan_spec in Ha. apply is_nan_spec in Hb.
  rewrite FloatAxioms.ltb_spec, FloatAxioms.leb_spec. now apply SF_not_lt_le.
Qed.

Lemma ltb_not_leb a b : (a <? b)%float = true -> (b <=? a)%float = false.
Proof. rewrite FloatAxioms.ltb_spec, FloatAxioms.leb_spec. apply SF_lt_not_le. Qed.

Lemma ltb_leb a b : (a <? b)%float = true -> (a <=? b)%float = true.
Proof. rewrite FloatAxioms.ltb_spec, FloatAxioms.leb_spec. apply SF_lt_le. Qed.

Lemma ltb_not_nan a b :
  (a <? b)%float = true -> is_nan a = false /\ is_nan b = false.
Proof.
  rewrite FloatAxioms.ltb_spec. intros L. apply SF_lt_not_nan in L.
  split; apply is_nan_spec; tauto.
Qed.

Lemma leb_refl a : is_nan a = false -> (a <=? a)%float = true.
Proof.
  intros N. apply is_nan_spec in N. rewrite FloatAxioms.leb_spec.
  now apply SF_le_refl.
Qed.

Lemma leb_not_ltb a b : (a <=? b)%float = true -> (b <? a)%float = false.
Proof.
  intros L. destruct (b <? a)%float eqn:E; [|reflexivity].
  apply ltb_not_leb in E. congruence.
Qed.

Lemma is_finite_not_nan v : is_finite v = true -> is_nan v = false.
Proof.
  unfold is_finite. destruct (is_nan v); [discriminate | reflexivity].
Qed.

End FloatOrder.

(** ** Arrays and loops *)

Lemma get_of_nat {A : Type} (arr : list A) (i : nat) :
  get arr (Z.of_nat i) = nth_error arr i.
Proof.
  unfold get. destruct (Z.ltb_spec (Z.of_nat i) 0); [lia|].
  now rewrite Nat2Z.id.
Qed.

Lemma get_Some {A : Type} (arr : list A) (i : Z) (v : A) :
  get arr i = Some v ->
  (0 <= i < Z.of_nat (length arr))%Z /\ nth_error arr (Z.to_nat i) = Some v.
Proof.
  unfold get. destruct (Z.ltb_spec i 0); [discriminate|].
  intros E. split; [|exact E].
  assert (Z.to_nat i < length arr)%nat by (apply nth_error_Some; congruence).
  lia.
Qed.

Lemma get_in_range {A : Type} (arr : list A) (i : Z) :
  (0 <= i < Z.of_nat (length arr))%Z -> exists v, get arr i = Some v.
Proof.
  intros R. unfold get. destruct (Z.ltb_spec i 0); [lia|].
  destruct (nth_error arr (Z.to_nat i)) eqn:E; [eauto|].
  apply nth_error_None in E. lia.
Qed.

Lemma update_length {A : Type} (arr : list A) (i : nat) (v : A) :
  length (update arr i v) = length arr.
Proof.
  revert i. induction arr as [|h t IH]; intros [|i]; cbn; auto.
Qed.

Lemma nth_update_eq {A : Type} (arr : list A) (i : nat) (v d : A) :
  (i < length arr)%nat -> nth i (update arr i v) d = v.
Proof.
  revert i. induction arr as [|h t IH]; intros [|i] L; cbn in *; try lia; auto.
  apply IH. lia.
Qed.

Lemma nth_update_neq {A : Type} (arr : list A) (i j : nat) (v d : A) :
  i <> j -> nth j (update arr i v) d = nth j arr d.
Proof.
  revert i j. induction arr as [|h t IH]; intros [|i] [|j] N; cbn; auto; try lia.
Qed.

(** A loop invariant for [fold_left]: [P done acc] speaks of the elements
    already visited. *)
Lemma fold_left_invariant {A B : Type} (f : A -> B -> A) (P : list B -> A -> Prop)
    (l : list B) (a0 : A) :
  P [] a0 ->
  (forall done b a, In b l -> P done a -> P (done ++ [b]) (f a b)) ->
  P l (fold_left f l a0).
Proof.
  intros H0 Hstep.
  assert (G : forall todo done a,
             incl todo l -> P done a -> P (done ++ todo) (fold_left f todo a)).
  { induction todo as [|b todo IH]; intros done a Hincl Hp; cbn.
    - now rewrite app_nil_r.
    - replace (done ++ b :: todo) with ((done ++ [b]) ++ todo)
        by (rewrite <- app_assoc; reflexivity).
      apply IH.
      + intros z Hz. apply Hincl. now right.
      + apply Hstep; [apply Hincl; now left | exact Hp]. }
  apply (G l [] a0); [apply incl_refl | exact H0].
Qed.

(** ** The loops over a third point *)

Lemma gabrielLoop_spec points aIndex bIndex a b ks :
  (forall k, In k ks -> (k < length points)%nat) ->
  exists isGabriel,
    gabrielLoop points aIndex bIndex a b ks = Some isGabriel /\
    (isGabriel = true <-> noThirdPoint points aIndex bIndex (gabrielInside a b) ks).
Proof.
  unfold noThirdPoint.
  induction ks as [|k ks IH]; intros R; cbn [gabrielLoop].
  - exists true. split; [reflexivity|]. split; [intros _ k pk []|reflexivity].
  - destruct IH as [r [E Hr]]; [intros; apply R; now right|].
    destruct ((Z.of_nat k =? aIndex)%Z || (Z.of_nat k =? bIndex)%Z) eqn:Hk.
    + exists r. split; [exact E|]. rewrite Hr. split.
      * intros H k' pk [<-|Hin] Na Nb Hp; [|eauto].
        apply orb_true_iff in Hk. destruct Hk as [Hk|Hk]; apply Z.eqb_eq in Hk; congruence.
      * intros H k' pk Hin. apply H. now right.
    + apply orb_false_iff in Hk. destruct Hk as [Ha Hb].
      apply Z.eqb_neq in Ha, Hb.
      destruct (nth_error points k) as [pk|] eqn:Hp.
      2:{ apply nth_error_None in Hp. specialize (R k (or_introl eq_refl)). lia. }
      destruct (gabrielInside a b pk) eqn:Hin.
      * exists false. split; [reflexivity|]. split; [discriminate|].
        intros H. specialize (H k pk (or_introl eq_refl) Ha Hb Hp). congruence.
      * exists r. split; [exact E|]. rewrite Hr. split.
        -- intros H k' pk' [<-|Hin'] Na Nb Hp'; [congruence|eauto].
        -- intros H k' pk' Hin'. apply H. now right.
Qed.

Lemma rngLoop_spec points aIndex bIndex a b ks :
  (forall k, In k ks -> (k < length points)%nat) ->
  exists isRelativeNeighbor,
    rngLoop points aIndex bIndex a b ks = Some isRelativeNeighbor /\
    (isRelativeNeighbor = true <->
     noThirdPoint points aIndex bIndex (rngCloser a b) ks).
Proof.
  unfold noThirdPoint.
  induction ks as [|k ks IH]; intros R; cbn [rngLoop].
  - exists true. split; [reflexivity|]. split; [intros _ k pk []|reflexivity].
  - destruct IH as [r [E Hr]]; [intros; apply R; now right|].
    destruct ((Z.of_nat k =? aIndex)%Z || (Z.of_nat k =? bIndex)%Z) eqn:Hk.
    + exists r. split; [exact E|]. rewrite Hr. split.
      * intros H k' pk [<-|Hin] Na Nb Hp; [|eauto].
        apply orb_true_iff in Hk. destruct Hk as [Hk|Hk]; apply Z.eqb_eq in Hk; congruence.
      * intros H k' pk Hin. apply H. now right.
    + apply orb_false_iff in Hk. destruct Hk as [Ha Hb].
      apply Z.eqb_neq in Ha, Hb.
      destruct (nth_error points k) as [pk|] eqn:Hp.
      2:{ apply nth_error_None in Hp. specialize (R k (or_introl eq_refl)). lia. }
      destruct (rngCloser a b pk) eqn:Hin.
      * exists false. split; [reflexivity|]. split; [discriminate|].
        intros H. specialize (H k pk (or_introl eq_refl) Ha Hb Hp). congruence.
      * exists r. split; [exact E|]. rewrite Hr. split.
        -- intros H k' pk' [<-|Hin'] Na Nb Hp'; [congruence|eauto].
        -- intros H k' pk' Hin'. apply H. now right.
Qed.

Lemma computeGabrielEdges_from_spec points candidateEdges :
  edgesInRange points candidateEdges ->
  forall result,
  exists kept,
    computeGabrielEdges_from points candidateEdges result = Some (result ++ kept) /\
    incl kept candidateEdges /\
    (forall e, In e kept <-> In e candidateEdges /\ gabrielKeeps points e).
Proof.
  induction 1 as [|[ai bi] rest [Ra Rb] Hrest IH]; intros result; cbn [computeGabrielEdges_from].
  - exists []. rewrite app_nil_r. split; [reflexivity|]. split; [apply incl_refl|].
    intros e. cbn. tauto.
  - cbn [fst snd] in *.
    destruct (get_in_range points ai Ra) as [a Ha].
    destruct (get_in_range points bi Rb) as [b Hb].
    rewrite Ha, Hb.
    destruct (gabrielLoop_spec points ai bi a b (seq 0 (length points))) as [r [E Hr]].
    { intros k Hk. apply in_seq in Hk. lia. }
    rewrite E.
    assert (K : r = true <-> gabrielKeeps points (ai, bi)).
    { rewrite Hr. unfold gabrielKeeps. cbn [fst snd]. split.
      - intros N. exists a, b. auto.
      - intros [a' [b' [Ha' [Hb' N]]]].
        assert (a' = a) by congruence. assert (b' = b) by congruence.
        subst. exact N. }
    destruct r.
    + destruct (IH (result ++ [(ai, bi)])) as [kept [E' [I' C']]].
      exists ((ai, bi) :: kept). rewrite E'. rewrite <- app_assoc. split; [reflexivity|].
      split.
      * intros e [<-|He]; [now left | right; now apply I'].
      * intros e. cbn [In]. rewrite C'. split.
        -- intros [<-|[He Ke]]; [split; [now left | now apply K] | split; [now right | exact Ke]].
        -- intros [[<-|He] Ke]; [now left | right; split; assumption].
    + destruct (IH result) as [kept [E' [I' C']]].
      exists kept. rewrite E'. split; [reflexivity|]. split.
      * intros e He. right. now apply I'.
      * intros e. rewrite C'. cbn [In]. split.
        -- intros [He Ke]. split; [now right | exact Ke].
        -- intros [[<-|He] Ke]; [|split; assumption].
           apply K in Ke. discriminate.
Qed.



Lemma computeRelativeNeighborhoodEdges_from_spec points candidateEdges :
  edgesInRange points candidateEdges ->
  forall result,
  exists kept,
    computeRelativeNeighborhoodEdges_from points candidateEdges result
      = Some (result ++ kept) /\
    incl kept candidateEdges /\
    (forall e, In e kept <-> In e candidateEdges /\ rngKeeps points e).
Proof.
  induction 1 as [|[ai bi] rest [Ra Rb] Hrest IH]; intros result;
    cbn [computeRelativeNeighborhoodEdges_from].
  - exists []. rewrite app_nil_r. split; [reflexivity|]. split; [apply incl_refl|].
    intros e. cbn. tauto.
  - cbn [fst snd] in *.
    destruct (get_in_range points ai Ra) as [a Ha].
    destruct (get_in_range points bi Rb) as [b Hb].
    rewrite Ha, Hb.
    destruct (rngLoop_spec points ai bi a b (seq 0 (length points))) as [r [E Hr]].
    { intros k Hk. apply in_seq in Hk. lia. }
    rewrite E.
    assert (K : r = true <-> rngKeeps points (ai, bi)).
    { rewrite Hr. unfold rngKeeps. cbn [fst snd]. split.
      - intros N. exists a, b. auto.
      - intros [a' [b' [Ha' [Hb' N]]]].
        assert (a' = a) by congruence. assert (b' = b) by congruence.
        subst. exact N. }
    destruct r.
    + destruct (IH (result ++ [(ai, bi)])) as [kept [E' [I' C']]].
      exists ((ai, bi) :: kept). rewrite E'. rewrite <- app_assoc. split; [reflexivity|].
      split.
      * intros e [<-|He]; [now left | right; now apply I'].
      * intros e. cbn [In]. rewrite C'. split.
        -- intros [<-|[He Ke]]; [split; [now left | now apply K] | split; [now right | exact Ke]].
        -- intros [[<-|He] Ke]; [now left | right; split; assumption].
    + destruct (IH result) as [kept [E' [I' C']]].
      exists kept. rewrite E'. split; [reflexivity|]. split.
      * intros e He. right. now apply I'.
      * intros e. rewrite C'. cbn [In]. split.
        -- intros [He Ke]. split; [now right | exact Ke].
        -- intros [[<-|He] Ke]; [|split; assumption].
           apply K in Ke. discriminate.
Qed.

(** ** The alpha filter *)

Lemma list_by_threes (P : list Z -> Prop) :
  P [] -> (forall a, P [a]) -> (forall a b, P [a; b]) ->
  (forall a b c rest, P rest -> P (a :: b :: c :: rest)) ->
  forall l, P l.
Proof.
  intros H0 H1 H2 H3.
  fix IH 1. intros [|a [|b [|c rest]]];
    [exact H0 | apply H1 | apply H2 | apply H3; apply IH].
Qed.

Lemma alphaLoop_sound points alpha tris :
  forall alphaTriangles edgeCount result edgeCount',
    alphaLoop points alpha tris alphaTriangles edgeCount = Some (result, edgeCount') ->
    exists kept,
      result = alphaTriangles ++ kept /\
      (forall t, In t kept <->
                 In t (chunks3 tris) /\ triangleWith points (alphaKeeps alpha) t).
Proof.
  induction tris as [|a|a b|i0 i1 i2 rest IH] using list_by_threes; intros T E T' E' H.
  1-3: cbn in H; injection H as <- <-; exists []; rewrite app_nil_r;
       split; [reflexivity|]; cbn; tauto.
  cbn [alphaLoop chunks3] in *.
  destruct ((i0 =? i1)%Z || (i1 =? i2)%Z || (i2 =? i0)%Z) eqn:D.
  - destruct (IH _ _ _ _ H) as [kept [Eq C]].
    exists kept. split; [exact Eq|]. intros t. rewrite C. cbn [In]. split.
    + intros [I W]. split; [now right | exact W].
    + intros [[<-|I] W]; [|split; assumption].
      destruct W as [N0 [N1 [N2 _]]].
      apply orb_true_iff in D. destruct D as [D|D];
        [apply orb_true_iff in D; destruct D as [D|D]|]; apply Z.eqb_eq in D; congruence.
  - apply orb_false_iff in D. destruct D as [D D2].
    apply orb_false_iff in D. destruct D as [D0 D1].
    apply Z.eqb_neq in D0, D1, D2.
    destruct (get points i0) as [p0|] eqn:G0; [|discriminate].
    destruct (get points i1) as [p1|] eqn:G1; [|discriminate].
    destruct (get points i2) as [p2|] eqn:G2; [|discriminate].
    assert (K : alphaKeeps alpha (triangleRadius p0 p1 p2) = true <->
                triangleWith points (alphaKeeps alpha) (i0, i1, i2)).
    { unfold triangleWith. split.
      - intros K. repeat split; auto. exists p0, p1, p2. auto.
      - intros [_ [_ [_ [q0 [q1 [q2 [Q0 [Q1 [Q2 K]]]]]]]]]. congruence. }
    unfold alphaKeeps in K at 1.
    destruct (negb (JS.isFinite (triangleRadius p0 p1 p2))
              || (alpha <? triangleRadius p0 p1 p2)%float).
    + destruct (IH _ _ _ _ H) as [kept [Eq C]].
      exists kept. split; [exact Eq|]. intros t. rewrite C. cbn [In]. split.
      * intros [I W]. split; [now right | exact W].
      * intros [[<-|I] W]; [|split; assumption].
        apply K in W. discriminate.
    + destruct (IH _ _ _ _ H) as [kept [Eq C]].
      exists ((i0, i1, i2) :: kept). rewrite Eq, <- app_assoc.
      split; [reflexivity|]. intros t. cbn [In]. rewrite C. split.
      * intros [<-|[I W]]; [split; [now left | now apply K] | split; [now right | exact W]].
      * intros [[<-|I] W]; [now left | right; split; assumption].
Qed.

Lemma alphaLoop_total points alpha tris :
  indicesInRange points tris ->
  forall alphaTriangles edgeCount,
    alphaLoop points alpha tris alphaTriangles edgeCount <> None.
Proof.
  induction tris as [|a|a b|i0 i1 i2 rest IH] using list_by_threes; intros R T E.
  1-3: discriminate.
  assert (Rrest : indicesInRange points rest).
  { inversion R as [|? ? ? R1]; inversion R1 as [|? ? ? R2]; now inversion R2. }
  assert (R0 : (0 <= i0 < Z.of_nat (length points))%Z) by now inversion R.
  assert (R1 : (0 <= i1 < Z.of_nat (length points))%Z).
  { inversion R as [|? ? ? Q1]; now inversion Q1. }
  assert (R2 : (0 <= i2 < Z.of_nat (length points))%Z).
  { inversion R as [|? ? ? Q1]; inversion Q1 as [|? ? ? Q2]; now inversion Q2. }
  cbn [alphaLoop].
  destruct (get_in_range points i0 R0) as [p0 G0].
  destruct (get_in_range points i1 R1) as [p1 G1].
  destruct (get_in_range points i2 R2) as [p2 G2].
  rewrite G0, G1, G2.
  destruct ((i0 =? i1)%Z || (i1 =? i2)%Z || (i2 =? i0)%Z); [now apply IH|].
  destruct (negb (JS.isFinite (triangleRadius p0 p1 p2))
            || (alpha <? triangleRadius p0 p1 p2)%float); now apply IH.
Qed.

Lemma alphaLoop_throws points alpha tris :
  forall alphaTriangles edgeCount,
    alphaLoop points alpha tris alphaTriangles edgeCount = None <->
    exists t, In t (chunks3 tris) /\ missingPoint points t.
Proof.
  induction tris as [|a|a b|i0 i1 i2 rest IH] using list_by_threes; intros T E.
  1-3: cbn; split; [discriminate | intros [t [[] _]]].
  cbn [alphaLoop chunks3].
  assert (Later : (exists t, In t (chunks3 rest) /\ missingPoint points t) ->
                  exists t, In t ((i0, i1, i2) :: chunks3 rest) /\ missingPoint points t).
  { intros [t [I M]]. exists t. split; [now right | exact M]. }
  destruct ((i0 =? i1)%Z || (i1 =? i2)%Z || (i2 =? i0)%Z) eqn:D.
  - rewrite IH. split; [exact Later|].
    intros [t [[<-|I] M]]; [|eauto].
    destruct M as [N0 [N1 [N2 _]]].
    apply orb_true_iff in D. destruct D as [D|D];
      [apply orb_true_iff in D; destruct D as [D|D]|]; apply Z.eqb_eq in D; congruence.
  - apply orb_false_iff in D. destruct D as [D D2].
    apply orb_false_iff in D. destruct D as [D0 D1].
    apply Z.eqb_neq in D0, D1, D2.
    assert (Here : get points i0 = None \/ get points i1 = None \/ get points i2 = None ->
                   exists t, In t ((i0, i1, i2) :: chunks3 rest) /\ missingPoint points t).
    { intros G. exists (i0, i1, i2). split; [now left|]. cbn. auto. }
    destruct (get points i0) as [p0|] eqn:G0; [|split; [auto | reflexivity]].
    destruct (get points i1) as [p1|] eqn:G1; [|split; [auto | reflexivity]].
    destruct (get points i2) as [p2|] eqn:G2; [|split; [auto | reflexivity]].
    assert (Not : forall t, In t ((i0, i1, i2) :: chunks3 rest) -> missingPoint points t ->
                            In t (chunks3 rest)).
    { intros t [<-|I] M; [|exact I].
      destruct M as [_ [_ [_ [Q|[Q|Q]]]]]; congruence. }
    destruct (negb (JS.isFinite (triangleRadius p0 p1 p2))
              || (alpha <? triangleRadius p0 p1 p2)%float); rewrite IH;
      (split; [exact Later | intros [t [I M]]; exists t; split; [eapply Not; eassumption | exact M]]).
Qed.

Lemma computeAlphaData_throws points delaunay alpha :
  computeAlphaData points delaunay alpha = None <->
  exists t, In t (chunks3 (Delaunay.triangles delaunay)) /\ missingPoint points t.
Proof.
  rewrite <- (alphaLoop_throws points alpha (Delaunay.triangles delaunay) [] []).
  unfold computeAlphaData.
  destruct (alphaLoop points alpha (Delaunay.triangles delaunay) [] []) as [[T E]|];
    split; congruence.
Qed.

Lemma computeAlphaData_triangles points delaunay alpha d :
  computeAlphaData points delaunay alpha = Some d ->
  forall t, In t (triangles d) <->
            In t (chunks3 (Delaunay.triangles delaunay)) /\
            triangleWith points (alphaKeeps alpha) t.
Proof.
  unfold computeAlphaData. intros H.
  destruct (alphaLoop points alpha (Delaunay.triangles delaunay) [] [])
    as [[T E]|] eqn:L; [|discriminate].
  injection H as <-. cbn [triangles].
  destruct (alphaLoop_sound _ _ _ _ _ _ _ L) as [kept [-> C]]. exact C.
Qed.

Lemma computeAlphaData_total points delaunay alpha :
  indicesInRange points (Delaunay.triangles delaunay) ->
  exists d, computeAlphaData points delaunay alpha = Some d.
Proof.
  intros R. unfold computeAlphaData.
  destruct (alphaLoop points alpha (Delaunay.triangles delaunay) [] [])
    as [[T E]|] eqn:L; [eauto|].
  now apply alphaLoop_total in L.
Qed.

Lemma triangleWith_weaken points (test1 test2 : float -> bool) t :
  (forall radius, test1 radius = true -> test2 radius = true) ->
  triangleWith points test1 t -> triangleWith points test2 t.
Proof.
  destruct t as [[i0 i1] i2]. unfold triangleWith.
  intros W [N0 [N1 [N2 [p0 [p1 [p2 [G0 [G1 [G2 K]]]]]]]]].
  repeat split; auto. exists p0, p1, p2. auto.
Qed.

(** For a threshold that is a number, the loop's test is "finite and at
    most alpha". *)
Lemma alphaKeeps_leb alpha radius :
  is_nan alpha = false ->
  alphaKeeps alpha radius = JS.isFinite radius && (radius <=? alpha)%float.
Proof.
  intros Na. unfold alphaKeeps, JS.isFinite.
  destruct (is_finite radius) eqn:F; cbn; [|reflexivity].
  apply FloatOrder.is_finite_not_nan in F.
  destruct (alpha <? radius)%float eqn:L; cbn.
  - symmetry. now apply FloatOrder.ltb_not_leb.
  - symmetry. now apply FloatOrder.not_ltb_leb.
Qed.

Lemma alphaKeeps_monotone alpha1 alpha2 radius :
  (alpha1 <? alpha2)%float = true ->
  alphaKeeps alpha1 radius = true -> alphaKeeps alpha2 radius = true.
Proof.
  intros L K.
  destruct (FloatOrder.ltb_not_nan _ _ L) as [N1 N2].
  rewrite alphaKeeps_leb in * by assumption.
  apply andb_true_iff in K. destruct K as [F K]. rewrite F. cbn.
  apply FloatOrder.ltb_leb.
  eapply FloatOrder.leb_ltb_trans; eassumption.
Qed.

(** ** Paths and trees *)

Lemma connected_trans edges u v w :
  connected edges u v -> connected edges v w -> connected edges u w.
Proof.
  induction 1 as [|u v' w' E P IH]; intros Q; [exact Q|].
  eapply connected_step; [exact E | now apply IH].
Qed.

Lemma connected_edge edges u v :
  In (u, v) edges \/ In (v, u) edges -> connected edges u v.
Proof.
  intros E. eapply connected_step; [exact E | apply connected_refl].
Qed.

Lemma connected_sym edges u v : connected edges u v -> connected edges v u.
Proof.
  induction 1 as [|u v' w' E P IH]; [apply connected_refl|].
  eapply connected_trans; [exact IH|]. apply connected_edge. tauto.
Qed.

Lemma connected_incl edges edges' u v :
  incl edges edges' -> connected edges u v -> connected edges' u v.
Proof.
  intros I. induction 1 as [|u v' w' E P IH]; [apply connected_refl|].
  eapply connected_step; [|exact IH]. destruct E; [left|right]; now apply I.
Qed.

(** A vertex no edge touches is connected to itself only. *)
Lemma connected_untouched edges v w :
  (forall e, In e edges -> fst e <> v /\ snd e <> v) ->
  connected edges v w -> v = w.
Proof.
  intros F P. inversion P as [|u v' w' E Q]; subst; [reflexivity|].
  destruct E as [E|E]; apply F in E; cbn in E; tauto.
Qed.

(** Hanging a new vertex [v] on a vertex [p] joins nothing that was not
    joined before. *)
Lemma connected_pendant edges v p e a b :
  (forall e', In e' edges -> fst e' <> v /\ snd e' <> v) ->
  e = (v, p) \/ e = (p, v) ->
  connected (edges ++ [e]) a b ->
  connected edges (if (a =? v)%Z then p else a) (if (b =? v)%Z then p else b).
Proof.
  intros F He. induction 1 as [|u v' w' E P IH]; [apply connected_refl|].
  assert (C : In (u, v') edges \/ In (v', u) edges \/ (u = v /\ v' = p) \/ (u = p /\ v' = v)).
  { destruct E as [E|E]; apply in_app_or in E; destruct E as [E|[E|[]]]; auto;
      destruct He as [-> | ->]; injection E as <- <-; auto. }
  destruct C as [E'|[E'|[[-> ->]|[-> ->]]]].
  - pose proof (F _ E') as [N1 N2]. cbn in N1, N2.
    apply Z.eqb_neq in N1, N2. rewrite N1. rewrite N2 in IH.
    eapply connected_step; [left; exact E' | exact IH].
  - pose proof (F _ E') as [N1 N2]. cbn in N1, N2.
    apply Z.eqb_neq in N1, N2. rewrite N2. rewrite N1 in IH.
    eapply connected_step; [right; exact E' | exact IH].
  - rewrite Z.eqb_refl. destruct (p =? v)%Z eqn:Epv.
    + exact IH.
    + exact IH.
  - rewrite Z.eqb_refl in IH. destruct (p =? v)%Z eqn:Epv; exact IH.
Qed.

Lemma acyclic_nil : acyclic [].
Proof.
  intros before e after E. destruct before; discriminate E.
Qed.

Lemma acyclic_pendant edges v p e :
  acyclic edges ->
  (forall e', In e' edges -> fst e' <> v /\ snd e' <> v) ->
  v <> p ->
  e = (v, p) \/ e = (p, v) ->
  acyclic (edges ++ [e]).
Proof.
  intros A F N He before x after E.
  induction after as [|z after' _] using rev_ind.
  - (* the edge taken out is the new one *)
    apply app_inj_tail in E. destruct E as [-> ->].
    rewrite app_nil_r. intros P.
    destruct He as [-> | ->]; cbn in P.
    + apply (connected_untouched _ _ _ F) in P. congruence.
    + apply connected_sym in P. apply (connected_untouched _ _ _ F) in P. congruence.
  - (* the edge taken out is an old one *)
    replace (before ++ x :: after' ++ [z]) with ((before ++ x :: after') ++ [z]) in E
      by (rewrite <- app_assoc; reflexivity).
    apply app_inj_tail in E. destruct E as [-> ->].
    intros P.
    replace (before ++ after' ++ [z]) with ((before ++ after') ++ [z]) in P
      by (rewrite <- app_assoc; reflexivity).
    assert (F' : forall e', In e' (before ++ after') -> fst e' <> v /\ snd e' <> v).
    { intros e' I. apply F. apply in_app_or in I. apply in_or_app.
      destruct I; [left | right; right]; assumption. }
    apply (connected_pendant _ v p z _ _ F' He) in P.
    assert (Fx : fst x <> v /\ snd x <> v).
    { apply F. apply in_or_app. right. now left. }
    destruct Fx as [N1 N2]. apply Z.eqb_neq in N1, N2. rewrite N1, N2 in P.
    exact (A before x after' eq_refl P).
Qed.

(** ** Prim's loops *)

Lemma countVisited_le visited : (countVisited visited <= length visited)%nat.
Proof.
  unfold countVisited. induction visited as [|[|] t IH]; cbn; lia.
Qed.

Lemma countVisited_update visited i :
  (i < length visited)%nat -> nth i visited false = false ->
  countVisited (update visited i true) = S (countVisited visited).
Proof.
  unfold countVisited. revert i.
  induction visited as [|h t IH]; intros [|i] L N; cbn in *; try lia.
  - subst h. reflexivity.
  - specialize (IH i ltac:(lia) N). destruct h; cbn; rewrite IH; reflexivity.
Qed.

Lemma countVisited_all visited i :
  countVisited visited = length visited ->
  (i < length visited)%nat -> nth i visited false = true.
Proof.
  revert i. induction visited as [|h t IH]; intros i C L; cbn in L; [lia|].
  pose proof (countVisited_le t) as B.
  unfold countVisited in *. destruct h; cbn in C.
  - destruct i; [reflexivity|]. apply IH; lia.
  - lia.
Qed.

Lemma countVisited_some_unvisited visited :
  (countVisited visited < length visited)%nat ->
  exists j, (j < length visited)%nat /\ nth j visited false = false.
Proof.
  induction visited as [|h t IH]; intros C; cbn in C; [lia|].
  destruct h.
  - destruct IH as [j [L N]]; [unfold countVisited in *; cbn in C; lia|].
    exists (S j). cbn. split; [lia | exact N].
  - exists O. cbn. split; [lia | reflexivity].
Qed.


(** What the relaxation leaves behind: every entry is either untouched, or
    belongs to an unvisited point and now holds the new point and its
    distance. *)
Lemma primRelax_spec points visited best pb distances parent :
  nth_error points best = Some pb ->
  length distances = length points -> length parent = length points ->
  exists distances' parent',
    fold_left (primRelaxStep points visited (Z.of_nat best)) (seq 0 (length points))
      (Some (distances, parent)) = Some (distances', parent') /\
    length distances' = length distances /\ length parent' = length parent /\
    forall j,
      (nth j distances' nan = nth j distances nan /\
       nth j parent' (-1)%Z = nth j parent (-1)%Z) \/
      (nth j visited false = false /\ nth j parent' (-1)%Z = Z.of_nat best /\
       exists pj, nth_error points j = Some pj /\ nth j distances' nan = distance pb pj).
Proof.
  intros Hb Ld0 Lp0.
  pose (P := fun (done : list nat) (acc : option (list float * list Z)) =>
               exists distances' parent',
                 acc = Some (distances', parent') /\
                 length distances' = length distances /\
                 length parent' = length parent /\
                 forall j,
                   (nth j distances' nan = nth j distances nan /\
                    nth j parent' (-1)%Z = nth j parent (-1)%Z) \/
                   (nth j visited false = false /\
                    nth j parent' (-1)%Z = Z.of_nat best /\
                    exists pj, nth_error points j = Some pj /\
                               nth j distances' nan = distance pb pj)).
  assert (H : P (seq 0 (length points))
                (fold_left (primRelaxStep points visited (Z.of_nat best))
                   (seq 0 (length points)) (Some (distances, parent)))).
  { apply fold_left_invariant.
    - exists distances, parent. repeat split; auto.
    - intros done j acc Hj [ds [ps [-> [Ld [Lp C]]]]].
      unfold primRelaxStep. destruct (nth j visited false) eqn:Vj.
      + exists ds, ps. auto.
      + rewrite get_of_nat, Hb. apply in_seq in Hj.
        destruct (nth_error points j) as [pj|] eqn:Hpj.
        2:{ apply nth_error_None in Hpj. lia. }
        destruct (distance pb pj <? nth j ds nan)%float eqn:Lt.
        * exists (update ds j (distance pb pj)), (update ps j (Z.of_nat best)).
          split; [reflexivity|]. rewrite !update_length.
          split; [exact Ld|]. split; [exact Lp|].
          intros j'. destruct (Nat.eq_dec j j') as [<-|Nj].
          -- right. split; [exact Vj|].
             rewrite !nth_update_eq by lia. split; [reflexivity|]. eauto.
          -- rewrite !nth_update_neq by assumption. apply C.
        * exists ds, ps. auto. }
  exact H.
Qed.

Lemma primInit_spec points p0 :
  nth_error points 0 = Some p0 ->
  exists distances parent,
    fold_left (primInitStep points) (seq 1 (length points - 1))
      (Some (repeat JS.POSITIVE_INFINITY (length points),
             repeat (-1)%Z (length points))) = Some (distances, parent) /\
    length distances = length points /\ length parent = length points /\
    forall i, (1 <= i < length points)%nat ->
              nth i parent (-1)%Z = 0%Z /\
              exists pi, nth_error points i = Some pi /\
                         nth i distances nan = distance p0 pi.
Proof.
  intros H0.
  pose (P := fun (done : list nat) (acc : option (list float * list Z)) =>
               exists distances parent,
                 acc = Some (distances, parent) /\
                 length distances = length points /\
                 length parent = length points /\
                 forall i, In i done ->
                           nth i parent (-1)%Z = 0%Z /\
                           exists pi, nth_error points i = Some pi /\
                                      nth i distances nan = distance p0 pi).
  assert (H : P (seq 1 (length points - 1))
                (fold_left (primInitStep points) (seq 1 (length points - 1))
                   (Some (repeat JS.POSITIVE_INFINITY (length points),
                          repeat (-1)%Z (length points))))).
  { apply fold_left_invariant.
    - eexists _, _. split; [reflexivity|]. rewrite !repeat_length.
      split; [reflexivity|]. split; [reflexivity|]. intros i [].
    - intros done i acc Hi [ds [ps [-> [Ld [Lp C]]]]].
      unfold primInitStep. rewrite H0. apply in_seq in Hi.
      destruct (nth_error points i) as [pi|] eqn:Hpi.
      2:{ apply nth_error_None in Hpi. lia. }
      eexists _, _. split; [reflexivity|]. rewrite !update_length.
      split; [exact Ld|]. split; [exact Lp|].
      intros i' I. destruct (Nat.eq_dec i i') as [<-|Ni].
      + rewrite !nth_update_eq by lia. split; [reflexivity|]. eauto.
      + rewrite !nth_update_neq by assumption. apply C.
        apply in_app_or in I. destruct I as [I|[E|[]]]; [exact I | congruence]. }
  destruct H as [ds [ps [E [Ld [Lp C]]]]].
  exists ds, ps. repeat split; try assumption; apply C; apply in_seq; lia.
Qed.


Lemma nth_repeat_false i n : nth i (repeat false n) false = false.
Proof.
  revert i. induction n as [|n IH]; intros [|i]; cbn; auto.
Qed.

Lemma countVisited_repeat_false n : countVisited (repeat false n) = O.
Proof.
  unfold countVisited. induction n as [|n IH]; cbn; auto.
Qed.


(** ** Orderings *)

Lemma insertions_spec {A : Type} (a : A) (l1 l2 : list A) :
  In (l1 ++ a :: l2) (insertions a (l1 ++ l2)).
Proof.
  induction l1 as [|h t IH]; cbn.
  - destruct l2; cbn; auto.
  - right. apply in_map. exact IH.
Qed.

Lemma orderings_complete {A : Type} (l l' : list A) :
  Permutation l l' -> In l' (orderings l).
Proof.
  revert l'. induction l as [|h t IH]; intros l' P.
  - apply Permutation_nil in P. subst. now left.
  - destruct (Permutation_vs_cons_inv (Permutation_sym P)) as [l1 [l2 ->]].
    apply Permutation_cons_app_inv in P.
    cbn. apply in_flat_map. exists (l1 ++ l2). split; [now apply IH|].
    apply insertions_spec.
Qed.

(** ** The nearest-neighbour scan *)

Lemma fold_left_seq_invariant {A : Type} (f : A -> nat -> A) (P : nat -> A -> Prop)
    (n : nat) (a0 : A) :
  P O a0 ->
  (forall m a, (m < n)%nat -> P m a -> P (S m) (f a m)) ->
  P n (fold_left f (seq 0 n) a0).
Proof.
  intros H0. induction n as [|n IH]; intros Hstep; [exact H0|].
  rewrite seq_S, fold_left_app. cbn. apply Hstep; [lia|].
  apply IH. intros m a L. apply Hstep. lia.
Qed.


Lemma EdgeKey_eqb_eq k1 k2 : EdgeKey_eqb k1 k2 = true <-> k1 = k2.
Proof.
  destruct k1 as [a b], k2 as [c d]. unfold EdgeKey_eqb. cbn.
  rewrite andb_true_iff, !Z.eqb_eq. split; [intros [-> ->] | intros [= -> ->]]; auto.
Qed.

Lemma Set_has_In s k : Set_has s k = true <-> In k s.
Proof.
  unfold Set_has. rewrite existsb_exists. split.
  - intros [k' [I E]]. apply EdgeKey_eqb_eq in E. now subst.
  - intros I. exists k. split; [exact I | now apply EdgeKey_eqb_eq].
Qed.

Lemma map_decodeEdgeKey keys : map decodeEdgeKey keys = keys.
Proof. unfold decodeEdgeKey. apply map_id. Qed.




(** ** The slider mapping in exact arithmetic *)

(** The literals of [SLIDER_RANGES], read as binary64 numbers, are the
    numbers the source writes. *)
Lemma SLIDER_RANGES_float :
  FIRST_RANGE
  = {| sliderMax := 0.5%float; radiusMin := 12%float; radiusMax := 500%float |} /\
  SECOND_RANGE
  = {| sliderMax := 0.75%float; radiusMin := 500%float; radiusMax := 1000%float |} /\
  THIRD_RANGE
  = {| sliderMax := 1.0%float; radiusMin := 1000%float; radiusMax := 5000%float |} /\
  lit 0.25 = 0.25%float.
Proof. repeat split; reflexivity. Qed.


(** ** Rounding: subtracting a positive number does not go up *)

Module RoundDown.

Local Open Scope Z_scope.

Lemma digits2_pos_bounds (p : positive) :
  2 ^ (Zpos (digits2_pos p) - 1) <= Zpos p < 2 ^ Zpos (digits2_pos p).
Proof.
  induction p as [p IH|p IH|]; cbn [digits2_pos].
  - rewrite Pos2Z.inj_succ.
    replace (Z.succ (Zpos (digits2_pos p)) - 1) with (Z.succ (Zpos (digits2_pos p) - 1)) by lia.
    rewrite !Z.pow_succ_r by lia. lia.
  - rewrite Pos2Z.inj_succ.
    replace (Z.succ (Zpos (digits2_pos p)) - 1) with (Z.succ (Zpos (digits2_pos p) - 1)) by lia.
    rewrite !Z.pow_succ_r by lia. lia.
  - cbn. lia.
Qed.

Lemma digits_below (m k : Z) :
  0 <= k -> 0 <= m < 2 ^ k -> Zdigits2 m <= k.
Proof.
  intros Hk [H0 H]. destruct m as [|p|p]; cbn; [lia| |lia].
  pose proof (digits2_pos_bounds p) as [L _].
  destruct (Z.le_gt_cases (Zpos (digits2_pos p)) k) as [|G]; [assumption|].
  assert (2 ^ k <= 2 ^ (Zpos (digits2_pos p) - 1)) by (apply Z.pow_le_mono_r; lia).
  lia.
Qed.

Lemma iter_xO (m d : positive) : Zpos (Pos.iter xO m d) = Zpos m * 2 ^ Zpos d.
Proof.
  induction d as [|d IH] using Pos.peano_ind.
  - cbn. lia.
  - rewrite Pos.iter_succ, Pos2Z.inj_succ, Z.pow_succ_r by lia.
    rewrite Pos2Z.inj_xO, IH. lia.
Qed.

Lemma shl_align_spec (m : positive) (e e' : Z) :
  snd (shl_align m e e') = Z.min e e' /\
  Zpos (fst (shl_align m e e')) = Zpos m * 2 ^ (e - snd (shl_align m e e')).
Proof.
  unfold shl_align. destruct (e' - e) as [|d|d] eqn:D; cbn [fst snd].
  - split; [lia|]. rewrite Z.sub_diag. cbn. lia.
  - split; [lia|]. rewrite Z.sub_diag. cbn. lia.
  - split; [lia|]. rewrite iter_xO. f_equal. f_equal. lia.
Qed.

Lemma shr_1_m (mrs : shr_record) :
  0 <= shr_m mrs -> shr_m (shr_1 mrs) = shr_m mrs / 2.
Proof.
  destruct mrs as [m r s]. cbn [shr_m]. intros H.
  destruct m as [|[p|p|]|p]; cbn [shr_1 shr_m]; try lia.
  all: try reflexivity.
  - apply Z.div_unique with (r := 1); [lia|].
    change (Z.pos p~1) with (2 * Z.pos p + 1). lia.
  - apply Z.div_unique with (r := 0); [lia|].
    change (Z.pos p~0) with (2 * Z.pos p). lia.
Qed.

Lemma iter_shr_1_m (n : positive) (mrs : shr_record) :
  0 <= shr_m mrs ->
  shr_m (SpecFloat.iter_pos shr_1 n mrs) = shr_m mrs / 2 ^ Zpos n.
Proof.
  revert mrs. induction n as [n IH|n IH|]; intros mrs H; cbn [SpecFloat.iter_pos].
  - assert (H1 : 0 <= shr_m (shr_1 mrs)).
    { rewrite shr_1_m by assumption. apply Z.div_pos; lia. }
    assert (H2 : 0 <= shr_m (SpecFloat.iter_pos shr_1 n (shr_1 mrs))).
    { rewrite IH by assumption. apply Z.div_pos; [lia|]. apply Z.pow_pos_nonneg; lia. }
    rewrite IH, IH, shr_1_m by assumption.
    rewrite !Z.div_div by (try apply Z.pow_pos_nonneg; lia).
    f_equal. change (Z.pos n~1) with (2 * Z.pos n + 1).
    replace (2 * Zpos n + 1) with (1 + Zpos n + Zpos n) by lia.
    rewrite !Z.pow_add_r by lia. lia.
  - assert (H2 : 0 <= shr_m (SpecFloat.iter_pos shr_1 n mrs)).
    { rewrite IH by assumption. apply Z.div_pos; [lia|]. apply Z.pow_pos_nonneg; lia. }
    rewrite IH, IH by assumption.
    rewrite !Z.div_div by (try apply Z.pow_pos_nonneg; lia).
    f_equal. change (Z.pos n~0) with (2 * Z.pos n).
    replace (2 * Zpos n) with (Zpos n + Zpos n) by lia.
    rewrite !Z.pow_add_r by lia. lia.
  - now apply shr_1_m.
Qed.

Lemma shr_m_of_loc m l : shr_m (shr_record_of_loc m l) = m.
Proof. destruct l as [|[]]; reflexivity. Qed.

Lemma shr_fexp_spec (m e : Z) (l : location) :
  0 <= m ->
  snd (shr_fexp prec emax m e l) = Z.max e (fexp prec emax (Zdigits2 m + e)) /\
  shr_m (fst (shr_fexp prec emax m e l))
  = m / 2 ^ (snd (shr_fexp prec emax m e l) - e).
Proof.
  intros H. unfold shr_fexp, shr.
  destruct (fexp prec emax (Zdigits2 m + e) - e) as [|n|n] eqn:D; cbn [fst snd].
  - split; [lia|]. rewrite Z.sub_diag, shr_m_of_loc. cbn. now rewrite Z.div_1_r.
  - split; [lia|]. rewrite iter_shr_1_m by (now rewrite shr_m_of_loc).
    rewrite shr_m_of_loc. f_equal. f_equal. lia.
  - split; [lia|]. rewrite Z.sub_diag, shr_m_of_loc. cbn. now rewrite Z.div_1_r.
Qed.

Lemma round_nearest_even_bounds m l :
  m <= round_nearest_even m l <= m + 1.
Proof.
  destruct l as [|[]]; cbn; try lia. destruct (Z.even m); lia.
Qed.

Lemma fexp_mono a b : a <= b -> fexp prec emax a <= fexp prec emax b.
Proof. unfold fexp. lia. Qed.


Lemma binary_round_aux_signed s m e l :
  signed s (binary_round_aux prec emax s m e l).
Proof.
  unfold binary_round_aux.
  destruct (shr_fexp prec emax m e l) as [mrs1 e1].
  destruct (shr_fexp prec emax _ e1 loc_Exact) as [mrs2 e2].
  destruct (shr_m mrs2); cbn [signed]; auto.
  destruct (e2 <=? emax - prec); cbn [signed]; auto.
Qed.

Lemma pow2_split a b : 0 <= a -> 0 <= b -> 2 ^ (a + b) = 2 ^ a * 2 ^ b.
Proof. intros. now rewrite Z.pow_add_r. Qed.

(** Rounding a positive value below the binary64 number [mx * 2^ex] does
    not give a number above it. *)
Lemma binary_round_aux_below (mx : positive) (ex : Z) (mz : positive) (e : Z) :
  bounded prec emax mx ex = true ->
  e <= ex ->
  Zpos mz < Zpos mx * 2 ^ (ex - e) ->
  SFltb (S754_finite false mx ex)
        (binary_round_aux prec emax false (Zpos mz) e loc_Exact) = false.
Proof.
  intros B Le Lt.
  unfold bounded, canonical_mantissa in B. apply andb_true_iff in B.
  destruct B as [Hc Hb]. apply Z.eqb_eq in Hc. apply Z.leb_le in Hb.
  set (dx := Zpos (digits2_pos mx)) in *.
  pose proof (digits2_pos_bounds mx) as [_ Ux]. fold dx in Ux.
  assert (Pdx : 0 < dx) by (unfold dx; lia).
  assert (Emin : SpecFloat.emin prec emax <= ex) by (rewrite <- Hc; unfold fexp; lia).
  (* first shift *)
  unfold binary_round_aux.
  destruct (shr_fexp_spec (Zpos mz) e loc_Exact ltac:(lia)) as [E1 M1].
  destruct (shr_fexp prec emax (Zpos mz) e loc_Exact) as [mrs1 e1].
  cbn [fst snd] in E1, M1.
  assert (D1 : Zdigits2 (Zpos mz) + e <= dx + ex).
  { assert (Zdigits2 (Zpos mz) <= dx + (ex - e)); [|lia].
    apply digits_below; [lia|]. split; [lia|].
    rewrite pow2_split by lia.
    assert (0 < 2 ^ (ex - e)) by (apply Z.pow_pos_nonneg; lia). nia. }
  assert (Le1 : e1 <= ex).
  { rewrite E1. apply Z.max_lub; [exact Le|]. rewrite <- Hc. now apply fexp_mono. }
  assert (Ge1 : e <= e1) by lia.
  assert (P1 : 0 < 2 ^ (e1 - e)) by (apply Z.pow_pos_nonneg; lia).
  assert (P1' : 0 < 2 ^ (ex - e1)) by (apply Z.pow_pos_nonneg; lia).
  assert (Split1 : 2 ^ (ex - e) = 2 ^ (e1 - e) * 2 ^ (ex - e1)).
  { rewrite <- pow2_split by lia. f_equal. lia. }
  assert (N1 : 0 <= shr_m mrs1) by (rewrite M1; apply Z.div_pos; lia).
  assert (U1 : shr_m mrs1 < Zpos mx * 2 ^ (ex - e1)).
  { rewrite M1. apply Z.div_lt_upper_bound; [exact P1|]. rewrite Split1 in Lt. nia. }
  (* rounding to nearest *)
  pose proof (round_nearest_even_bounds (shr_m mrs1) (loc_of_shr_record mrs1)) as R.
  set (m2 := round_nearest_even (shr_m mrs1) (loc_of_shr_record mrs1)) in *.
  (* second shift *)
  destruct (shr_fexp_spec m2 e1 loc_Exact ltac:(lia)) as [E2 M2].
  destruct (shr_fexp prec emax m2 e1 loc_Exact) as [mrs2 e2].
  cbn [fst snd] in E2, M2.
  assert (D2 : Zdigits2 m2 + e1 <= dx + ex).
  { assert (Zdigits2 m2 <= dx + (ex - e1)); [|lia].
    apply digits_below; [lia|]. split; [lia|].
    rewrite pow2_split by lia. nia. }
  assert (Le2 : e2 <= ex).
  { rewrite E2. apply Z.max_lub; [exact Le1|]. rewrite <- Hc. now apply fexp_mono. }
  assert (Ge2 : e1 <= e2) by lia.
  assert (P2 : 0 < 2 ^ (e2 - e1)) by (apply Z.pow_pos_nonneg; lia).
  assert (P2' : 0 < 2 ^ (ex - e2)) by (apply Z.pow_pos_nonneg; lia).
  assert (Split2 : 2 ^ (ex - e1) = 2 ^ (e2 - e1) * 2 ^ (ex - e2)).
  { rewrite <- pow2_split by lia. f_equal. lia. }
  assert (U2 : shr_m mrs2 <= Zpos mx * 2 ^ (ex - e2)).
  { rewrite M2. apply Z.div_le_upper_bound; [exact P2|]. rewrite Split2 in U1. nia. }
  (* the result *)
  destruct (shr_m mrs2) as [|m3|m3]; [reflexivity| |reflexivity].
  destruct (Z.leb_spec e2 (emax - prec)) as [_|Bad]; [|lia].
  unfold SFltb, SFcompare.
  destruct (Z.compare_spec ex e2) as [Same|L|G]; [|lia|reflexivity].
  replace (ex - e2) with 0 in U2 by lia. cbn in U2.
  change (Pos.compare_cont Eq mx m3) with (Pos.compare mx m3).
  destruct (Pos.compare_spec mx m3); [reflexivity | lia | reflexivity].
Qed.

(** Subtracting a positive number from a non-negative binary64 number
    does not give a number above it. *)
Lemma SFsub_finite_below (mx : positive) (ex : Z) (my : positive) (ey : Z) :
  bounded prec emax mx ex = true ->
  SFltb (S754_finite false mx ex)
        (SFsub prec emax (S754_finite false mx ex) (S754_finite false my ey)) = false.
Proof.
  intros B. unfold SFsub. cbn [cond_Zopp].
  set (ez := Z.min ex ey).
  destruct (shl_align_spec mx ex ez) as [Sx Ax].
  destruct (shl_align_spec my ey ez) as [Sy Ay].
  rewrite Sx in Ax. rewrite Sy in Ay.
  replace (Z.min ex ez) with ez in Ax by lia.
  replace (Z.min ey ez) with ez in Ay by lia.
  destruct (Z.pos (fst (shl_align mx ex ez)) - Z.pos (fst (shl_align my ey ez)))
    as [|m|m] eqn:D; unfold binary_normalize.
  - reflexivity.
  - unfold binary_round.
    destruct (shl_align_spec m ez (fexp prec emax (Z.pos (digits2_pos m) + ez))) as [Sz Az].
    destruct (shl_align m ez (fexp prec emax (Z.pos (digits2_pos m) + ez))) as [mz ez'].
    cbn [fst snd] in Sz, Az.
    assert (P : 0 < 2 ^ (ez - ez')) by (apply Z.pow_pos_nonneg; lia).
    assert (Split : 2 ^ (ex - ez') = 2 ^ (ex - ez) * 2 ^ (ez - ez')).
    { rewrite <- pow2_split by lia. f_equal. lia. }
    apply binary_round_aux_below; [exact B | lia |].
    rewrite Az, Split. nia.
  - unfold binary_round.
    destruct (shl_align m ez (fexp prec emax (Z.pos (digits2_pos m) + ez))) as [mz ez'].
    pose proof (binary_round_aux_signed true (Zpos mz) ez' loc_Exact) as S.
    destruct (binary_round_aux prec emax true (Z.pos mz) ez' loc_Exact) as [s|s| |s m' e'];
      cbn in S; subst; reflexivity.
Qed.

Lemma SFsub_below (r : spec_float) (my : positive) (ey : Z) :
  valid_binary r = true -> notNegative r ->
  SFltb r (SFsub prec emax r (S754_finite false my ey)) = false.
Proof.
  destruct r as [[|]|[|]| |[|] mx ex]; cbn [valid_binary notNegative];
    intros V N; try contradiction; try reflexivity.
  now apply SFsub_finite_below.
Qed.





End RoundDown.

(** ** The diametral-circle test *)

Lemma SF_eqb_ltb_false l r v :
  SFeqb l r = true -> SFltb r v = false -> SFltb l v = false.
Proof.
  unfold SFeqb, SFltb, SFcompare. FloatOrder.sf_cases; intros; FloatOrder.cmp_cases.
Qed.

Lemma sub_EPSILON_not_above (v : float) :
  notNegative (Prim2SF v) -> (v <? v - EPSILON)%float = false.
Proof.
  intros N. rewrite FloatAxioms.ltb_spec, sub_spec.
  change (Prim2SF EPSILON) with (S754_finite false 4722366482869645 (-72)).
  apply RoundDown.SFsub_below; [apply Prim2SF_valid | exact N].
Qed.






(** ** Cancellation: the area of a triple with a repeated vertex *)

Module Cancel.

Lemma opposite_SFopp r : opposite r (SFopp r).
Proof. destruct r; cbn; auto. Qed.

Lemma binary_round_aux_opp s m e l :
  binary_round_aux prec emax (negb s) m e l = SFopp (binary_round_aux prec emax s m e l).
Proof.
  unfold binary_round_aux.
  destruct (shr_fexp prec emax m e l) as [mrs1 e1].
  destruct (shr_fexp prec emax _ e1 loc_Exact) as [mrs2 e2].
  destruct (shr_m mrs2); cbn [SFopp]; try reflexivity.
  destruct (e2 <=? emax - prec)%Z; reflexivity.
Qed.

Lemma binary_round_opp s m e :
  binary_round prec emax (negb s) m e = SFopp (binary_round prec emax s m e).
Proof.
  unfold binary_round. destruct (shl_align _ _ _) as [mz ez].
  apply binary_round_aux_opp.
Qed.

Lemma binary_normalize_opp m e :
  opposite (binary_normalize prec emax m e false)
           (binary_normalize prec emax (- m) e false).
Proof.
  destruct m as [|p|p]; cbn [binary_normalize Z.opp].
  - exact I.
  - change true with (negb false). rewrite binary_round_opp. apply opposite_SFopp.
  - assert (E : binary_round prec emax true p e = SFopp (binary_round prec emax false p e))
      by (apply (binary_round_opp false)).
    rewrite E. destruct (binary_round prec emax false p e) as [s|s| |s m' e'];
      cbn; auto; destruct s; auto.
Qed.

Lemma SFsub_opposite r1 r2 :
  opposite (SFsub prec emax r1 r2) (SFsub prec emax r2 r1).
Proof.
  destruct r1 as [[|]|[|]| |s1 m1 e1], r2 as [[|]|[|]| |s2 m2 e2];
    cbn [SFsub opposite negb]; auto.
  all: try (destruct s2; cbn; now auto).
  all: try (destruct s1; cbn; now auto).
  replace (IntDef.Z.min e2 e1) with (IntDef.Z.min e1 e2) by (apply Z.min_comm).
  match goal with
  | |- opposite (binary_normalize _ _ ?a _ _) (binary_normalize _ _ ?b _ _) =>
      replace b with (- a)%Z by lia
  end.
  apply binary_normalize_opp.
Qed.


Lemma xorb_negb_r a b : xorb a (negb b) = negb (xorb a b).
Proof. destruct a, b; reflexivity. Qed.

Lemma SFmul_opposite r d d' :
  opposite d d' -> opposite (SFmul prec emax r d) (SFmul prec emax r d').
Proof.
  destruct d as [sd|sd| |sd md ed], d' as [sd'|sd'| |sd' md' ed'];
    cbn [opposite]; try contradiction; intros O.
  - destruct r; cbn; auto.
  - subst sd'. destruct r as [s|s| |s m e]; cbn [SFmul opposite]; auto;
      apply xorb_negb_r.
  - destruct r; cbn; auto.
  - destruct O as [-> [-> ->]].
    destruct r as [s|s| |s m e]; cbn [SFmul opposite]; auto.
    + apply xorb_negb_r.
    + rewrite xorb_negb_r, binary_round_aux_opp. apply opposite_SFopp.
Qed.

Lemma shl_align_same m e : shl_align m e e = (m, e).
Proof. unfold shl_align. now rewrite Z.sub_diag. Qed.

(** Adding a number and its opposite leaves zero, or NaN. *)
Lemma SFadd_opposite t t' : opposite t t' -> zeroOrNaN (SFadd prec emax t t').
Proof.
  destruct t as [s|s| |s m e], t' as [s'|s'| |s' m' e'];
    cbn [opposite]; try contradiction; intros O.
  - destruct s, s'; exact I.
  - subst s'. destruct s; exact I.
  - exact I.
  - destruct O as [-> [-> ->]]. unfold SFadd.
    replace (IntDef.Z.min e e) with e by (symmetry; apply Z.min_id).
    rewrite shl_align_same. cbn [fst].
    replace (cond_Zopp s (Z.pos m) + cond_Zopp (negb s) (Z.pos m))%Z with 0%Z
      by (destruct s; unfold cond_Zopp; cbn [negb]; lia).
    exact I.
Qed.

Lemma SFsub_same r : zeroOrNaN (SFsub prec emax r r).
Proof.
  destruct r as [[|]|[|]| |s m e]; try exact I.
  unfold SFsub.
  replace (IntDef.Z.min e e) with e by (symmetry; apply Z.min_id).
  rewrite shl_align_same. cbn [fst]. rewrite Z.sub_diag. exact I.
Qed.

Lemma SFmul_zeroOrNaN r z : zeroOrNaN z -> zeroOrNaN (SFmul prec emax r z).
Proof.
  destruct z; cbn [zeroOrNaN]; try contradiction; intros _;
    destruct r; exact I.
Qed.

Lemma SFmul_zeroOrNaN_l r z : zeroOrNaN z -> zeroOrNaN (SFmul prec emax z r).
Proof.
  destruct z; cbn [zeroOrNaN]; try contradiction; intros _;
    destruct r; exact I.
Qed.

Lemma SFabs_zeroOrNaN z : zeroOrNaN z -> zeroOrNaN (SFabs z).
Proof. destruct z; cbn; auto. Qed.

Lemma SFadd_zeroOrNaN z z' :
  zeroOrNaN z -> zeroOrNaN z' -> zeroOrNaN (SFadd prec emax z z').
Proof.
  destruct z as [[|]| | |], z' as [[|]| | |]; cbn [zeroOrNaN];
    try contradiction; intros _ _; exact I.
Qed.

(** Adding a zero, on either side, keeps a number opposite to its
    opposite. *)
Lemma SFadd_zero_l_opposite z t t' :
  zeroOrNaN z -> opposite t t' -> zeroOrNaN (SFadd prec emax (SFadd prec emax z t) t').
Proof.
  intros Z O.
  destruct z as [sz| | |]; cbn [zeroOrNaN] in Z; try contradiction.
  - destruct t as [s|s| |s m e].
    + destruct t' as [s'|s'| |s' m' e']; cbn [opposite] in O; try contradiction.
      destruct sz, s, s'; exact I.
    + now apply SFadd_opposite.
    + exact I.
    + now apply SFadd_opposite.
  - destruct t; exact I.
Qed.

Lemma SFadd_zero_r_opposite z t t' :
  zeroOrNaN z -> opposite t t' -> zeroOrNaN (SFadd prec emax (SFadd prec emax t z) t').
Proof.
  intros Z O.
  destruct z as [sz| | |]; cbn [zeroOrNaN] in Z; try contradiction.
  - destruct t as [s|s| |s m e].
    + destruct t' as [s'|s'| |s' m' e']; cbn [opposite] in O; try contradiction.
      destruct sz, s, s'; exact I.
    + now apply SFadd_opposite.
    + exact I.
    + now apply SFadd_opposite.
  - destruct t; exact I.
Qed.

End Cancel.

Lemma triangleArea_zeroOrNaN_of_sum (s : float) :
  zeroOrNaN (Prim2SF s) -> zeroOrNaN (Prim2SF (JS.Math_abs s * 0.5)%float).
Proof.
  intros Z. unfold JS.Math_abs. rewrite mul_spec, abs_spec.
  apply Cancel.SFmul_zeroOrNaN_l. now apply Cancel.SFabs_zeroOrNaN.
Qed.

(** With two of the three vertices at the same place, [triangleArea]
    returns a zero, or NaN when a product overflows. *)
Lemma triangleArea_repeated (px py qx qy : float) :
  zeroOrNaN (Prim2SF (triangleArea px py px py qx qy)) /\
  zeroOrNaN (Prim2SF (triangleArea px py qx qy qx qy)) /\
  zeroOrNaN (Prim2SF (triangleArea px py qx qy px py)).
Proof.
  unfold triangleArea. repeat split; apply triangleArea_zeroOrNaN_of_sum;
    rewrite !add_spec, !mul_spec, !sub_spec.
  - apply Cancel.SFadd_zeroOrNaN.
    + apply Cancel.SFadd_opposite, Cancel.SFmul_opposite, Cancel.SFsub_opposite.
    + apply Cancel.SFmul_zeroOrNaN, Cancel.SFsub_same.
  - apply Cancel.SFadd_zero_l_opposite.
    + apply Cancel.SFmul_zeroOrNaN, Cancel.SFsub_same.
    + apply Cancel.SFmul_opposite, Cancel.SFsub_opposite.
  - apply Cancel.SFadd_zero_r_opposite.
    + apply Cancel.SFmul_zeroOrNaN, Cancel.SFsub_same.
    + apply Cancel.SFmul_opposite, Cancel.SFsub_opposite.
Qed.

Lemma SFmul_nan_r r : SF64mul r S754_nan = S754_nan.
Proof. destruct r; reflexivity. Qed.

Lemma SFdiv_nan_r r : SF64div r S754_nan = S754_nan.
Proof. destruct r; reflexivity. Qed.

Lemma circumradius_of_zeroOrNaN_area ax ay bx by' cx cy :
  zeroOrNaN (Prim2SF (triangleArea ax ay bx by' cx cy)) ->
  JS.isFinite (circumradius ax ay bx by' cx cy) = false.
Proof.
  intros Z. unfold circumradius.
  destruct (triangleArea ax ay bx by' cx cy =? 0)%float eqn:E; [reflexivity|].
  rewrite FloatAxioms.eqb_spec in E.
  destruct (Prim2SF (triangleArea ax ay bx by' cx cy)) as [s|s| |s m e] eqn:A;
    cbn [zeroOrNaN] in Z; try contradiction.
  - destruct s; vm_compute in E; discriminate E.
  - unfold JS.isFinite, is_finite, is_nan.
    rewrite FloatAxioms.eqb_spec, div_spec, (mul_spec 4), A.
    rewrite SFmul_nan_r, SFdiv_nan_r. reflexivity.
Qed.

Lemma circumradius_repeated (px py qx qy : float) :
  JS.isFinite (circumradius px py px py qx qy) = false /\
  JS.isFinite (circumradius px py qx qy qx qy) = false /\
  JS.isFinite (circumradius px py qx qy px py) = false.
Proof.
  destruct (triangleArea_repeated px py qx qy) as [A1 [A2 A3]].
  repeat split; now apply circumradius_of_zeroOrNaN_area.
Qed.

Lemma zeroOrNaN_isZeroOrNaN (v : float) :
  zeroOrNaN (Prim2SF v) -> isZeroOrNaN v.
Proof.
  intros Z. unfold isZeroOrNaN, is_nan. rewrite !FloatAxioms.eqb_spec.
  destruct (Prim2SF v) as [s|s| |s m e]; cbn [zeroOrNaN] in Z; try contradiction.
  - left. destruct s; reflexivity.
  - right. reflexivity.
Qed.

(** * The claims *)

(** ** Alpha filter *)

(** C3.  For thresholds [alpha1 < alpha2], [computeAlphaData] behaves the
    same way at both: either it returns at both, the triangles kept at
    [alpha1] are among those kept at [alpha2], and at each threshold a
    triangle of the triangulation is kept exactly when its circumradius is
    finite and at most the threshold (equality included); or the
    triangulation names a point that does not exist and it throws at both.
    It returns whenever the indices of the triangulation address the
    points. *)
Theorem computeAlphaData_monotone points delaunay alpha1 alpha2 :
  (alpha1 <? alpha2)%float = true ->
  (indicesInRange points (Delaunay.triangles delaunay) ->
   computeAlphaData points delaunay alpha1 <> None) /\
  match computeAlphaData points delaunay alpha1,
        computeAlphaData points delaunay alpha2 with
  | Some d1, Some d2 =>
      incl (triangles d1) (triangles d2) /\
      (forall t, In t (triangles d1) <->
                 In t (chunks3 (Delaunay.triangles delaunay)) /\
                 triangleWith points
                   (fun radius => JS.isFinite radius && (radius <=? alpha1)%float) t) /\
      (forall t, In t (triangles d2) <->
                 In t (chunks3 (Delaunay.triangles delaunay)) /\
                 triangleWith points
                   (fun radius => JS.isFinite radius && (radius <=? alpha2)%float) t)
  | None, None =>
      exists t, In t (chunks3 (Delaunay.triangles delaunay)) /\ missingPoint points t
  | _, _ => False
  end.
Proof.
  intros L.
  destruct (FloatOrder.ltb_not_nan _ _ L) as [N1 N2].
  split.
  { intros R. destruct (computeAlphaData_total points delaunay alpha1 R) as [d E].
    congruence. }
  destruct (computeAlphaData points delaunay alpha1) as [d1|] eqn:E1;
    destruct (computeAlphaData points delaunay alpha2) as [d2|] eqn:E2.
  - pose proof (computeAlphaData_triangles _ _ _ _ E1) as C1.
    pose proof (computeAlphaData_triangles _ _ _ _ E2) as C2.
    split; [|split].
    + intros t Ht. apply C2. apply C1 in Ht. destruct Ht as [I W]. split; [exact I|].
      revert W. apply triangleWith_weaken. intros radius.
      now apply alphaKeeps_monotone.
    + intros t. split.
      * intros Ht. apply C1 in Ht. destruct Ht as [I W]. split; [exact I|]. revert W.
        apply triangleWith_weaken. intros radius K. now rewrite <- alphaKeeps_leb.
      * intros [I W]. apply C1. split; [exact I|]. revert W.
        apply triangleWith_weaken. intros radius K. now rewrite alphaKeeps_leb.
    + intros t. split.
      * intros Ht. apply C2 in Ht. destruct Ht as [I W]. split; [exact I|]. revert W.
        apply triangleWith_weaken. intros radius K. now rewrite <- alphaKeeps_leb.
      * intros [I W]. apply C2. split; [exact I|]. revert W.
        apply triangleWith_weaken. intros radius K. now rewrite alphaKeeps_leb.
  - apply computeAlphaData_throws in E2.
    apply (computeAlphaData_throws points delaunay alpha1) in E2. congruence.
  - apply computeAlphaData_throws in E1.
    apply (computeAlphaData_throws points delaunay alpha2) in E1. congruence.
  - now apply computeAlphaData_throws in E1.
Qed.

Lemma computeAlphaData_monotone_witness :
  (2 <? 3)%float = true /\
  option_map triangles (computeAlphaData rightTriangle oneTriangle 2) = Some [] /\
  option_map triangles (computeAlphaData rightTriangle oneTriangle 3)
  = Some [(0, 1, 2)%Z] /\
  (indicesInRange rightTriangle (Delaunay.triangles oneTriangle) ->
   computeAlphaData rightTriangle oneTriangle 2 <> None).
Proof.
  split; [reflexivity|]. split; [reflexivity|]. split; [reflexivity|].
  exact (proj1 (computeAlphaData_monotone rightTriangle oneTriangle 2 3 eq_refl)).
Defined.

(** ** Degenerate triangles *)

(** C5, as stated, fails: the three points (0.1, 0.1), (0.2, 0.2),
    (0.3, 0.3) lie on the line [y = x], yet [triangleArea] does not return
    0 for them, [circumradius] returns a finite number, and
    [computeAlphaData] keeps the triangle for the finite threshold 1e15. *)
Lemma collinear_triangle_kept :
  Forall (fun p => x p = y p) onDiagonal /\
  (triangleArea 0.1 0.1 0.2 0.2 0.3 0.3 =? 0)%float = false /\
  JS.isFinite (circumradius 0.1 0.1 0.2 0.2 0.3 0.3) = true /\
  JS.isFinite 1e15 = true /\
  option_map triangles (computeAlphaData onDiagonal oneTriangle 1e15)
    = Some [(0, 1, 2)%Z].
Proof.
  repeat split; try reflexivity. repeat constructor.
Qed.

(** C5, amended.  Whenever [triangleArea] returns exactly 0,
    [circumradius] returns positive infinity.  For a triple with a repeated
    vertex (two of the three points at the same coordinates) [triangleArea]
    returns 0, or NaN when a product overflows, and [circumradius] is not
    finite.  Every triangle that [computeAlphaData] keeps, at any threshold,
    has three different indices, three vertices at different coordinates, a
    [triangleArea] other than 0 and a finite [circumradius]: no triple with a
    repeated vertex, and none whose area is computed as 0, is ever kept. *)
Theorem degenerate_never_kept :
  (forall ax ay bx by' cx cy,
      (triangleArea ax ay bx by' cx cy =? 0)%float = true ->
      circumradius ax ay bx by' cx cy = JS.POSITIVE_INFINITY) /\
  (forall px py qx qy,
      (isZeroOrNaN (triangleArea px py px py qx qy) /\
       JS.isFinite (circumradius px py px py qx qy) = false) /\
      (isZeroOrNaN (triangleArea px py qx qy qx qy) /\
       JS.isFinite (circumradius px py qx qy qx qy) = false) /\
      (isZeroOrNaN (triangleArea px py qx qy px py) /\
       JS.isFinite (circumradius px py qx qy px py) = false)) /\
  (forall points delaunay alpha d i0 i1 i2,
      computeAlphaData points delaunay alpha = Some d ->
      In (i0, i1, i2) (triangles d) ->
      i0 <> i1 /\ i1 <> i2 /\ i2 <> i0 /\
      exists p0 p1 p2,
        get points i0 = Some p0 /\ get points i1 = Some p1 /\ get points i2 = Some p2 /\
        (x p0, y p0) <> (x p1, y p1) /\ (x p1, y p1) <> (x p2, y p2) /\
        (x p2, y p2) <> (x p0, y p0) /\
        (triangleArea (x p0) (y p0) (x p1) (y p1) (x p2) (y p2) =? 0)%float = false /\
        JS.isFinite (triangleRadius p0 p1 p2) = true).
Proof.
  split; [|split].
  - intros ax ay bx by' cx cy Z. unfold circumradius. now rewrite Z.
  - intros px py qx qy.
    destruct (triangleArea_repeated px py qx qy) as [A1 [A2 A3]].
    destruct (circumradius_repeated px py qx qy) as [R1 [R2 R3]].
    repeat split; try assumption; now apply zeroOrNaN_isZeroOrNaN.
  - intros points delaunay alpha d i0 i1 i2 E I.
    apply (computeAlphaData_triangles _ _ _ _ E) in I. destruct I as [_ W].
    destruct W as [N0 [N1 [N2 [p0 [p1 [p2 [G0 [G1 [G2 K]]]]]]]]].
    unfold alphaKeeps in K. apply negb_true_iff, orb_false_iff in K.
    destruct K as [F _]. apply negb_false_iff in F.
    split; [exact N0|]. split; [exact N1|]. split; [exact N2|].
    exists p0, p1, p2.
    split; [exact G0|]. split; [exact G1|]. split; [exact G2|].
    unfold triangleRadius in *.
    split; [|split; [|split; [|split; [|exact F]]]].
    + intros [= Ex Ey]. rewrite <- Ex, <- Ey in F.
      destruct (circumradius_repeated (x p0) (y p0) (x p2) (y p2)) as [R _]. congruence.
    + intros [= Ex Ey]. rewrite <- Ex, <- Ey in F.
      destruct (circumradius_repeated (x p0) (y p0) (x p1) (y p1)) as [_ [R _]].
      congruence.
    + intros [= Ex Ey]. rewrite Ex, Ey in F.
      destruct (circumradius_repeated (x p0) (y p0) (x p1) (y p1)) as [_ [_ R]].
      congruence.
    + unfold circumradius in F.
      destruct (triangleArea (x p0) (y p0) (x p1) (y p1) (x p2) (y p2) =? 0)%float;
        [discriminate F | reflexivity].
Qed.

(** ** Gabriel and relative-neighbourhood filters *)



(** ** polygonWithoutDuplicate *)

(** C10, as stated, fails: a single vertex with a NaN coordinate is not
    equal to itself, and the polygon comes back unchanged. *)
Lemma single_nan_vertex_kept :
  ~ (forall vertex : float * float, polygonWithoutDuplicate [vertex] = []).
Proof.
  intros H. specialize (H (nan, 0%float)). vm_compute in H. discriminate H.
Qed.

(** C10, amended.  A polygon of exactly one vertex whose two coordinates
    are numbers (not NaN) comes back empty; so a caller can receive an empty
    polygon from an input that is not empty. *)
Theorem polygonWithoutDuplicate_single vx vy :
  is_nan vx = false -> is_nan vy = false ->
  polygonWithoutDuplicate [(vx, vy)] = [] /\
  exists polygon, polygon <> [] /\ polygonWithoutDuplicate polygon = [].
Proof.
  intros Nx Ny.
  assert (E : polygonWithoutDuplicate [(vx, vy)] = []).
  { unfold polygonWithoutDuplicate. cbn [last fst snd].
    unfold is_nan in Nx, Ny. apply negb_false_iff in Nx, Ny.
    now rewrite Nx, Ny. }
  split; [exact E|]. exists [(vx, vy)]. split; [discriminate | exact E].
Qed.

Lemma polygonWithoutDuplicate_single_witness :
  is_nan 1 = false /\ is_nan 2 = false /\
  polygonWithoutDuplicate [(1%float, 2%float)] = [].
Proof.
  split; [reflexivity|]. split; [reflexivity|].
  exact (proj1 (polygonWithoutDuplicate_single 1 2 eq_refl eq_refl)).
Defined.

(** ** Minimum spanning tree *)




(** C9, as stated, fails: for the corners of the unit square followed by
    its centre, the four edges returned have total length [4 * sqrt 0.5],
    about 2.83, and not [4 * 0.5]. *)
Lemma square_tree_length_not_two :
  exists edges total,
    computeMinimumSpanningTreeEdges unitSquare = Some edges /\
    totalLength unitSquare edges = Some total /\
    (total =? 4 * 0.5)%float = false.
Proof.
  eexists _, _. split; [vm_compute; reflexivity|].
  split; [vm_compute; reflexivity | reflexivity].
Qed.

(** C9, amended.  In whatever order the four corners of the unit square
    and its centre are listed, [computeMinimumSpanningTreeEdges] returns
    exactly 4 edges, each joining the centre to a corner, and their total
    length is [4 * sqrt 0.5]. *)
Theorem square_tree points :
  Permutation unitSquare points ->
  exists edges total,
    computeMinimumSpanningTreeEdges points = Some edges /\
    length edges = 4%nat /\
    (forall e, In e edges -> centreToCorner points e = true) /\
    totalLength points edges = Some total /\
    (total =? 4 * sqrt 0.5)%float = true.
Proof.
  intros P. apply orderings_complete in P.
  assert (All : forallb squareTreeOk (orderings unitSquare) = true)
    by (vm_compute; reflexivity).
  rewrite forallb_forall in All. specialize (All points P).
  unfold squareTreeOk in All.
  destruct (computeMinimumSpanningTreeEdges points) as [edges|]; [|discriminate].
  apply andb_true_iff in All. destruct All as [All T].
  apply andb_true_iff in All. destruct All as [L C].
  destruct (totalLength points edges) as [total|] eqn:Et; [|discriminate].
  exists edges, total. split; [reflexivity|].
  split; [now apply Nat.eqb_eq|]. split; [|split; [exact Et | exact T]].
  now apply forallb_forall.
Qed.

Lemma square_tree_witness :
  Permutation unitSquare unitSquare /\
  exists edges total,
    computeMinimumSpanningTreeEdges unitSquare = Some edges /\
    length edges = 4%nat /\
    totalLength unitSquare edges = Some total.
Proof.
  split; [apply Permutation_refl|].
  destruct (square_tree unitSquare (Permutation_refl _))
    as [edges [total [E [L [_ [T _]]]]]].
  exists edges, total. auto.
Defined.

(** ** Nearest-neighbour edges *)




(** ** The mode selector *)

(** C6, as stated, fails: the type [GraphMode] has no eight different
    values. *)
Lemma GraphMode_not_eight :
  ~ (exists modes : list GraphMode, NoDup modes /\ length modes = 8%nat).
Proof.
  intros [modes [ND L]].
  assert (I : incl modes all_GraphMode) by (intros []; cbn; tauto).
  pose proof (NoDup_incl_length ND I) as B. cbn in B. lia.
Qed.

(** C6, amended.  [GraphMode] is a closed enumeration of exactly seven
    values: voronoi, alpha-shape, alpha-complex, nn-crust, gabriel, rng and
    mst; voronoi-bruteforce is not one of them.  For a point sequence that is
    not empty, the mode passed to [computeDerivedStructures] fully determines
    which builder populates [graphEdges] and [alphaTriangles]: each of the
    seven values selects its builder, the string voronoi-bruteforce selects
    the brute-force raster, and any other string runs the builder of mst.
    For an empty point sequence every mode gives the empty bundle. *)
Theorem computeDerivedStructures_by_mode
    (Delaunay_from : list Point -> Delaunay.t)
    (cellPolygon : list Point -> nat -> nat -> nat -> option Polygon)
    (p : Point) (rest : list Point) (width height : nat) (alpha : float) :
  let points := p :: rest in
  let delaunay := Delaunay_from points in
  let cells := cellsOf cellPolygon points width height in
  let candidateEdges := collectDelaunayEdges delaunay in
  let run := computeDerivedStructures Delaunay_from cellPolygon points width height alpha in
  (NoDup all_GraphMode /\ (forall m, In m all_GraphMode) /\
   length all_GraphMode = 7%nat /\
   forall m, GraphMode_value m <> "voronoi-bruteforce"%string) /\
  (forall m,
      run (GraphMode_value m) =
      match m with
      | voronoi => edgesFrom cells (Some [])
      | alpha_shape =>
          option_map (fun d => {| voronoiCells := cells;
                                  graphEdges := boundaryEdges d;
                                  alphaTriangles := [] |})
                     (computeAlphaData points delaunay alpha)
      | alpha_complex =>
          option_map (fun d => {| voronoiCells := cells;
                                  graphEdges := allEdges d;
                                  alphaTriangles := triangles d |})
                     (computeAlphaData points delaunay alpha)
      | nn_crust => edgesFrom cells (computeNearestNeighborEdges points)
      | gabriel => edgesFrom cells (computeGabrielEdges points candidateEdges)
      | rng => edgesFrom cells (computeRelativeNeighborhoodEdges points candidateEdges)
      | mst => edgesFrom cells (computeMinimumSpanningTreeEdges points)
      end) /\
  run "voronoi-bruteforce"%string =
    option_map (fun pixels => {| voronoiCells := pixels; graphEdges := [];
                                 alphaTriangles := [] |})
               (computeVoronoiBruteForce points width height) /\
  (forall mode,
      mode <> "voronoi-bruteforce"%string ->
      (forall m, GraphMode_value m <> mode) ->
      run mode = edgesFrom cells (computeMinimumSpanningTreeEdges points)) /\
  (forall mode,
      computeDerivedStructures Delaunay_from cellPolygon [] width height alpha mode
      = Some {| voronoiCells := []; graphEdges := []; alphaTriangles := [] |}).
Proof.
  intros points delaunay cells candidateEdges run.
  split; [|split; [|split; [|split]]].
  - split; [repeat constructor; cbn; intuition discriminate|].
    split; [intros []; cbn; tauto|]. split; [reflexivity|].
    intros []; discriminate.
  - intros []; reflexivity.
  - reflexivity.
  - intros mode Nb Nm. unfold run, computeDerivedStructures.
    cbn [length Nat.eqb points].
    pose proof (Nm voronoi) as N1. pose proof (Nm alpha_shape) as N2.
    pose proof (Nm alpha_complex) as N3. pose proof (Nm nn_crust) as N4.
    pose proof (Nm gabriel) as N5. pose proof (Nm rng) as N6.
    cbn [GraphMode_value] in *.
    assert (F : forall s, s <> mode -> String.eqb mode s = false).
    { intros s N. apply String.eqb_neq. congruence. }
    rewrite (F _ (not_eq_sym Nb)), (F _ N1), (F _ N2), (F _ N3), (F _ N4), (F _ N5), (F _ N6).
    reflexivity.
  - reflexivity.
Qed.

(** ** The slider mapping *)


(** ** The Gabriel filter *)



(** ** Further properties of the builders *)

(** Without input the builders return empty results and none throws: for
    any points, an empty triangulation gives no candidate edge and an alpha
    structure without triangles or edges, and no candidate edge gives no
    Gabriel and no relative-neighbourhood edge; for fewer than two points
    there is no nearest-neighbour edge and no tree edge. *)
Theorem builders_without_input (points : list Point) (alpha : float) :
  let empty := {| Delaunay.triangles := []; Delaunay.halfedges := [] |} in
  collectDelaunayEdges empty = [] /\
  computeAlphaData points empty alpha =
    Some {| triangles := []; allEdges := []; boundaryEdges := [] |} /\
  computeGabrielEdges points [] = Some [] /\
  computeRelativeNeighborhoodEdges points [] = Some [] /\
  ((length points < 2)%nat ->
   computeNearestNeighborEdges points = Some [] /\
   computeMinimumSpanningTreeEdges points = Some []).
Proof.
  cbv zeta. repeat split; try reflexivity;
    destruct points as [|p [|q rest]]; cbn in *; try reflexivity; lia.
Qed.

(** [collectDelaunayEdges] returns each undirected edge once, smaller index
    first, and never a loop from a point to itself. *)
Theorem collectDelaunayEdges_canonical (delaunay : Delaunay.t) :
  NoDup (collectDelaunayEdges delaunay) /\
  forall a b, In (a, b) (collectDelaunayEdges delaunay) -> (a < b)%Z.
Proof.
  unfold collectDelaunayEdges.
  set (P := fun (_ : list nat) (acc : list EdgeKey * list EdgeIndex) =>
              fst acc = snd acc /\ NoDup (snd acc) /\
              forall a b, In (a, b) (snd acc) -> (a < b)%Z).
  assert (G : P (seq 0 (length (Delaunay.halfedges delaunay)))
                (fold_left (collectDelaunayEdges_step delaunay)
                   (seq 0 (length (Delaunay.halfedges delaunay))) ([], []))).
  { apply fold_left_invariant.
    - repeat split; [constructor | intros a b []].
    - intros done' edgeIndex [seen edges] _ [S [N C]]. cbn [fst snd] in S, N, C.
      subst seen. unfold P, collectDelaunayEdges_step.
      destruct ((0 <=? nth edgeIndex (Delaunay.halfedges delaunay) 0)%Z &&
                (nth edgeIndex (Delaunay.halfedges delaunay) 0 <? Z.of_nat edgeIndex)%Z);
        [now repeat split|].
      destruct (get (Delaunay.triangles delaunay) (Z.of_nat edgeIndex)) as [p|];
        [|now repeat split].
      destruct (get (Delaunay.triangles delaunay) (nextHalfedge (Z.of_nat edgeIndex)))
        as [q|]; [|now repeat split].
      destruct (Z.eqb_spec p q) as [|D]; [now repeat split|].
      destruct (Set_has edges (edgeKey p q)) eqn:H; [now repeat split|].
      assert (K : edgeKey p q = (Z.min p q, Z.max p q))
        by (unfold edgeKey; destruct (Z.ltb_spec p q); f_equal; lia).
      assert (F : ~ In (edgeKey p q) edges).
      { intros I. apply Set_has_In in I. congruence. }
      unfold Set_add. rewrite H. cbn [fst snd]. rewrite <- K.
      split; [reflexivity|]. split.
      + apply NoDup_app; [exact N | repeat constructor; intros [] |].
        intros e I [<-|[]]. exact (F I).
      + intros a b I. apply in_app_or in I. destruct I as [I|[I|[]]]; [now apply C|].
        rewrite K in I. injection I as <- <-. lia. }
  destruct G as [_ [N C]]. split; assumption.
Qed.

(** Three points with the same [y] coordinate lie on a horizontal line:
    for them [triangleArea] returns 0, or NaN when a coordinate is not
    finite, and [circumradius] is not finite.  So when all the points share
    one [y], [computeAlphaData] keeps no triangle, whatever the triangulation
    and the threshold. *)
Theorem horizontal_never_kept :
  (forall ax bx cx c,
     isZeroOrNaN (triangleArea ax c bx c cx c) /\
     JS.isFinite (circumradius ax c bx c cx c) = false) /\
  (forall points delaunay alpha d,
     (forall p q, In p points -> In q points -> y p = y q) ->
     computeAlphaData points delaunay alpha = Some d -> triangles d = []).
Proof.
  assert (A : forall ax bx cx c,
             zeroOrNaN (Prim2SF (triangleArea ax c bx c cx c))).
  { intros ax bx cx c. unfold triangleArea. apply triangleArea_zeroOrNaN_of_sum.
    rewrite !add_spec, !mul_spec, !sub_spec.
    repeat apply Cancel.SFadd_zeroOrNaN; apply Cancel.SFmul_zeroOrNaN, Cancel.SFsub_same. }
  split.
  - intros ax bx cx c. split; [apply zeroOrNaN_isZeroOrNaN, A|].
    apply circumradius_of_zeroOrNaN_area, A.
  - intros points delaunay alpha d Flat E.
    destruct (triangles d) as [|[[i0 i1] i2] rest] eqn:T; [reflexivity|].
    exfalso.
    assert (I : In (i0, i1, i2) (triangles d)) by (rewrite T; left; reflexivity).
    apply (computeAlphaData_triangles _ _ _ _ E) in I. destruct I as [_ W].
    destruct W as [_ [_ [_ [p0 [p1 [p2 [G0 [G1 [G2 K]]]]]]]]].
    apply get_Some in G0, G1, G2.
    destruct G0 as [_ G0], G1 as [_ G1], G2 as [_ G2].
    apply nth_error_In in G0, G1, G2.
    unfold alphaKeeps in K. apply negb_true_iff, orb_false_iff in K.
    destruct K as [F _]. apply negb_false_iff in F.
    unfold triangleRadius in F.
    rewrite (Flat p1 p0 G1 G0), (Flat p2 p0 G2 G0) in F.
    rewrite (circumradius_of_zeroOrNaN_area _ _ _ _ _ _ (A _ _ _ _)) in F. discriminate F.
Qed.

(** ** clamp, approxEqual and the distances *)

Lemma leb_antisym a b :
  (a <=? b)%float = true -> (b <=? a)%float = true -> (a =? b)%float = true.
Proof.
  rewrite !FloatAxioms.leb_spec, FloatAxioms.eqb_spec.
  unfold SFleb, SFeqb.
  destruct (Prim2SF a) as [s|s| |s m e], (Prim2SF b) as [s'|s'| |s' m' e'];
    cbn; try discriminate; try reflexivity;
    repeat match goal with s : bool |- _ => destruct s end;
    cbn; try discriminate; try reflexivity.
  all: change (Pos.compare_cont Eq) with Pos.compare;
    destruct (Z.compare_spec e e'); cbn; try discriminate; try reflexivity;
    try (destruct (Z.compare_spec e' e); cbn; try discriminate; try reflexivity; lia);
    subst; rewrite Z.compare_refl; cbn;
    rewrite (Pos.compare_antisym m m'); destruct (Pos.compare m m'); cbn;
    try discriminate; try reflexivity.
Qed.

Lemma Math_min_spec a b :
  is_nan a = false -> is_nan b = false ->
  (JS.Math_min a b <=? a)%float = true /\ (JS.Math_min a b <=? b)%float = true /\
  (JS.Math_min a b = a \/ JS.Math_min a b = b).
Proof.
  intros Na Nb. unfold JS.Math_min. rewrite Na, Nb. cbn [orb].
  destruct (a <? b)%float eqn:L.
  { split; [now apply FloatOrder.leb_refl|]. split; [now apply FloatOrder.ltb_leb | now left]. }
  destruct (b <? a)%float eqn:L'.
  { split; [now apply FloatOrder.ltb_leb|]. split; [now apply FloatOrder.leb_refl | now right]. }
  pose proof (FloatOrder.not_ltb_leb _ _ Na Nb L) as Lba.
  pose proof (FloatOrder.not_ltb_leb _ _ Nb Na L') as Lab.
  assert (Ra : (a <=? a)%float = true /\ (a <=? b)%float = true /\ (a = a \/ a = b)).
  { split; [now apply FloatOrder.leb_refl|]. split; [exact Lab | now left]. }
  assert (Rb : (b <=? a)%float = true /\ (b <=? b)%float = true /\ (b = a \/ b = b)).
  { split; [exact Lba|]. split; [now apply FloatOrder.leb_refl | now right]. }
  destruct (classify a), (classify b); assumption.
Qed.

Lemma Math_max_spec a b :
  is_nan a = false -> is_nan b = false ->
  (a <=? JS.Math_max a b)%float = true /\ (b <=? JS.Math_max a b)%float = true /\
  (JS.Math_max a b = a \/ JS.Math_max a b = b).
Proof.
  intros Na Nb. unfold JS.Math_max. rewrite Na, Nb. cbn [orb].
  destruct (a <? b)%float eqn:L.
  { split; [now apply FloatOrder.ltb_leb|]. split; [now apply FloatOrder.leb_refl | now right]. }
  destruct (b <? a)%float eqn:L'.
  { split; [now apply FloatOrder.leb_refl|]. split; [now apply FloatOrder.ltb_leb | now left]. }
  pose proof (FloatOrder.not_ltb_leb _ _ Na Nb L) as Lba.
  pose proof (FloatOrder.not_ltb_leb _ _ Nb Na L') as Lab.
  assert (Ra : (a <=? a)%float = true /\ (b <=? a)%float = true /\ (a = a \/ a = b)).
  { split; [now apply FloatOrder.leb_refl|]. split; [exact Lba | now left]. }
  assert (Rb : (a <=? b)%float = true /\ (b <=? b)%float = true /\ (b = a \/ b = b)).
  { split; [exact Lab|]. split; [now apply FloatOrder.leb_refl | now right]. }
  destruct (classify a); assumption.
Qed.

Lemma Math_min_nan a b :
  is_nan a = true \/ is_nan b = true -> is_nan (JS.Math_min a b) = true.
Proof.
  intros N. unfold JS.Math_min.
  destruct (is_nan a), (is_nan b); cbn [orb]; try reflexivity.
  destruct N; discriminate.
Qed.

Lemma Math_max_nan a b :
  is_nan a = true \/ is_nan b = true -> is_nan (JS.Math_max a b) = true.
Proof.
  intros N. unfold JS.Math_max.
  destruct (is_nan a), (is_nan b); cbn [orb]; try reflexivity.
  destruct N; discriminate.
Qed.

Lemma clamp_range (value min max : float) :
  is_nan value = false -> is_nan min = false -> is_nan max = false ->
  (min <=? clamp value min max)%float = true /\
  ((min <=? max)%float = true -> (clamp value min max <=? max)%float = true) /\
  ((min <=? value)%float = true -> (value <=? max)%float = true ->
   (clamp value min max =? value)%float = true).
Proof.
  intros Nv Nmin Nmax. unfold clamp.
  destruct (Math_min_spec max value Nmax Nv) as [M1 [M2 M3]].
  assert (Nm : is_nan (JS.Math_min max value) = false) by (destruct M3 as [-> | ->]; assumption).
  destruct (Math_max_spec min (JS.Math_min max value) Nmin Nm) as [X1 [X2 X3]].
  split; [exact X1|]. split.
  - intros L. destruct X3 as [-> | ->]; assumption.
  - intros L1 L2. apply leb_antisym.
    + destruct X3 as [-> | ->]; assumption.
    + apply FloatOrder.leb_trans with (JS.Math_min max value); [|exact X2].
      destruct M3 as [-> | ->]; [exact L2 | now apply FloatOrder.leb_refl].
Qed.

(** A NaN among the three arguments of [clamp] gives NaN. *)
Lemma clamp_nan (value min max : float) :
  is_nan value = true \/ is_nan min = true \/ is_nan max = true ->
  is_nan (clamp value min max) = true.
Proof.
  intros N. unfold clamp. apply Math_max_nan.
  destruct N as [N|[N|N]]; [right; apply Math_min_nan; now right | now left |
                            right; apply Math_min_nan; now left].
Qed.

(** [clamp] keeps a number between its bounds: for numbers that are not
    NaN the result is never below [min]; when [min <= max] it is never above
    [max], and a value already between the bounds comes back equal to itself.
    (A NaN among the three arguments gives NaN.) *)
Theorem clamp_between (value min max : float) :
  is_nan value = false -> is_nan min = false -> is_nan max = false ->
  (min <=? clamp value min max)%float = true /\
  ((min <=? max)%float = true -> (clamp value min max <=? max)%float = true) /\
  ((min <=? value)%float = true -> (value <=? max)%float = true ->
   (clamp value min max =? value)%float = true) /\
  (forall v lo hi, is_nan v = true \/ is_nan lo = true \/ is_nan hi = true ->
                   is_nan (clamp v lo hi) = true).
Proof.
  intros Nv Nmin Nmax.
  destruct (clamp_range value min max Nv Nmin Nmax) as [A [B C]].
  split; [exact A|]. split; [exact B|]. split; [exact C | exact clamp_nan].
Qed.

Lemma clamp_between_witness :
  (40 <=? clamp 1000 40 920)%float = true /\ (clamp 1000 40 920 <=? 920)%float = true.
Proof.
  destruct (clamp_between 1000 40 920 eq_refl eq_refl eq_refl) as [L [U _]].
  split; [exact L | exact (U eq_refl)].
Defined.


Lemma is_finite_spec v :
  is_finite v = match Prim2SF v with
                | S754_zero _ | S754_finite _ _ _ => true
                | _ => false
                end.
Proof.
  unfold is_finite, is_nan, is_infinity. rewrite !FloatAxioms.eqb_spec, abs_spec.
  replace (Prim2SF infinity) with (S754_infinity false) by reflexivity.
  destruct (Prim2SF v) as [s|s| |s m e] eqn:E.
  - destruct s; reflexivity.
  - destruct s; reflexivity.
  - reflexivity.
  - rewrite FloatOrder.SF_eqb_refl by discriminate. reflexivity.
Qed.

Lemma SFabs_opposite r r' : opposite r r' -> SFabs r = SFabs r'.
Proof.
  destruct r as [s|s| |s m e], r' as [s'|s'| |s' m' e'];
    cbn [opposite]; try contradiction; try reflexivity.
  intros [_ [-> ->]]. reflexivity.
Qed.

Lemma SFmul_self_opposite r r' :
  opposite r r' -> SF64mul r r = SF64mul r' r'.
Proof.
  destruct r as [s|s| |s m e], r' as [s'|s'| |s' m' e'];
    cbn [opposite]; try contradiction; try reflexivity.
  - intros _. destruct s, s'; reflexivity.
  - intros ->. destruct s; reflexivity.
  - intros [-> [-> ->]]. destruct s; reflexivity.
Qed.

Lemma abs_sub_swap (a b : float) : abs (a - b) = abs (b - a).
Proof.
  apply Prim2SF_inj. rewrite !abs_spec, !sub_spec.
  apply SFabs_opposite, Cancel.SFsub_opposite.
Qed.

Lemma is_nan_abs (v : float) : is_nan (abs v) = is_nan v.
Proof.
  unfold is_nan. rewrite !FloatAxioms.eqb_spec, abs_spec.
  destruct (Prim2SF v) as [s|s| |s m e]; try reflexivity.
  - destruct s; reflexivity.
  - rewrite !FloatOrder.SF_eqb_refl by discriminate. reflexivity.
Qed.

(** [Math.hypot] reads its arguments only through their magnitudes. *)
Lemma Math_hypot_abs (a b a' b' : float) :
  abs a = abs a' -> abs b = abs b' -> JS.Math_hypot a b = JS.Math_hypot a' b'.
Proof.
  intros Ea Eb. unfold JS.Math_hypot.
  rewrite <- (is_nan_abs a), <- (is_nan_abs b), <- (is_nan_abs a'), <- (is_nan_abs b').
  rewrite Ea, Eb. reflexivity.
Qed.

Lemma distanceSquared_sym (a b : Point) : distanceSquared a b = distanceSquared b a.
Proof.
  unfold distanceSquared. apply Prim2SF_inj. rewrite !add_spec, !mul_spec, !sub_spec.
  f_equal; apply SFmul_self_opposite, Cancel.SFsub_opposite.
Qed.

Lemma distance_sym (a b : Point) : distance a b = distance b a.
Proof. unfold distance. apply Math_hypot_abs; apply abs_sub_swap. Qed.

Lemma SFsub_self_finite s m e :
  SF64sub (S754_finite s m e) (S754_finite s m e) = S754_zero false.
Proof.
  unfold SF64sub, SFsub.
  replace (IntDef.Z.min e e) with e by (symmetry; apply Z.min_id).
  rewrite Cancel.shl_align_same. cbn [fst]. rewrite Z.sub_diag. reflexivity.
Qed.

Lemma sub_self_finite (v : float) :
  is_finite v = true -> Prim2SF (v - v) = S754_zero false.
Proof.
  rewrite is_finite_spec, sub_spec.
  destruct (Prim2SF v) as [s|s| |s m e]; try discriminate; intros _.
  - destruct s; reflexivity.
  - apply SFsub_self_finite.
Qed.

(** Distances do not depend on the order of the two points, and a point
    with finite coordinates is at distance 0 from itself. *)
Theorem distance_symmetric (a b : Point) :
  distanceSquared a b = distanceSquared b a /\
  distance a b = distance b a /\
  (JS.isFinite (x a) = true -> JS.isFinite (y a) = true ->
   distanceSquared a a = 0%float /\ distance a a = 0%float).
Proof.
  split; [apply distanceSquared_sym|]. split; [apply distance_sym|].
  unfold JS.isFinite. intros Fx Fy.
  apply sub_self_finite in Fx, Fy.
  assert (Zx : (x a - x a)%float = 0%float) by (apply Prim2SF_inj; rewrite Fx; reflexivity).
  assert (Zy : (y a - y a)%float = 0%float) by (apply Prim2SF_inj; rewrite Fy; reflexivity).
  unfold distanceSquared, distance. rewrite Zx, Zy. split; reflexivity.
Qed.

(** [approxEqual] does not depend on the order of its arguments; a number
    is approximately equal to itself exactly when it is finite; and
    [approxZero] is approximate equality with 0. *)
Theorem approxEqual_symmetric (a b : float) :
  approxEqual a b = approxEqual b a /\
  approxEqual a a = JS.isFinite a /\
  approxZero a = approxEqual a 0.
Proof.
  split; [|split].
  - unfold approxEqual, JS.Math_abs. now rewrite abs_sub_swap.
  - unfold approxEqual, JS.Math_abs, JS.isFinite.
    rewrite is_finite_spec, FloatAxioms.ltb_spec, abs_spec, sub_spec.
    destruct (Prim2SF a) as [s|s| |s m e] eqn:E.
    + destruct s; reflexivity.
    + destruct s; reflexivity.
    + reflexivity.
    + rewrite SFsub_self_finite. reflexivity.
  - unfold approxZero, approxEqual, JS.Math_abs. f_equal.
    apply Prim2SF_inj. rewrite !abs_spec, sub_spec.
    replace (Prim2SF 0) with (S754_zero false) by reflexivity.
    destruct (Prim2SF a) as [[|]|[|]| |[|] m e]; reflexivity.
Qed.

(** ** Halfedges and candidate edges *)

(** For a halfedge index (a non-negative integer), [nextHalfedge] stays in
    the same triangle, moves to another corner, and comes back after three
    steps. *)
Theorem nextHalfedge_cycle (index : Z) :
  (0 <= index)%Z ->
  (nextHalfedge index / 3 = index / 3)%Z /\
  nextHalfedge index <> index /\
  nextHalfedge (nextHalfedge index) <> index /\
  nextHalfedge (nextHalfedge (nextHalfedge index)) = index.
Proof.
  intros N. unfold nextHalfedge.
  repeat match goal with
         | |- context [(?a mod 3 =? 2)%Z] => destruct (Z.eqb_spec (a mod 3) 2)
         end;
    Z.to_euclidean_division_equations; lia.
Qed.

Lemma nextHalfedge_cycle_witness :
  (nextHalfedge 5 / 3 = 5 / 3)%Z /\ nextHalfedge (nextHalfedge (nextHalfedge 5)) = 5%Z.
Proof.
  assert (N : (0 <= 5)%Z) by lia.
  destruct (nextHalfedge_cycle 5 N) as [A [_ [_ B]]]. split; [exact A | exact B].
Defined.

(** The edges [collectDelaunayEdges] returns are exactly the sides of the
    triangles: each one joins the two ends of a halfedge whose twin does not
    come earlier, and every such halfedge with two different ends has its
    edge in the result. *)
Theorem collectDelaunayEdges_halfedges (delaunay : Delaunay.t) :
  (forall a b, In (a, b) (collectDelaunayEdges delaunay) ->
     exists e p q, halfedgeFromTo delaunay e p q /\ ~ twinEarlier delaunay e /\
                   p <> q /\ a = Z.min p q /\ b = Z.max p q) /\
  (forall e p q, halfedgeFromTo delaunay e p q -> ~ twinEarlier delaunay e -> p <> q ->
     In (Z.min p q, Z.max p q) (collectDelaunayEdges delaunay)).
Proof.
  unfold collectDelaunayEdges.
  set (n := length (Delaunay.halfedges delaunay)).
  set (P := fun (done' : list nat) (acc : list EdgeKey * list EdgeIndex) =>
              fst acc = snd acc /\
              (forall a b, In (a, b) (snd acc) ->
                 exists e p q, halfedgeFromTo delaunay e p q /\ ~ twinEarlier delaunay e /\
                               p <> q /\ a = Z.min p q /\ b = Z.max p q) /\
              (forall e p q, In e done' -> halfedgeFromTo delaunay e p q ->
                 ~ twinEarlier delaunay e -> p <> q ->
                 In (Z.min p q, Z.max p q) (snd acc))).
  assert (G : P (seq 0 n) (fold_left (collectDelaunayEdges_step delaunay) (seq 0 n) ([], []))).
  { apply fold_left_invariant.
    - split; [reflexivity|]. split; [intros a b [] | intros e p q []].
    - intros done' e [seen edges] Ie [S [Snd Cpl]]. cbn [fst snd] in S, Snd, Cpl.
      subst seen. apply in_seq in Ie.
      assert (Old : forall acc',
                 acc' = (edges, edges) ->
                 (forall p q, halfedgeFromTo delaunay e p q -> ~ twinEarlier delaunay e ->
                              p <> q -> In (Z.min p q, Z.max p q) edges) ->
                 P (done' ++ [e]) acc').
      { intros acc' -> New. split; [reflexivity|]. split; [exact Snd|].
        intros e' p q I. apply in_app_or in I. destruct I as [I|[<-|[]]].
        - now apply Cpl.
        - apply New. }
      unfold collectDelaunayEdges_step.
      destruct ((0 <=? nth e (Delaunay.halfedges delaunay) 0)%Z &&
                (nth e (Delaunay.halfedges delaunay) 0 <? Z.of_nat e)%Z) eqn:T.
      { apply Old; [reflexivity|]. intros p q _ NT. exfalso. apply NT.
        apply andb_true_iff in T. destruct T as [T1 T2].
        apply Z.leb_le in T1. apply Z.ltb_lt in T2. split; assumption. }
      assert (NT : ~ twinEarlier delaunay e).
      { intros [T1 T2]. apply Z.leb_le in T1. apply Z.ltb_lt in T2.
        rewrite T1, T2 in T. discriminate T. }
      destruct (get (Delaunay.triangles delaunay) (Z.of_nat e)) as [p|] eqn:Gp;
        [|apply Old; [reflexivity|]; intros p q [_ [H _]]; congruence].
      destruct (get (Delaunay.triangles delaunay) (nextHalfedge (Z.of_nat e)))
        as [q|] eqn:Gq;
        [|apply Old; [reflexivity|]; intros p' q' [_ [_ H]]; congruence].
      destruct (Z.eqb_spec p q) as [E|D].
      { apply Old; [reflexivity|]. intros p' q' [_ [Hp Hq]] _ D. congruence. }
      assert (K : edgeKey p q = (Z.min p q, Z.max p q))
        by (unfold edgeKey; destruct (Z.ltb_spec p q); f_equal; lia).
      destruct (Set_has edges (edgeKey p q)) eqn:H.
      { apply Old; [reflexivity|]. intros p' q' [_ [Hp Hq]] _ _.
        assert (p' = p) by congruence. assert (q' = q) by congruence. subst p' q'.
        rewrite <- K. now apply Set_has_In. }
      unfold Set_add. rewrite H. cbn [fst snd]. rewrite <- K.
      split; [reflexivity|]. split.
      + intros a b I. apply in_app_or in I. destruct I as [I|[I|[]]]; [now apply Snd|].
        rewrite K in I. injection I as <- <-.
        exists e, p, q. split; [|auto]. split; [cbn in Ie; lia|]. split; assumption.
      + intros e' p' q' I Hf NT' D'. apply in_or_app.
        apply in_app_or in I. destruct I as [I|[<-|[]]].
        * left. now apply Cpl with e'.
        * right. left. destruct Hf as [_ [Hp Hq]].
          assert (p' = p) by congruence. assert (q' = q) by congruence. subst p' q'.
          exact K. }
  destruct G as [_ [Snd Cpl]]. split; [exact Snd|].
  intros e p q Hf. apply Cpl; [|exact Hf].
  apply in_seq. destruct Hf as [L _]. cbn. fold n in L. lia.
Qed.

(** ** Edges of the alpha structure *)

Lemma EdgeKey_eqb_refl k : EdgeKey_eqb k k = true.
Proof. now apply EdgeKey_eqb_eq. Qed.

Lemma EdgeKey_eqb_neq k1 k2 : EdgeKey_eqb k1 k2 = false <-> k1 <> k2.
Proof.
  destruct (EdgeKey_eqb k1 k2) eqn:E; split; intros H; try congruence.
  - apply EdgeKey_eqb_eq in E. contradiction.
  - intros ->. rewrite EdgeKey_eqb_refl in E. discriminate.
Qed.

Lemma Map_get_set m k v k' :
  Map_get_or0 (Map_set m k v) k' = if EdgeKey_eqb k' k then v else Map_get_or0 m k'.
Proof.
  induction m as [|[k0 v0] m IH]; cbn.
  - reflexivity.
  - destruct (EdgeKey_eqb k k0) eqn:E; cbn.
    + apply EdgeKey_eqb_eq in E. subst k0. destruct (EdgeKey_eqb k' k); reflexivity.
    + destruct (EdgeKey_eqb k' k0) eqn:E'; [|exact IH].
      apply EdgeKey_eqb_eq in E'. subst k0.
      destruct (EdgeKey_eqb k' k) eqn:E''; [|reflexivity].
      apply EdgeKey_eqb_eq in E''. subst k'. rewrite EdgeKey_eqb_refl in E. discriminate.
Qed.

Lemma Map_set_keys m k v k' :
  In k' (map fst (Map_set m k v)) <-> k' = k \/ In k' (map fst m).
Proof.
  induction m as [|[k0 v0] m IH]; cbn.
  - intuition congruence.
  - destruct (EdgeKey_eqb k k0) eqn:E; cbn.
    + apply EdgeKey_eqb_eq in E. subst k0. intuition congruence.
    + rewrite IH. intuition congruence.
Qed.

Lemma Map_set_NoDup m k v :
  NoDup (map fst m) -> NoDup (map fst (Map_set m k v)).
Proof.
  induction m as [|[k0 v0] m IH]; cbn; intros N.
  - repeat constructor. intros [].
  - inversion N as [|? ? Hn N']; subst.
    destruct (EdgeKey_eqb k k0) eqn:E; cbn.
    + constructor; assumption.
    + constructor; [|now apply IH].
      rewrite Map_set_keys. intros [->|I]; [|contradiction].
      rewrite EdgeKey_eqb_refl in E. discriminate.
Qed.

Lemma Map_get_In m k :
  NoDup (map fst m) ->
  forall v, In (k, v) m <-> In k (map fst m) /\ Map_get_or0 m k = v.
Proof.
  induction m as [|[k0 v0] m IH]; cbn; intros N v.
  - tauto.
  - inversion N as [|? ? Hn N']; subst. specialize (IH N' v).
    destruct (EdgeKey_eqb k k0) eqn:E.
    + apply EdgeKey_eqb_eq in E. subst k0. split.
      * intros [[= ->]|I]; [auto|]. exfalso. apply Hn. apply IH in I. tauto.
      * intros [_ ->]. now left.
    + apply EdgeKey_eqb_neq in E. rewrite IH. split.
      * intros [[= -> ->]|I]; [congruence | tauto].
      * intros [[->|I] G]; [congruence | tauto].
Qed.

Lemma counts_countEdge E m e : counts E m -> counts (E ++ [e]) (countEdge m e).
Proof.
  intros [N C]. unfold countEdge. split; [now apply Map_set_NoDup|].
  intros k. rewrite Map_set_keys, Map_get_set, in_app_iff, count_occ_app. cbn [In count_occ].
  destruct (C k) as [Ck Gk]. split; [rewrite Ck; intuition congruence|].
  destruct (EdgeIndex_eq_dec e k) as [->|D].
  - rewrite EdgeKey_eqb_refl, Gk. lia.
  - destruct (EdgeKey_eqb k e) eqn:E'; [apply EdgeKey_eqb_eq in E'; congruence|].
    rewrite Gk. lia.
Qed.

Lemma alphaLoop_counts points alpha tris :
  forall alphaTriangles edgeCount result edgeCount',
    counts (flat_map sides alphaTriangles) edgeCount ->
    alphaLoop points alpha tris alphaTriangles edgeCount = Some (result, edgeCount') ->
    counts (flat_map sides result) edgeCount'.
Proof.
  induction tris as [|a|a b|i0 i1 i2 rest IH] using list_by_threes; intros T E T' E' C H.
  1-3: cbn in H; injection H as <- <-; exact C.
  cbn [alphaLoop] in H.
  destruct ((i0 =? i1)%Z || (i1 =? i2)%Z || (i2 =? i0)%Z); [now apply (IH _ _ _ _ C)|].
  destruct (get points i0) as [p0|]; [|discriminate].
  destruct (get points i1) as [p1|]; [|discriminate].
  destruct (get points i2) as [p2|]; [|discriminate].
  destruct (negb (JS.isFinite (triangleRadius p0 p1 p2))
            || (alpha <? triangleRadius p0 p1 p2)%float); [now apply (IH _ _ _ _ C)|].
  apply (IH _ _ _ _) in H; [exact H|].
  rewrite flat_map_app. cbn [flat_map sides]. rewrite app_nil_r.
  unfold decodeEdgeKey.
  change [edgeKey i0 i1; edgeKey i1 i2; edgeKey i2 i0]
    with ([edgeKey i0 i1] ++ [edgeKey i1 i2] ++ [edgeKey i2 i0]).
  rewrite !app_assoc. now repeat apply counts_countEdge.
Qed.

Lemma NoDup_map_fst_filter {A B : Type} (f : A * B -> bool) (m : list (A * B)) :
  NoDup (map fst m) -> NoDup (map fst (filter f m)).
Proof.
  induction m as [|kv m IH]; cbn; intros N; [constructor|].
  inversion N as [|? ? Hn N']; subst.
  destruct (f kv); cbn; [|now apply IH].
  constructor; [|now apply IH].
  intros I. apply Hn. apply in_map_iff in I. destruct I as [kv' [E I]].
  apply filter_In in I. apply in_map_iff. exists kv'. tauto.
Qed.

(** The edges of an alpha structure are the sides of its triangles, each
    listed once; the boundary edges are the sides that belong to exactly one
    of its triangles. *)
Theorem computeAlphaData_edges (points : list Point) (delaunay : Delaunay.t)
    (alpha : float) (d : AlphaData) :
  computeAlphaData points delaunay alpha = Some d ->
  NoDup (allEdges d) /\ NoDup (boundaryEdges d) /\
  (forall e, In e (allEdges d) <-> exists t, In t (triangles d) /\ In e (sides t)) /\
  (forall e, In e (boundaryEdges d) <-> sideCount (triangles d) e = 1%nat).
Proof.
  unfold computeAlphaData. intros H.
  destruct (alphaLoop points alpha (Delaunay.triangles delaunay) [] [])
    as [[T m]|] eqn:L; [|discriminate].
  injection H as <-. cbn [triangles allEdges boundaryEdges].
  assert (C0 : counts (flat_map sides []) []).
  { split; [constructor|]. intros k. cbn. tauto. }
  destruct (alphaLoop_counts _ _ _ _ _ _ _ C0 L) as [N C].
  unfold decodeEdgeKey.
  change (fun kv : EdgeKey * Z => fst kv) with (@fst EdgeKey Z).
  split; [exact N|]. split; [now apply NoDup_map_fst_filter|]. split.
  - intros e. rewrite (proj1 (C e)), in_flat_map. reflexivity.
  - intros e. unfold sideCount. destruct (C e) as [Ce Ge]. split.
    + intros I. apply in_map_iff in I. destruct I as [[k v] [E I]]. cbn in E. subst k.
      apply filter_In in I. destruct I as [I V]. cbn in V. apply Z.eqb_eq in V. subst v.
      apply (Map_get_In _ _ N) in I. lia.
    + intros One. apply in_map_iff. exists (e, 1%Z). split; [reflexivity|].
      apply filter_In. split; [|reflexivity].
      apply (Map_get_In _ _ N). split; [|lia].
      apply Ce. apply (count_occ_In EdgeIndex_eq_dec). lia.
Qed.

Lemma computeAlphaData_edges_witness :
  let d := {| triangles := [(0, 1, 2)%Z];
              allEdges := [(0, 1); (1, 2); (0, 2)]%Z;
              boundaryEdges := [(0, 1); (1, 2); (0, 2)]%Z |} in
  computeAlphaData rightTriangle oneTriangle 3 = Some d /\
  forall e, In e (boundaryEdges d) <-> sideCount (triangles d) e = 1%nat.
Proof.
  cbv zeta. split; [reflexivity|].
  exact (proj2 (proj2 (proj2
    (computeAlphaData_edges rightTriangle oneTriangle 3 _ eq_refl)))).
Defined.

(** ** The relative-neighbourhood filter and the errors of both filters *)

Lemma SFsqrt_notNegative r : notNegative (SFsqrt prec emax r).
Proof.
  destruct r as [s|[|]| |[|] m e]; cbn [SFsqrt notNegative]; try exact I.
  destruct (SFsqrt_core_binary prec emax (Z.pos m) e) as [[mz ez] lz].
  pose proof (RoundDown.binary_round_aux_signed false mz ez lz) as S.
  destruct (binary_round_aux prec emax false mz ez lz) as [s'|s'| |s' m' e'];
    cbn in *; subst; exact I.
Qed.

Lemma SFmul_notNegative r1 r2 :
  notNegative r1 -> notNegative r2 -> notNegative (SFmul prec emax r1 r2).
Proof.
  destruct r1 as [s1|[|]| |[|] m1 e1], r2 as [s2|[|]| |[|] m2 e2];
    cbn [notNegative]; intros N1 N2; try contradiction; try exact I;
    try (destruct s1; exact I); try (destruct s2; exact I).
  unfold SFmul. cbn [xorb].
  pose proof (RoundDown.binary_round_aux_signed false (Z.pos (m1 * m2)) (e1 + e2) loc_Exact)
    as S.
  destruct (binary_round_aux prec emax false (Z.pos (m1 * m2)) (e1 + e2) loc_Exact)
    as [s'|s'| |s' m' e']; cbn in *; subst; exact I.
Qed.

Lemma SFabs_notNegative r : notNegative (SFabs r).
Proof. destruct r as [s|s| |s m e]; exact I. Qed.

(** [Math.hypot] never returns a number below zero. *)
Lemma Math_hypot_notNegative (a b : float) : notNegative (Prim2SF (JS.Math_hypot a b)).
Proof.
  unfold JS.Math_hypot.
  destruct ((abs a =? infinity)%float || (abs b =? infinity)%float); [exact I|].
  destruct (is_nan a || is_nan b); [exact I|].
  set (max := if (abs a <? abs b)%float then abs b else abs a).
  destruct (max =? 0)%float; [exact I|].
  rewrite mul_spec, sqrt_spec. apply SFmul_notNegative; [apply SFsqrt_notNegative|].
  unfold max. destruct (abs a <? abs b)%float; rewrite abs_spec; apply SFabs_notNegative.
Qed.

Lemma rngCloser_strict a b pk :
  rngCloser a b pk = true ->
  (distance a pk <? distance a b)%float = true /\
  (distance b pk <? distance a b)%float = true.
Proof.
  unfold rngCloser. intros I.
  pose proof (sub_EPSILON_not_above _ (Math_hypot_notNegative (x a - x b) (y a - y b))) as B.
  fold (distance a b) in B.
  destruct (FloatOrder.ltb_not_nan _ _ I) as [Nm Ns].
  assert (Nr : is_nan (distance a b) = false).
  { apply FloatOrder.is_nan_spec. intros Q.
    apply FloatOrder.is_nan_spec in Ns. apply Ns.
    rewrite sub_spec, Q. reflexivity. }
  pose proof (FloatOrder.not_ltb_leb _ _ Nr Ns B) as L.
  pose proof (FloatOrder.ltb_leb_trans _ _ _ I L) as M.
  assert (Na : is_nan (distance a pk) = false).
  { destruct (is_nan (distance a pk)) eqn:Q; [|reflexivity].
    rewrite (Math_max_nan (distance a pk) (distance b pk)) in Nm by now left. discriminate. }
  assert (Nb : is_nan (distance b pk) = false).
  { destruct (is_nan (distance b pk)) eqn:Q; [|reflexivity].
    rewrite (Math_max_nan (distance a pk) (distance b pk)) in Nm by now right. discriminate. }
  destruct (Math_max_spec _ _ Na Nb) as [X1 [X2 _]].
  split; eapply FloatOrder.leb_ltb_trans; eassumption.
Qed.

Lemma rngCloser_boundary a b pk :
  (JS.Math_max (distance a pk) (distance b pk) =? distance a b)%float = true ->
  rngCloser a b pk = false.
Proof.
  intros E. unfold rngCloser.
  pose proof (sub_EPSILON_not_above _ (Math_hypot_notNegative (x a - x b) (y a - y b))) as B.
  fold (distance a b) in B.
  rewrite FloatAxioms.eqb_spec in E. rewrite FloatAxioms.ltb_spec in *.
  eapply SF_eqb_ltb_false; eassumption.
Qed.

(** With candidate edges that address the points,
    [computeRelativeNeighborhoodEdges] keeps a candidate exactly when no
    third point is nearer to both of its ends than they are to each other, by
    more than [EPSILON]: the test is [max(ak, bk) < ab - EPSILON].  A third
    point that removes an edge is strictly nearer to both ends than [ab], and
    one whose larger distance equals [ab] never removes it. *)
Theorem computeRelativeNeighborhoodEdges_lune points candidateEdges :
  edgesInRange points candidateEdges ->
  exists result,
    computeRelativeNeighborhoodEdges points candidateEdges = Some result /\
    (forall aIndex bIndex,
        In (aIndex, bIndex) result <->
        In (aIndex, bIndex) candidateEdges /\
        exists a b,
          get points aIndex = Some a /\ get points bIndex = Some b /\
          forall k pk,
            nth_error points k = Some pk ->
            Z.of_nat k <> aIndex -> Z.of_nat k <> bIndex ->
            (JS.Math_max (distance a pk) (distance b pk)
               <? distance a b - EPSILON)%float = false) /\
    (forall a b pk,
        (JS.Math_max (distance a pk) (distance b pk) <? distance a b - EPSILON)%float = true ->
        (distance a pk <? distance a b)%float = true /\
        (distance b pk <? distance a b)%float = true) /\
    (forall a b pk,
        (JS.Math_max (distance a pk) (distance b pk) =? distance a b)%float = true ->
        (JS.Math_max (distance a pk) (distance b pk) <? distance a b - EPSILON)%float = false).
Proof.
  intros R.
  destruct (computeRelativeNeighborhoodEdges_from_spec points candidateEdges R [])
    as [g [E [_ C]]].
  exists g. split; [exact E|]. split; [|split].
  - intros aIndex bIndex. rewrite C. unfold rngKeeps, noThirdPoint. cbn [fst snd].
    split; intros [I [a [b [Ha [Hb N]]]]]; (split; [exact I|]); exists a, b;
      (split; [exact Ha|]); (split; [exact Hb|]).
    + intros k pk Hk Na Nb. apply (N k pk); auto.
      apply in_seq. split; [lia|]. cbn. apply nth_error_Some. congruence.
    + intros k pk _ Na Nb Hk. now apply (N k pk).
  - exact rngCloser_strict.
  - exact rngCloser_boundary.
Qed.

Lemma computeRelativeNeighborhoodEdges_lune_witness :
  edgesInRange nearEndpoint [(0, 1); (1, 2); (0, 2)]%Z /\
  exists result,
    computeRelativeNeighborhoodEdges nearEndpoint [(0, 1); (1, 2); (0, 2)]%Z = Some result.
Proof.
  assert (R : edgesInRange nearEndpoint [(0, 1); (1, 2); (0, 2)]%Z).
  { repeat constructor; cbn; lia. }
  split; [exact R|].
  destruct (computeRelativeNeighborhoodEdges_lune _ _ R) as [result [E _]].
  exists result. exact E.
Defined.

Lemma computeGabrielEdges_from_throws points candidateEdges :
  ~ edgesInRange points candidateEdges ->
  forall result, computeGabrielEdges_from points candidateEdges result = None.
Proof.
  induction candidateEdges as [|[aIndex bIndex] rest IH]; intros R result.
  - exfalso. apply R. constructor.
  - cbn [computeGabrielEdges_from].
    destruct (get points aIndex) as [a|] eqn:Ga; [|reflexivity].
    destruct (get points bIndex) as [b|] eqn:Gb; [|reflexivity].
    destruct (gabrielLoop_spec points aIndex bIndex a b (seq 0 (length points)))
      as [isGabriel [-> _]].
    { intros k I. apply in_seq in I. lia. }
    apply IH. intros R'. apply R. constructor; [|exact R'].
    apply get_Some in Ga, Gb. cbn [fst snd]. tauto.
Qed.

Lemma computeRelativeNeighborhoodEdges_from_throws points candidateEdges :
  ~ edgesInRange points candidateEdges ->
  forall result, computeRelativeNeighborhoodEdges_from points candidateEdges result = None.
Proof.
  induction candidateEdges as [|[aIndex bIndex] rest IH]; intros R result.
  - exfalso. apply R. constructor.
  - cbn [computeRelativeNeighborhoodEdges_from].
    destruct (get points aIndex) as [a|] eqn:Ga; [|reflexivity].
    destruct (get points bIndex) as [b|] eqn:Gb; [|reflexivity].
    destruct (rngLoop_spec points aIndex bIndex a b (seq 0 (length points)))
      as [isRelativeNeighbor [-> _]].
    { intros k I. apply in_seq in I. lia. }
    apply IH. intros R'. apply R. constructor; [|exact R'].
    apply get_Some in Ga, Gb. cbn [fst snd]. tauto.
Qed.

(** Both filters throw exactly when some candidate edge names an index
    that is not an index of the point array; otherwise they return. *)
Theorem filters_throw_out_of_range points candidateEdges :
  (computeGabrielEdges points candidateEdges = None <->
   ~ edgesInRange points candidateEdges) /\
  (computeRelativeNeighborhoodEdges points candidateEdges = None <->
   ~ edgesInRange points candidateEdges).
Proof.
  unfold computeGabrielEdges, computeRelativeNeighborhoodEdges. split; split.
  - intros E R.
    destruct (computeGabrielEdges_from_spec points candidateEdges R []) as [g [E' _]].
    congruence.
  - intros R. now apply computeGabrielEdges_from_throws.
  - intros E R.
    destruct (computeRelativeNeighborhoodEdges_from_spec points candidateEdges R [])
      as [g [E' _]].
    congruence.
  - intros R. now apply computeRelativeNeighborhoodEdges_from_throws.
Qed.

(** ** Nearest-neighbour edges for any coordinates *)

Lemma ltb_irrefl (d : float) : (d <? d)%float = false.
Proof.
  destruct (d <? d)%float eqn:L; [|reflexivity].
  pose proof (FloatOrder.ltb_not_leb _ _ L) as N.
  pose proof (FloatOrder.ltb_leb _ _ L) as P. congruence.
Qed.

Lemma not_leb_not_ltb (a d : float) : (a <=? d)%float = false -> (a <? d)%float = false.
Proof.
  intros N. destruct (a <? d)%float eqn:L; [|reflexivity].
  apply FloatOrder.ltb_leb in L. congruence.
Qed.

Lemma nearestFound_unique points i j j' :
  nearestFound points i j -> nearestFound points i j' -> j = j'.
Proof.
  intros [Nj [pi [pj [Hi [Hj [Fj C]]]]]] [Nj' [pi' [pj' [Hi' [Hj' [Fj' C']]]]]].
  assert (pi' = pi) by congruence. subst pi'.
  destruct (FloatOrder.ltb_not_nan _ _ Fj) as [Nn _].
  destruct (FloatOrder.ltb_not_nan _ _ Fj') as [Nn' _].
  destruct (Nat.lt_trichotomy j j') as [L|[E|L]]; [|exact E|].
  - destruct (C' j pj Nj Hj) as [_ S]. specialize (S L).
    destruct (C j' pj' Nj' Hj') as [Lt _].
    pose proof (FloatOrder.not_ltb_leb _ _ Nn' Nn Lt). congruence.
  - destruct (C j' pj' Nj' Hj') as [_ S]. specialize (S L).
    destruct (C' j pj Nj Hj) as [Lt _].
    pose proof (FloatOrder.not_ltb_leb _ _ Nn Nn' Lt). congruence.
Qed.

Lemma nearestScan_found points i :
  (i < length points)%nat ->
  exists idx d,
    nearestScan points i = Some (idx, d) /\
    ((idx = (-1)%Z /\ forall j, ~ nearestFound points i j) \/
     (exists j, idx = Z.of_nat j /\ nearestFound points i j)).
Proof.
  intros Li.
  destruct (nth_error points i) as [pi|] eqn:Hi.
  2:{ apply nth_error_None in Hi. lia. }
  pose (P := fun (m : nat) (acc : option (Z * float)) =>
               (acc = Some ((-1)%Z, JS.POSITIVE_INFINITY) /\
                forall k pk, (k < m)%nat -> k <> i -> nth_error points k = Some pk ->
                  (distanceSquared pi pk <? JS.POSITIVE_INFINITY)%float = false) \/
               (exists j pj,
                   acc = Some (Z.of_nat j, distanceSquared pi pj) /\
                   (j < m)%nat /\ j <> i /\ nth_error points j = Some pj /\
                   (distanceSquared pi pj <? JS.POSITIVE_INFINITY)%float = true /\
                   forall k pk, (k < m)%nat -> k <> i -> nth_error points k = Some pk ->
                     (distanceSquared pi pk <? distanceSquared pi pj)%float = false /\
                     ((k < j)%nat ->
                      (distanceSquared pi pk <=? distanceSquared pi pj)%float = false))).
  assert (H : P (length points) (nearestScan points i)).
  { unfold nearestScan. apply fold_left_seq_invariant.
    - left. split; [reflexivity | intros k pk Lk; lia].
    - intros m acc Lm Hacc.
      destruct (nth_error points m) as [pm|] eqn:Hm.
      2:{ apply nth_error_None in Hm. lia. }
      destruct Hacc as [[-> A]|[j [pj [-> [Lj [Nj [Hj [Fj C]]]]]]]]; unfold nearestStep.
      + destruct (Nat.eqb_spec i m) as [<-|Nim].
        * left. split; [reflexivity|]. intros k pk Lk Nk. apply A; lia.
        * rewrite Hi, Hm.
          destruct (distanceSquared pi pm <? JS.POSITIVE_INFINITY)%float eqn:Fm.
          -- right. exists m, pm.
             split; [reflexivity|]. split; [lia|]. split; [congruence|].
             split; [exact Hm|]. split; [exact Fm|]. intros k pk Lk Nk Hk.
             destruct (Nat.eq_dec k m) as [->|Nkm].
             ++ assert (pk = pm) by congruence. subst pk.
                split; [apply ltb_irrefl | lia].
             ++ assert (Fk : (distanceSquared pi pk <? JS.POSITIVE_INFINITY)%float = false)
                  by (apply (A k); [lia | exact Nk | exact Hk]).
                assert (Le : (distanceSquared pi pk <=? distanceSquared pi pm)%float = false).
                { destruct (distanceSquared pi pk <=? distanceSquared pi pm)%float eqn:Le;
                    [|reflexivity].
                  pose proof (FloatOrder.leb_ltb_trans _ _ _ Le Fm). congruence. }
                split; [now apply not_leb_not_ltb | intros _; exact Le].
          -- left. split; [reflexivity|]. intros k pk Lk Nk Hk.
             destruct (Nat.eq_dec k m) as [->|Nkm].
             ++ assert (pk = pm) by congruence. subst pk. exact Fm.
             ++ apply (A k); [lia | exact Nk | exact Hk].
      + destruct (Nat.eqb_spec i m) as [<-|Nim].
        * right. exists j, pj. split; [reflexivity|]. split; [lia|].
          split; [exact Nj|]. split; [exact Hj|]. split; [exact Fj|].
          intros k pk Lk Nk Hk. apply C; try assumption. lia.
        * rewrite Hi, Hm.
          destruct (distanceSquared pi pm <? distanceSquared pi pj)%float eqn:Lt.
          -- right. exists m, pm. split; [reflexivity|]. split; [lia|].
             split; [congruence|]. split; [exact Hm|].
             split.
             { eapply FloatOrder.ltb_leb_trans; [exact Lt|].
               now apply FloatOrder.ltb_leb. }
             intros k pk Lk Nk Hk.
             destruct (Nat.eq_dec k m) as [->|Nkm].
             ++ assert (pk = pm) by congruence. subst pk.
                split; [apply ltb_irrefl | lia].
             ++ destruct (C k pk ltac:(lia) Nk Hk) as [NLt _].
                assert (Le : (distanceSquared pi pk <=? distanceSquared pi pm)%float = false).
                { destruct (distanceSquared pi pk <=? distanceSquared pi pm)%float eqn:Le;
                    [|reflexivity].
                  pose proof (FloatOrder.leb_ltb_trans _ _ _ Le Lt). congruence. }
                split; [now apply not_leb_not_ltb | intros _; exact Le].
          -- right. exists j, pj. split; [reflexivity|]. split; [lia|].
             split; [exact Nj|]. split; [exact Hj|]. split; [exact Fj|].
             intros k pk Lk Nk Hk.
             destruct (Nat.eq_dec k m) as [->|Nkm].
             ++ assert (pk = pm) by congruence. subst pk.
                split; [exact Lt | lia].
             ++ apply C; try assumption. lia. }
  destruct H as [[E A]|[j [pj [E [Lj [Nj [Hj [Fj C]]]]]]]].
  - exists (-1)%Z, JS.POSITIVE_INFINITY. split; [exact E|]. left.
    split; [reflexivity|].
    intros j [Nj [pi' [pj [Hi' [Hj [Fj _]]]]]].
    assert (pi' = pi) by congruence. subst pi'.
    rewrite (A j pj) in Fj; [discriminate | | exact Nj | exact Hj].
    apply nth_error_Some. congruence.
  - exists (Z.of_nat j), (distanceSquared pi pj). split; [exact E|]. right.
    exists j. split; [reflexivity|].
    split; [exact Nj|]. exists pi, pj. split; [exact Hi|]. split; [exact Hj|].
    split; [exact Fj|].
    intros k pk Nk Hk. apply C; try assumption.
    apply nth_error_Some. congruence.
Qed.

Lemma nearestEdges_found points :
  exists edges,
    fold_left (nearestEdgesStep points) (seq 0 (length points)) (Some []) = Some edges /\
    NoDup edges /\ (length edges <= length points)%nat /\
    forall e, In e edges <->
              exists i j, nearestFound points i j /\ e = edgeKey (Z.of_nat i) (Z.of_nat j).
Proof.
  pose (P := fun (m : nat) (acc : option (list EdgeKey)) =>
               exists edges,
                 acc = Some edges /\ NoDup edges /\ (length edges <= m)%nat /\
                 forall e, In e edges <->
                           exists i j, (i < m)%nat /\ nearestFound points i j /\
                                       e = edgeKey (Z.of_nat i) (Z.of_nat j)).
  assert (H : P (length points)
                (fold_left (nearestEdgesStep points) (seq 0 (length points)) (Some []))).
  { apply fold_left_seq_invariant.
    - exists []. split; [reflexivity|]. split; [constructor|]. split; [cbn; lia|].
      intros e. split; [intros [] | intros [i [j [L _]]]; lia].
    - intros m acc Lm [edges [-> [ND [Len C]]]]. unfold nearestEdgesStep.
      destruct (nearestScan_found points m Lm) as [idx [d [Es [[-> None']|[j [-> NF]]]]]];
        rewrite Es.
      + cbn. exists edges. split; [reflexivity|]. split; [exact ND|]. split; [lia|].
        intros e. rewrite C. split.
        * intros [i [j [Li R]]]. exists i, j. split; [lia | exact R].
        * intros [i [j [Li [NF E]]]]. exists i, j. split; [|split; assumption].
          destruct (Nat.eq_dec i m) as [->|Ni]; [|lia].
          exfalso. exact (None' j NF).
      + destruct (Z.leb_spec 0 (Z.of_nat j)) as [_|Bad]; [|lia].
        set (key := edgeKey (Z.of_nat m) (Z.of_nat j)).
        assert (Step : forall e,
                   In e edges \/ e = key <->
                   exists i j', (i < S m)%nat /\ nearestFound points i j' /\
                                e = edgeKey (Z.of_nat i) (Z.of_nat j')).
        { intros e. rewrite C. split.
          - intros [[i [j' [Li [NF' ->]]]]| ->].
            + exists i, j'. split; [lia|]. split; [exact NF' | reflexivity].
            + exists m, j. split; [lia|]. split; [exact NF | reflexivity].
          - intros [i [j' [Li [NF' ->]]]].
            destruct (Nat.eq_dec i m) as [->|Ni].
            + right. now rewrite (nearestFound_unique _ _ _ _ NF' NF).
            + left. exists i, j'. split; [lia|]. split; [exact NF' | reflexivity]. }
        unfold Set_add. destruct (Set_has edges key) eqn:Has.
        * exists edges. split; [reflexivity|]. split; [exact ND|]. split; [lia|].
          intros e. rewrite <- Step. apply Set_has_In in Has. split; [tauto|].
          intros [I | ->]; assumption.
        * exists (edges ++ [key]). split; [reflexivity|]. split; [|split].
          -- apply NoDup_app; [exact ND | repeat constructor; intros [] | ].
             intros e I [<-|[]]. apply Set_has_In in I. congruence.
          -- rewrite length_app. cbn. lia.
          -- intros e. rewrite <- Step, in_app_iff. cbn. intuition congruence. }
  destruct H as [edges [E [ND [Len C]]]]. exists edges. split; [exact E|].
  split; [exact ND|]. split; [exact Len|]. intros e. rewrite C. split.
  - intros [i [j [_ [NF ->]]]]. eauto.
  - intros [i [j [NF ->]]]. exists i, j. split; [|split; [exact NF | reflexivity]].
    destruct NF as [_ [pi [_ [Hi _]]]]. apply nth_error_Some. congruence.
Qed.

(** For any points, finite or not, [computeNearestNeighborEdges] returns
    without throwing.  Its edges are distinct, at most one per point, each
    written smaller index first between two different points of the array;
    and there is an edge between [i] and [j] exactly when the scan from one of
    them ends on the other: the first point at the least squared distance,
    which must be below infinity. *)
Theorem computeNearestNeighborEdges_any points :
  exists edges,
    computeNearestNeighborEdges points = Some edges /\
    NoDup edges /\ (length edges <= length points)%nat /\
    (forall e, In e edges <->
               exists i j, nearestFound points i j /\
                           e = edgeKey (Z.of_nat i) (Z.of_nat j)) /\
    (forall a b, In (a, b) edges -> (0 <= a < b)%Z /\ (b < Z.of_nat (length points))%Z).
Proof.
  assert (Canon : forall edges,
             (forall e, In e edges <->
                        exists i j, nearestFound points i j /\
                                    e = edgeKey (Z.of_nat i) (Z.of_nat j)) ->
             forall a b, In (a, b) edges ->
                         (0 <= a < b)%Z /\ (b < Z.of_nat (length points))%Z).
  { intros edges C a b I. apply C in I.
    destruct I as [i [j [[Nj [pi [pj [Hi [Hj _]]]]] E]]].
    assert (i < length points)%nat by (apply nth_error_Some; congruence).
    assert (j < length points)%nat by (apply nth_error_Some; congruence).
    unfold edgeKey in E. destruct (Z.ltb_spec (Z.of_nat i) (Z.of_nat j));
      injection E as -> ->; lia. }
  unfold computeNearestNeighborEdges.
  destruct (Nat.ltb_spec (length points) 2) as [Small|Large].
  - assert (C : forall e : EdgeIndex, In e [] <->
                  exists i j, nearestFound points i j /\
                              e = edgeKey (Z.of_nat i) (Z.of_nat j)).
    { intros e. split; [intros []|].
      intros [i [j [[Nj [pi [pj [Hi [Hj _]]]]] _]]].
      assert (i < length points)%nat by (apply nth_error_Some; congruence).
      assert (j < length points)%nat by (apply nth_error_Some; congruence).
      lia. }
    exists []. split; [reflexivity|]. split; [constructor|]. split; [cbn; lia|].
    split; [exact C | exact (Canon [] C)].
  - destruct (nearestEdges_found points) as [edges [E [ND [Len C]]]].
    rewrite E, map_decodeEdgeKey. exists edges.
    split; [reflexivity|]. split; [exact ND|]. split; [exact Len|].
    split; [exact C | exact (Canon edges C)].
Qed.

(** ** Prim's loop for any coordinates *)

Lemma primSelect_any count visited distances :
  fst (primSelect count visited distances) = (-1)%Z \/
  exists best,
    fst (primSelect count visited distances) = Z.of_nat best /\
    (best < count)%nat /\ nth best visited false = false /\
    (nth best distances nan <? JS.POSITIVE_INFINITY)%float = true.
Proof.
  pose (P := fun (done' : list nat) (acc : Z * float) =>
               acc = ((-1)%Z, JS.POSITIVE_INFINITY) \/
               exists best, acc = (Z.of_nat best, nth best distances nan) /\
                            In best done' /\ nth best visited false = false /\
                            (nth best distances nan <? JS.POSITIVE_INFINITY)%float = true).
  assert (H : P (seq 0 count) (primSelect count visited distances)).
  { unfold primSelect. apply fold_left_invariant.
    - now left.
    - intros done' j acc Hj Hacc. unfold primSelectStep.
      assert (Same : P (done' ++ [j]) acc).
      { destruct Hacc as [E|[best [E [I R]]]]; [now left|].
        right. exists best. split; [exact E|]. split; [|exact R].
        apply in_or_app. now left. }
      destruct (nth j visited false) eqn:Vj; [exact Same|].
      destruct (nth j distances nan <? snd acc)%float eqn:Lt; [|exact Same].
      right. exists j. split; [reflexivity|]. split; [apply in_or_app; right; now left|].
      split; [exact Vj|].
      destruct Hacc as [->|[best [-> [_ [_ F]]]]]; cbn [snd] in Lt; [exact Lt|].
      eapply FloatOrder.ltb_leb_trans; [exact Lt | now apply FloatOrder.ltb_leb]. }
  destruct H as [->|[best [-> [I R]]]]; [now left|].
  right. exists best. split; [reflexivity|]. apply in_seq in I. split; [lia | exact R].
Qed.

Lemma primInvariant_tree points visited distances parent edges :
  primInvariant points visited distances parent edges ->
  (forall e, In e edges -> (fst e < snd e)%Z) ->
  treeFromFirst (length points) edges.
Proof.
  intros [Lv [Ld [Lp [V0 [Par [Ends [Conn [Acy Len]]]]]]]] Ord.
  pose proof (countVisited_le visited) as Le.
  split; [lia|]. split; [exact Acy|].
  intros e I. destruct (Ends e I) as [u [v [-> [Lu [Lw [Vu Vw]]]]]].
  specialize (Ord _ I). cbn [fst snd] in *.
  split; [lia|]. split; [lia|]. split; apply Conn; assumption.
Qed.

Lemma primLoop_tree points :
  forall iterations visited distances parent edges,
    primInvariant points visited distances parent edges ->
    (forall e, In e edges -> (fst e < snd e)%Z) ->
    edgesOfFiniteLength points edges ->
    exists result,
      primLoop points (length points) iterations visited distances parent edges
        = Some result /\
      treeFromFirst (length points) result /\ edgesOfFiniteLength points result.
Proof.
  induction iterations as [|k IH]; intros visited distances parent edges Inv Ord Fin.
  - exists edges. split; [reflexivity|]. split; [|exact Fin].
    eapply primInvariant_tree; eassumption.
  - cbn [primLoop]. cbv zeta.
    destruct (primSelect_any (length points) visited distances)
      as [Eb|[best [Eb [Lb [Ub Fb]]]]]; rewrite Eb.
    { cbn. exists edges. split; [reflexivity|]. split; [|exact Fin].
      eapply primInvariant_tree; eassumption. }
    destruct Inv as [Lv [Ld [Lp [V0 [Par [Ends [Conn [Acy Len]]]]]]]].
    destruct (Par best Lb Ub) as [p [pp [pb [Epar [Lpp [Vp [Hpp [Hpb Edist]]]]]]]].
    assert (Nbp : best <> p) by congruence.
    destruct (Z.eqb_spec (Z.of_nat best) (-1)%Z) as [Bad|_]; [lia|].
    rewrite Nat2Z.id, Epar.
    destruct (Z.leb_spec 0 (Z.of_nat p)) as [_|Bad]; [|lia].
    destruct (primRelax_spec points (update visited best true) best pb distances parent
                Hpb Ld Lp) as [ds [ps [Er [Lds [Lps Rel]]]]].
    rewrite Er.
    set (e := (Z.min (Z.of_nat best) (Z.of_nat p), Z.max (Z.of_nat best) (Z.of_nat p))).
    assert (He : e = (Z.of_nat best, Z.of_nat p) \/ e = (Z.of_nat p, Z.of_nat best)).
    { unfold e. destruct (Z.le_ge_cases (Z.of_nat best) (Z.of_nat p)).
      - left. rewrite Z.min_l, Z.max_r by lia. reflexivity.
      - right. rewrite Z.min_r, Z.max_l by lia. reflexivity. }
    assert (Fresh : forall e', In e' edges ->
                               fst e' <> Z.of_nat best /\ snd e' <> Z.of_nat best).
    { intros e' I. destruct (Ends e' I) as [u [w [-> [_ [_ [Vu Vw]]]]]]. cbn.
      split; intros Q; apply Nat2Z.inj in Q; subst; congruence. }
    assert (Keep : forall i, nth i visited false = true ->
                             nth i (update visited best true) false = true).
    { intros i Vi. rewrite nth_update_neq; [exact Vi | congruence]. }
    assert (New : nth best (update visited best true) false = true)
      by (apply nth_update_eq; lia).
    apply IH.
    + unfold primInvariant. rewrite update_length.
      split; [exact Lv|]. split; [lia|]. split; [lia|].
      split; [now apply Keep|].
      split; [|split; [|split; [|split]]].
      * intros j Lj Uj.
        assert (Nj : best <> j) by (intros ->; congruence).
        rewrite nth_update_neq in Uj by exact Nj.
        destruct (Rel j) as [[Ed Ep]|[_ [Ep [pj [Hpj Ed]]]]].
        -- destruct (Par j Lj Uj) as [q [pq [pj [Eq [Lq [Vq [Hq [Hpj Edj]]]]]]]].
           exists q, pq, pj. rewrite Ep, Ed. repeat split; auto.
        -- exists best, pb, pj. repeat split; auto.
      * intros e' I. apply in_app_or in I. destruct I as [I|[<-|[]]].
        -- destruct (Ends e' I) as [u [w [-> [Lu [Lw [Vu Vw]]]]]].
           exists u, w. repeat split; auto.
        -- destruct He as [-> | ->]; [exists best, p | exists p, best];
             repeat split; auto.
      * intros i Li Vi. destruct (Nat.eq_dec best i) as [<-|Ni].
        -- apply connected_trans with (v := Z.of_nat p).
           ++ apply connected_incl with (edges := edges); [apply incl_appl, incl_refl|].
              now apply Conn.
           ++ apply connected_edge.
              destruct He as [Q | Q]; [right | left]; apply in_or_app; right; left;
                exact Q.
        -- rewrite nth_update_neq in Vi by exact Ni.
           apply connected_incl with (edges := edges); [apply incl_appl, incl_refl|].
           now apply Conn.
      * apply acyclic_pendant with (v := Z.of_nat best) (p := Z.of_nat p); auto.
        intros Q. apply Nat2Z.inj in Q. congruence.
      * rewrite length_app, countVisited_update by (try lia; assumption). cbn. lia.
    + intros e' I. apply in_app_or in I. destruct I as [I|[<-|[]]]; [now apply Ord|].
      unfold e. cbn [fst snd]. lia.
    + intros e' I. apply in_app_or in I. destruct I as [I|[<-|[]]]; [now apply Fin|].
      rewrite Edist in Fb.
      destruct He as [-> | ->]; cbn [fst snd]; rewrite !get_of_nat.
      * exists pb, pp. split; [exact Hpb|]. split; [exact Hpp|].
        now rewrite distance_sym.
      * exists pp, pb. split; [exact Hpp|]. split; [exact Hpb|]. exact Fb.
Qed.

(** For any points, finite or not, [computeMinimumSpanningTreeEdges]
    returns without throwing, and what it returns is a tree that contains
    point 0: at most [n - 1] edges, no cycle, every edge written smaller index
    first, joined to point 0, and between two points at a distance below
    infinity. *)
Theorem computeMinimumSpanningTreeEdges_any points :
  exists result,
    computeMinimumSpanningTreeEdges points = Some result /\
    treeFromFirst (length points) result /\
    edgesOfFiniteLength points result.
Proof.
  unfold computeMinimumSpanningTreeEdges.
  destruct (Nat.ltb_spec (length points) 2) as [Small|Large].
  { exists []. split; [reflexivity|]. split; [|intros e []].
    split; [cbn; lia|]. split; [apply acyclic_nil | intros e []]. }
  destruct (nth_error points 0) as [p0|] eqn:H0.
  2:{ apply nth_error_None in H0. lia. }
  destruct (primInit_spec points p0 H0) as [ds [ps [Ei [Ld [Lp C]]]]].
  rewrite Ei.
  apply primLoop_tree; [|intros e []|intros e []].
  unfold primInvariant. rewrite update_length, repeat_length.
  split; [reflexivity|]. split; [exact Ld|]. split; [exact Lp|].
  assert (V0 : nth 0 (update (repeat false (length points)) 0 true) false = true).
  { apply nth_update_eq. rewrite repeat_length. lia. }
  assert (Only : forall i, nth i (update (repeat false (length points)) 0 true) false
                           = true -> i = O).
  { intros i Vi. destruct i; [reflexivity|].
    rewrite nth_update_neq, nth_repeat_false in Vi by lia. discriminate. }
  split; [exact V0|]. split; [|split; [|split; [|split]]].
  - intros j Lj Uj.
    assert (Nj : j <> O) by (intros ->; congruence).
    destruct (C j ltac:(lia)) as [Ep [pj [Hpj Ed]]].
    exists O, p0, pj. repeat split; auto. lia.
  - intros e [].
  - intros i _ Vi. rewrite (Only i Vi). apply connected_refl.
  - apply acyclic_nil.
  - rewrite countVisited_update.
    + now rewrite countVisited_repeat_false.
    + rewrite repeat_length. lia.
    + apply nth_repeat_false.
Qed.

(** ** The brute-force diagram *)

Lemma closestSeed_scan points pixel :
  exists d,
    fold_left (closestSeedStep points (Number_of_nat (fst pixel))
                 (Number_of_nat (snd pixel)))
              (seq 0 (length points)) (Some (O, MAX_VALUE))
    = Some (closestSeed points pixel, d) /\
    firstClosest points pixel (closestSeed points pixel).
Proof.
  unfold closestSeed.
  set (step := closestSeedStep points (Number_of_nat (fst pixel))
                 (Number_of_nat (snd pixel))).
  pose (P := fun (m : nat) (acc : option (nat * float)) =>
               (acc = Some (O, MAX_VALUE) /\
                forall k pk, (k < m)%nat -> nth_error points k = Some pk ->
                  (pixelDistanceSquared pixel pk <? MAX_VALUE)%float = false) \/
               (exists i pi,
                   acc = Some (i, pixelDistanceSquared pixel pi) /\
                   (i < m)%nat /\ nth_error points i = Some pi /\
                   (pixelDistanceSquared pixel pi <? MAX_VALUE)%float = true /\
                   forall k pk, (k < m)%nat -> nth_error points k = Some pk ->
                     (pixelDistanceSquared pixel pk
                        <? pixelDistanceSquared pixel pi)%float = false /\
                     ((k < i)%nat ->
                      (pixelDistanceSquared pixel pk
                         <=? pixelDistanceSquared pixel pi)%float = false))).
  assert (H : P (length points) (fold_left step (seq 0 (length points)) (Some (O, MAX_VALUE)))).
  { apply fold_left_seq_invariant.
    - left. split; [reflexivity | intros k pk Lk; lia].
    - intros m acc Lm Hacc.
      destruct (nth_error points m) as [pm|] eqn:Hm.
      2:{ apply nth_error_None in Hm. lia. }
      unfold step, closestSeedStep.
      destruct Hacc as [[-> A]|[i [pi [-> [Li [Hi [Fi C]]]]]]]; rewrite Hm;
        fold (pixelDistanceSquared pixel pm).
      + destruct (pixelDistanceSquared pixel pm <? MAX_VALUE)%float eqn:Fm.
        * right. exists m, pm. split; [reflexivity|]. split; [lia|]. split; [exact Hm|].
          split; [exact Fm|]. intros k pk Lk Hk.
          destruct (Nat.eq_dec k m) as [->|Nkm].
          -- assert (pk = pm) by congruence. subst pk. split; [apply ltb_irrefl | lia].
          -- assert (Fk : (pixelDistanceSquared pixel pk <? MAX_VALUE)%float = false)
               by (apply (A k); [lia | exact Hk]).
             assert (Le : (pixelDistanceSquared pixel pk
                             <=? pixelDistanceSquared pixel pm)%float = false).
             { destruct (pixelDistanceSquared pixel pk
                           <=? pixelDistanceSquared pixel pm)%float eqn:Le; [|reflexivity].
               pose proof (FloatOrder.leb_ltb_trans _ _ _ Le Fm). congruence. }
             split; [now apply not_leb_not_ltb | intros _; exact Le].
        * left. split; [reflexivity|]. intros k pk Lk Hk.
          destruct (Nat.eq_dec k m) as [->|Nkm].
          -- assert (pk = pm) by congruence. subst pk. exact Fm.
          -- apply (A k); [lia | exact Hk].
      + destruct (pixelDistanceSquared pixel pm <? pixelDistanceSquared pixel pi)%float
          eqn:Lt.
        * right. exists m, pm. split; [reflexivity|]. split; [lia|]. split; [exact Hm|].
          split.
          { eapply FloatOrder.ltb_leb_trans; [exact Lt|]. now apply FloatOrder.ltb_leb. }
          intros k pk Lk Hk.
          destruct (Nat.eq_dec k m) as [->|Nkm].
          -- assert (pk = pm) by congruence. subst pk. split; [apply ltb_irrefl | lia].
          -- destruct (C k pk ltac:(lia) Hk) as [NLt _].
             assert (Le : (pixelDistanceSquared pixel pk
                             <=? pixelDistanceSquared pixel pm)%float = false).
             { destruct (pixelDistanceSquared pixel pk
                           <=? pixelDistanceSquared pixel pm)%float eqn:Le; [|reflexivity].
               pose proof (FloatOrder.leb_ltb_trans _ _ _ Le Lt). congruence. }
             split; [now apply not_leb_not_ltb | intros _; exact Le].
        * right. exists i, pi. split; [reflexivity|]. split; [lia|]. split; [exact Hi|].
          split; [exact Fi|]. intros k pk Lk Hk.
          destruct (Nat.eq_dec k m) as [->|Nkm].
          -- assert (pk = pm) by congruence. subst pk. split; [exact Lt | lia].
          -- apply C; [lia | exact Hk]. }
  destruct H as [[E A]|[i [pi [E [_ [Hi [Fi C]]]]]]]; fold step; rewrite E.
  - exists MAX_VALUE. split; [reflexivity|]. left. split; [reflexivity|].
    intros k pk Hk. apply (A k); [|exact Hk]. apply nth_error_Some. congruence.
  - exists (pixelDistanceSquared pixel pi). split; [reflexivity|]. right.
    exists pi. split; [exact Hi|]. split; [exact Fi|].
    intros k pk Hk. apply C; [|exact Hk]. apply nth_error_Some. congruence.
Qed.

Lemma nth_error_update_eq {A : Type} (arr : list A) (i : nat) (v : A) :
  (i < length arr)%nat -> nth_error (update arr i v) i = Some v.
Proof.
  revert i. induction arr as [|h t IH]; intros [|i] L; cbn in *; try lia; auto.
  apply IH. lia.
Qed.

Lemma nth_error_update_neq {A : Type} (arr : list A) (i j : nat) (v : A) :
  i <> j -> nth_error (update arr i v) j = nth_error arr j.
Proof.
  revert i j. induction arr as [|h t IH]; intros [|i] [|j] N; cbn; auto; try lia.
Qed.

Lemma closestSeed_in_range points pixel :
  points <> [] -> (closestSeed points pixel < length points)%nat.
Proof.
  intros NE. destruct (closestSeed_scan points pixel) as [d [_ F]].
  destruct F as [[-> _]|[pc [Hc _]]].
  - destruct points; [congruence | cbn; lia].
  - apply nth_error_Some. congruence.
Qed.

Lemma computeVoronoiBruteForce_returns points width height :
  points <> [] ->
  exists cells,
    computeVoronoiBruteForce points width height = Some cells /\
    length cells = length points.
Proof.
  intros NE.
  pose (P := fun (_ : list (nat * nat)) (acc : option (list Polygon)) =>
               exists cells, acc = Some cells /\ length cells = length points).
  assert (H : P (pixels width height)
                (fold_left (bruteForcePixel points) (pixels width height)
                   (Some (map (fun _ => []) points)))).
  { apply fold_left_invariant.
    - exists (map (fun _ => []) points). split; [reflexivity | apply length_map].
    - intros done' pixel acc _ [cells [-> Len]]. unfold bruteForcePixel.
      destruct (closestSeed_scan points pixel) as [d [-> _]].
      pose proof (closestSeed_in_range points pixel NE) as Lc.
      destruct (nth_error cells (closestSeed points pixel)) as [cell|] eqn:Hc.
      + eexists. split; [reflexivity|]. now rewrite update_length.
      + apply nth_error_None in Hc. lia. }
  exact H.
Qed.

(** With at least one seed, [computeVoronoiBruteForce] returns one cell
    per seed, and cell [i] lists, in scan order, exactly the pixels whose
    closest seed is [i]: every pixel of the canvas lands in one cell.  The
    closest seed of a pixel is the first seed at the least squared distance;
    when no seed is nearer than [Number.MAX_VALUE] the pixel goes to seed
    0. *)
Theorem computeVoronoiBruteForce_cells points width height :
  points <> [] ->
  exists cells,
    computeVoronoiBruteForce points width height = Some cells /\
    length cells = length points /\
    (forall i, (i < length points)%nat ->
       nth_error cells i
       = Some (map pixelCoordinates
                 (filter (fun pixel => (closestSeed points pixel =? i)%nat)
                    (pixels width height)))) /\
    (forall pixel, firstClosest points pixel (closestSeed points pixel)).
Proof.
  intros NE.
  assert (Pos : (0 < length points)%nat) by (destruct points; [congruence | cbn; lia]).
  pose (P := fun (done' : list (nat * nat)) (acc : option (list Polygon)) =>
               exists cells,
                 acc = Some cells /\ length cells = length points /\
                 forall i, (i < length points)%nat ->
                   nth_error cells i
                   = Some (map pixelCoordinates
                             (filter (fun pixel => (closestSeed points pixel =? i)%nat)
                                done'))).
  assert (H : P (pixels width height)
                (fold_left (bruteForcePixel points) (pixels width height)
                   (Some (map (fun _ => []) points)))).
  { apply fold_left_invariant.
    - exists (map (fun _ => []) points). split; [reflexivity|].
      split; [apply length_map|]. intros i Li. rewrite nth_error_map.
      destruct (nth_error points i) eqn:E; [reflexivity|].
      apply nth_error_None in E. lia.
    - intros done' pixel acc _ [cells [-> [Len C]]]. unfold bruteForcePixel.
      destruct (closestSeed_scan points pixel) as [d [-> F]].
      set (c := closestSeed points pixel) in *.
      assert (Lc : (c < length points)%nat).
      { destruct F as [[-> _]|[pc [Hc _]]]; [exact Pos|].
        apply nth_error_Some. congruence. }
      rewrite (C c Lc).
      eexists. split; [reflexivity|]. rewrite update_length. split; [exact Len|].
      intros i Li. rewrite filter_app, map_app. cbn [filter]. fold c.
      destruct (Nat.eqb_spec c i) as [<-|Ni].
      + rewrite nth_error_update_eq by lia. reflexivity.
      + rewrite nth_error_update_neq by exact Ni. cbn [map]. rewrite app_nil_r.
        now apply C. }
  destruct H as [cells [E [Len C]]]. exists cells.
  split; [exact E|]. split; [exact Len|]. split; [exact C|].
  intros pixel. destruct (closestSeed_scan points pixel) as [d [_ F]]. exact F.
Qed.


Lemma computeVoronoiBruteForce_cells_witness :
  rightTriangle <> [] /\
  exists cells,
    computeVoronoiBruteForce rightTriangle 5 4 = Some cells /\
    length cells = 3%nat.
Proof.
  assert (NE : rightTriangle <> []) by discriminate.
  split; [exact NE|].
  destruct (computeVoronoiBruteForce_cells rightTriangle 5 4 NE) as [cells [E [L _]]].
  exists cells. split; [exact E | exact L].
Defined.

(** ** The guards of the orchestrator *)

(** [computeDerivedStructures] returns the empty bundle for an empty point
    array in every mode, without calling a builder.  In the brute-force mode
    with at least one point it never throws, and returns the brute-force
    cells with no edge and no triangle, whatever the triangulation library
    would give.  A mode string that is none of the eight known ones is
    treated as the mode mst. *)
Theorem computeDerivedStructures_guards
    (Delaunay_from : list Point -> Delaunay.t)
    (cellPolygon : list Point -> nat -> nat -> nat -> option Polygon)
    (width height : nat) (alpha : float) :
  (forall mode,
      computeDerivedStructures Delaunay_from cellPolygon [] width height alpha mode
      = Some {| voronoiCells := []; graphEdges := []; alphaTriangles := [] |}) /\
  (forall points, points <> [] ->
      exists cells,
        computeVoronoiBruteForce points width height = Some cells /\
        length cells = length points /\
        computeDerivedStructures Delaunay_from cellPolygon points width height alpha
          "voronoi-bruteforce"
        = Some {| voronoiCells := cells; graphEdges := []; alphaTriangles := [] |}) /\
  (forall points mode,
      ~ In mode ["voronoi-bruteforce"; "voronoi"; "alpha-shape"; "alpha-complex";
                 "nn-crust"; "gabriel"; "rng"]%string ->
      computeDerivedStructures Delaunay_from cellPolygon points width height alpha mode
      = computeDerivedStructures Delaunay_from cellPolygon points width height alpha "mst").
Proof.
  split; [|split].
  - intros mode. reflexivity.
  - intros points NE.
    destruct (computeVoronoiBruteForce_returns points width height NE) as [cells [E L]].
    exists cells. split; [exact E|]. split; [exact L|].
    unfold computeDerivedStructures.
    destruct points as [|p rest]; [congruence|]. cbn [length Nat.eqb].
    rewrite String.eqb_refl, E. reflexivity.
  - intros points mode N. unfold computeDerivedStructures.
    destruct (length points =? 0)%nat; [reflexivity|].
    cbn [In] in N.
    repeat match goal with
           | |- context [String.eqb mode ?s] =>
               destruct (String.eqb_spec mode s); [exfalso; apply N; subst; tauto|]
           end.
    cbn [orb]. reflexivity.
Qed.

(** ** The ray-casting test *)


Lemma isPointInPolygon_loop px py polygon :
  forall rest pre inside j prev,
    polygon = pre ++ rest -> nth j polygon (nan, nan) = prev ->
    fst (fold_left (isPointInPolygon_step px py polygon)
           (seq (length pre) (length rest)) (inside, j))
    = xorb inside (rayParity px py prev rest).
Proof.
  induction rest as [|v rest IH]; intros pre inside j prev E J.
  - cbn. now rewrite xorb_false_r.
  - cbn [length seq fold_left isPointInPolygon_step rayParity].
    assert (V : nth (length pre) polygon (nan, nan) = v).
    { rewrite E, app_nth2, Nat.sub_diag by lia. reflexivity. }
    rewrite J, V.
    replace (S (length pre)) with (length (pre ++ [v])) by (rewrite length_app; cbn; lia).
    rewrite (IH (pre ++ [v]) _ (length pre) v).
    + destruct (crossesRay px py v prev), inside, (rayParity px py v rest); reflexivity.
    + rewrite <- app_assoc. exact E.
    + exact V.
Qed.

Lemma nth_length_last {A : Type} (l : list A) (d : A) :
  nth (length l - 1) l d = last l d.
Proof.
  induction l as [|a [|b l] IH]; try reflexivity.
  cbn [length last] in *. rewrite <- IH.
  replace (S (S (length l)) - 1)%nat with (S (S (length l) - 1)) by lia. reflexivity.
Qed.

Lemma isPointInPolygon_rayParity px py polygon :
  isPointInPolygon px py polygon
  = rayParity px py (last polygon (nan, nan)) polygon.
Proof.
  unfold isPointInPolygon.
  pose proof (isPointInPolygon_loop px py polygon polygon [] false
                (length polygon - 1) (last polygon (nan, nan)) eq_refl) as H.
  cbn [length] in H. rewrite H; [reflexivity|].
  - apply nth_length_last.
Qed.

Lemma last_cons {A : Type} (a d : A) (l : list A) : last (a :: l) d = last l a.
Proof.
  revert a d. induction l as [|b l IH]; intros a d; [reflexivity|].
  change (last (a :: b :: l) d) with (last (b :: l) d). now rewrite !IH.
Qed.

Lemma rayParity_app px py prev l v :
  rayParity px py prev (l ++ [v])
  = xorb (rayParity px py prev l) (crossesRay px py v (last l prev)).
Proof.
  revert prev. induction l as [|w l IH]; intros prev.
  - cbn. now rewrite xorb_false_r.
  - cbn [app rayParity]. rewrite IH, xorb_assoc, last_cons. reflexivity.
Qed.

(** [isPointInPolygon] does not depend on the vertex the polygon is
    listed from. *)
Theorem isPointInPolygon_startFromNext (px py : float) (polygon : Polygon) :
  isPointInPolygon px py (startFromNext polygon) = isPointInPolygon px py polygon.
Proof.
  destruct polygon as [|h t]; [reflexivity|].
  rewrite !isPointInPolygon_rayParity. cbn [startFromNext].
  rewrite last_last, rayParity_app. cbn [rayParity].
  rewrite xorb_comm, last_cons. reflexivity.
Qed.

Lemma rayParity_false px py vs :
  forall prev,
    (forall u v, In v vs -> crossesRay px py v u = false) ->
    rayParity px py prev vs = false.
Proof.
  induction vs as [|v rest IH]; intros prev N; [reflexivity|].
  cbn [rayParity]. rewrite N by now left. rewrite IH; [reflexivity|].
  intros u w I. apply N. now right.
Qed.

(** A point is never inside a polygon whose vertices are all on one side
    of the horizontal line through it (none strictly above it, or all
    strictly above it); nor when one of its coordinates is NaN; a polygon of
    fewer than two vertices contains no point. *)
Theorem isPointInPolygon_outside (px py : float) (polygon : Polygon) :
  ((forall v, In v polygon -> (py <? snd v)%float = false) ->
   isPointInPolygon px py polygon = false) /\
  ((forall v, In v polygon -> (py <? snd v)%float = true) ->
   isPointInPolygon px py polygon = false) /\
  (is_nan px = true \/ is_nan py = true -> isPointInPolygon px py polygon = false) /\
  ((length polygon < 2)%nat -> isPointInPolygon px py polygon = false).
Proof.
  rewrite isPointInPolygon_rayParity.
  assert (L : polygon <> [] -> In (last polygon (nan, nan)) polygon).
  { intros NE. rewrite (app_removelast_last (nan, nan) NE) at 2.
    apply in_or_app. right. now left. }
  assert (Side : forall side,
             (forall v, In v polygon -> (py <? snd v)%float = side) ->
             rayParity px py (last polygon (nan, nan)) polygon = false).
  { intros side S. destruct polygon as [|h t]; [reflexivity|].
    specialize (L ltac:(discriminate)).
    remember (last (h :: t) (nan, nan)) as prev eqn:Ep. clear Ep.
    assert (G : forall vs u, In u (h :: t) -> incl vs (h :: t) ->
                             rayParity px py u vs = false).
    { induction vs as [|v rest IH]; intros u Iu Inc; [reflexivity|].
      cbn [rayParity]. rewrite IH; [|apply Inc; now left | intros w Iw; apply Inc; now right].
      unfold crossesRay. rewrite (S v), (S u); [|exact Iu | apply Inc; now left].
      destruct side; reflexivity. }
    apply G; [exact L | apply incl_refl]. }
  split; [apply Side|]. split; [apply Side|]. split.
  - intros N. apply rayParity_false. intros u v _. unfold crossesRay.
    destruct N as [N|N].
    + assert (F : forall w, (px <? w)%float = false).
      { intros w. destruct (px <? w)%float eqn:Lt; [|reflexivity].
        apply FloatOrder.ltb_not_nan in Lt. destruct Lt. congruence. }
      rewrite F. apply andb_false_r.
    + assert (F : forall w, (py <? w)%float = false).
      { intros w. destruct (py <? w)%float eqn:Lt; [|reflexivity].
        apply FloatOrder.ltb_not_nan in Lt. destruct Lt. congruence. }
      rewrite !F. reflexivity.
  - intros Short. destruct polygon as [|v [|w rest]]; [reflexivity| |cbn in Short; lia].
    cbn. unfold crossesRay. rewrite xorb_nilpotent. reflexivity.
Qed.

(** ** The hit test *)

Lemma findPointByPosition_from_spec currentPoints px py :
  forall remaining, (remaining <= length currentPoints)%nat ->
    exists r,
      findPointByPosition_from currentPoints px py remaining = Some r /\
      ((r = (-1)%Z /\
        forall k point, (k < remaining)%nat -> nth_error currentPoints k = Some point ->
                        hits px py point = false) \/
       (exists k point,
           r = Z.of_nat k /\ (k < remaining)%nat /\
           nth_error currentPoints k = Some point /\ hits px py point = true /\
           forall k' point', (k < k' < remaining)%nat ->
                             nth_error currentPoints k' = Some point' ->
                             hits px py point' = false)).
Proof.
  induction remaining as [|index IH]; intros L.
  - exists (-1)%Z. split; [reflexivity|]. left. split; [reflexivity|]. intros k point Lk. lia.
  - cbn [findPointByPosition_from].
    destruct (nth_error currentPoints index) as [point|] eqn:Hp.
    2:{ apply nth_error_None in Hp. lia. }
    fold (hits px py point). destruct (hits px py point) eqn:Hit.
    + exists (Z.of_nat index). split; [reflexivity|]. right. exists index, point.
      split; [reflexivity|]. split; [lia|]. split; [exact Hp|]. split; [exact Hit|].
      intros k' point' Lk. lia.
    + destruct (IH ltac:(lia)) as [r [E [[-> N]|[k [q [-> [Lk [Hq [Hitq N]]]]]]]]].
      * exists (-1)%Z. split; [exact E|]. left. split; [reflexivity|].
        intros k q Lk Hq. destruct (Nat.eq_dec k index) as [->|Nk].
        -- congruence.
        -- apply (N k); [lia | exact Hq].
      * exists (Z.of_nat k). split; [exact E|]. right. exists k, q.
        split; [reflexivity|]. split; [lia|]. split; [exact Hq|]. split; [exact Hitq|].
        intros k' q' Lk' Hq'. destruct (Nat.eq_dec k' index) as [->|Nk].
        -- congruence.
        -- apply (N k'); [lia | exact Hq'].
Qed.

(** [findPointByPosition] never throws.  It returns -1 when the pointer
    is on no point, and otherwise the largest index of a point the pointer is
    on: of two overlapping points, the one added last is picked. *)
Theorem findPointByPosition_topmost (currentPoints : list Point) (px py : float) :
  exists r,
    findPointByPosition currentPoints px py = Some r /\
    ((r = (-1)%Z /\
      forall point, In point currentPoints -> hits px py point = false) \/
     (exists k point,
         r = Z.of_nat k /\ nth_error currentPoints k = Some point /\
         hits px py point = true /\
         forall k' point', (k < k')%nat -> nth_error currentPoints k' = Some point' ->
                           hits px py point' = false)).
Proof.
  destruct (findPointByPosition_from_spec currentPoints px py (length currentPoints))
    as [r [E [[-> N]|[k [q [-> [Lk [Hq [Hit N]]]]]]]]]; [lia| |].
  - exists (-1)%Z. split; [exact E|]. left. split; [reflexivity|].
    intros point I. apply In_nth_error in I. destruct I as [k Hk].
    apply (N k); [|exact Hk]. apply nth_error_Some. congruence.
  - exists (Z.of_nat k). split; [exact E|]. right. exists k, q.
    split; [reflexivity|]. split; [exact Hq|]. split; [exact Hit|].
    intros k' q' Lk' Hq'. apply (N k'); [|exact Hq'].
    split; [exact Lk'|]. apply nth_error_Some. congruence.
Qed.

(** ** The rounded path *)

Lemma roundedCorner_first points radius :
  exists first rest,
    roundedCorner points radius 0 = first :: rest /\
    startsSubpath first = true /\ forallb extendsSubpath rest = true /\
    (length rest <= 1)%nat.
Proof.
  unfold roundedCorner.
  destruct (nth 0 points (nan, nan)) as [cx cy].
  destruct (nth _ points (nan, nan)) as [prevX prevY].
  destruct (nth _ points (nan, nan)) as [nextX nextY].
  cbv zeta. cbn [Nat.eqb].
  destruct (_ || _); eexists _, _; (split; [reflexivity|]); cbn; auto.
Qed.

Lemma roundedCorner_next points radius index :
  index <> O ->
  forallb extendsSubpath (roundedCorner points radius index) = true /\
  (length (roundedCorner points radius index) <= 2)%nat.
Proof.
  intros N. unfold roundedCorner.
  destruct (nth index points (nan, nan)) as [cx cy].
  destruct (nth _ points (nan, nan)) as [prevX prevY].
  destruct (nth _ points (nan, nan)) as [nextX nextY].
  cbv zeta. destruct (Nat.eqb_spec index 0) as [E|_]; [contradiction|].
  destruct (_ || _); cbn; auto.
Qed.

Lemma roundedCorners_rest points radius n :
  forall start, start <> O ->
    forallb extendsSubpath (flat_map (roundedCorner points radius) (seq start n)) = true /\
    (length (flat_map (roundedCorner points radius) (seq start n)) <= 2 * n)%nat.
Proof.
  induction n as [|n IH]; intros start N; [cbn; auto|].
  cbn [seq flat_map]. rewrite forallb_app, length_app.
  destruct (roundedCorner_next points radius start N) as [F L].
  destruct (IH (S start) ltac:(lia)) as [F' L'].
  rewrite F, F'. split; [reflexivity | lia].
Qed.

(** [drawRoundedPolygon] only adds calls to the context, and none when
    the polygon, once its closing vertex is dropped, is empty.  Otherwise it
    adds one closed subpath: [beginPath], one call that starts the subpath (a
    [moveTo], or the [arc] of a single vertex), then only [lineTo] and
    [quadraticCurveTo] calls, fewer than twice as many as there are
    vertices, and [closePath]. *)
Theorem drawRoundedPolygon_path (ctx : CanvasRenderingContext2D) (polygon : Polygon)
    (radius : float) :
  exists calls,
    drawRoundedPolygon ctx polygon radius = ctx ++ calls /\
    match polygonWithoutDuplicate polygon with
    | [] => calls = []
    | points =>
        exists first rest,
          calls = beginPath :: first :: rest ++ [closePath] /\
          startsSubpath first = true /\
          forallb extendsSubpath rest = true /\
          (length rest < 2 * length points)%nat
    end.
Proof.
  unfold drawRoundedPolygon.
  destruct (polygonWithoutDuplicate polygon) as [|[cx cy] [|v rest]] eqn:E.
  - exists []. split; [now rewrite app_nil_r | reflexivity].
  - eexists. split; [reflexivity|]. eexists _, []. split; [reflexivity|]. cbn. auto.
  - set (points := (cx, cy) :: v :: rest).
    exists (beginPath :: flat_map (roundedCorner points radius) (seq 0 (length points))
              ++ [closePath]).
    split; [now rewrite <- app_assoc|].
    change (seq 0 (length points)) with (O :: seq 1 (S (length rest))).
    cbn [flat_map].
    destruct (roundedCorner_first points radius) as [first [tail [-> [St [F L]]]]].
    destruct (roundedCorners_rest points radius (S (length rest)) 1 ltac:(lia)) as [F' L'].
    exists first, (tail ++ flat_map (roundedCorner points radius) (seq 1 (S (length rest)))).
    split; [cbn; now rewrite <- app_assoc|]. split; [exact St|].
    rewrite forallb_app, length_app, F, F'. split; [reflexivity|].
    change (length points) with (S (S (length rest))). lia.
Qed.

(** ** shrinkPolygon *)

Lemma is_nan_true_eq (v : float) : is_nan v = true -> v = nan.
Proof.
  intros N. apply Prim2SF_inj. unfold is_nan in N.
  rewrite FloatAxioms.eqb_spec in N.
  destruct (Prim2SF v) as [s|s| |s m e] eqn:E; try reflexivity.
  - destruct s; discriminate.
  - destruct s; discriminate.
  - rewrite FloatOrder.SF_eqb_refl in N by discriminate. discriminate.
Qed.

Lemma sub_nan_r (v : float) : (v - nan)%float = nan.
Proof.
  apply Prim2SF_inj. rewrite sub_spec.
  replace (Prim2SF nan) with S754_nan by reflexivity.
  destruct (Prim2SF v) as [s|s| |s m e]; reflexivity.
Qed.

Lemma mul_nan_r (v : float) : (v * nan)%float = nan.
Proof.
  apply Prim2SF_inj. rewrite mul_spec.
  replace (Prim2SF nan) with S754_nan by reflexivity.
  destruct (Prim2SF v) as [s|s| |s m e]; reflexivity.
Qed.

Lemma add_nan_r (v : float) : (v + nan)%float = nan.
Proof.
  apply Prim2SF_inj. rewrite add_spec.
  replace (Prim2SF nan) with S754_nan by reflexivity.
  destruct (Prim2SF v) as [s|s| |s m e]; reflexivity.
Qed.

Lemma shrinkVertex_nan cx cy amount v :
  is_nan amount = true ->
  shrinkVertex cx cy amount v = v \/ shrinkVertex cx cy amount v = (nan, nan).
Proof.
  intros N. apply is_nan_true_eq in N. subst amount. unfold shrinkVertex.
  destruct (_ =? 0)%float; [now left|]. right.
  rewrite sub_nan_r.
  replace (JS.Math_max 0 nan) with nan by reflexivity.
  now rewrite !mul_nan_r, !add_nan_r.
Qed.

Lemma add_zeroOrNaN_r (c z : float) :
  zeroOrNaN (Prim2SF z) -> (c + z =? c)%float = true \/ is_nan (c + z) = true.
Proof.
  intros Z. unfold is_nan. rewrite !FloatAxioms.eqb_spec, add_spec.
  destruct (Prim2SF z) as [sz|sz| |sz mz ez]; cbn [zeroOrNaN] in Z; try contradiction.
  - destruct (Prim2SF c) as [s|s| |s m e].
    + left. destruct s, sz; reflexivity.
    + left. destruct s; reflexivity.
    + right. reflexivity.
    + left. cbn [SF64add SFadd]. apply FloatOrder.SF_eqb_refl. discriminate.
  - right. destruct (Prim2SF c); reflexivity.
Qed.

Lemma Math_max_0_below (b : float) : (b <=? 0)%float = true -> JS.Math_max 0 b = 0%float.
Proof.
  intros L. unfold JS.Math_max.
  assert (Nb : is_nan b = false).
  { destruct (is_nan b) eqn:N; [|reflexivity].
    apply is_nan_true_eq in N. subst b. discriminate L. }
  rewrite Nb. cbn [is_nan orb].
  replace (is_nan 0) with false by reflexivity. cbn [orb].
  rewrite (FloatOrder.leb_not_ltb _ _ L).
  destruct (b <? 0)%float; reflexivity.
Qed.

Lemma shrinkVertex_collapse cx cy amount v :
  let dist := JS.Math_hypot (fst v - cx) (snd v - cy) in
  (dist =? 0)%float = false -> (dist - amount <=? 0)%float = true ->
  ((fst (shrinkVertex cx cy amount v) =? cx)%float = true \/
   is_nan (fst (shrinkVertex cx cy amount v)) = true) /\
  ((snd (shrinkVertex cx cy amount v) =? cy)%float = true \/
   is_nan (snd (shrinkVertex cx cy amount v)) = true).
Proof.
  intros dist NZ Below. unfold shrinkVertex. fold dist. rewrite NZ.
  rewrite (Math_max_0_below _ Below). cbn [fst snd].
  split; apply add_zeroOrNaN_r; rewrite mul_spec;
    apply Cancel.SFmul_zeroOrNaN; exact I.
Qed.

(** [shrinkPolygon] keeps the number of vertices.  It returns the polygon
    itself when it has fewer than three vertices or when [amount <= 0].  A NaN
    [amount] is not caught by that test: with three vertices or more, every
    vertex is then either left as it is or replaced by (NaN, NaN).  The callback that moves one vertex puts a vertex that is
    within [amount] of the centroid [(cx, cy)] onto the centroid (or makes it
    NaN when a quotient overflows). *)
Theorem shrinkPolygon_vertices (polygon : Polygon) (amount : float) :
  length (shrinkPolygon polygon amount) = length polygon /\
  ((length polygon < 3)%nat \/ (amount <=? 0)%float = true ->
   shrinkPolygon polygon amount = polygon) /\
  (is_nan amount = true ->
   Forall2 (fun v v' => v' = v \/ ((3 <= length polygon)%nat /\ v' = (nan, nan)))
           polygon (shrinkPolygon polygon amount)) /\
  (forall cx cy v,
     (JS.Math_hypot (fst v - cx) (snd v - cy) =? 0)%float = false ->
     (JS.Math_hypot (fst v - cx) (snd v - cy) - amount <=? 0)%float = true ->
     ((fst (shrinkVertex cx cy amount v) =? cx)%float = true \/
      is_nan (fst (shrinkVertex cx cy amount v)) = true) /\
     ((snd (shrinkVertex cx cy amount v) =? cy)%float = true \/
      is_nan (snd (shrinkVertex cx cy amount v)) = true)).
Proof.
  unfold shrinkPolygon. split; [|split; [|split]]; [| | |exact (fun cx cy v => shrinkVertex_collapse cx cy amount v)].
  - destruct (_ || _); [reflexivity | apply length_map].
  - intros [S|L].
    + apply Nat.ltb_lt in S. now rewrite S.
    + rewrite L, orb_true_r. reflexivity.
  - intros N.
    assert (Same : Forall2 (fun v v' : float * float =>
                              v' = v \/ ((3 <= length polygon)%nat /\ v' = (nan, nan)))
                           polygon polygon).
    { clear. generalize (length polygon). intros n.
      induction polygon; constructor; auto. }
    destruct (Nat.ltb_spec (length polygon) 3) as [S|L]; [exact Same|].
    destruct (amount <=? 0)%float; [exact Same|]. cbn [orb].
    set (cx := (_ / _)%float). set (cy := (_ / _)%float).
    assert (G : forall vs, Forall2 (fun v v' : float * float =>
                                      v' = v \/ ((3 <= length polygon)%nat /\ v' = (nan, nan)))
                                   vs (map (shrinkVertex cx cy amount) vs)).
    { induction vs as [|v vs IH]; constructor; [|exact IH].
      destruct (shrinkVertex_nan cx cy amount v N) as [-> | ->]; auto. }
    apply G.
Qed.

(** ** Edge keys as strings *)

Lemma Number_toString_digits n : digitsOnly (Number_toString n) = true.
Proof.
  unfold Number_toString. induction (Nat.to_uint n); cbn; auto.
Qed.

Lemma parseDigits_of_uint d :
  forall acc,
    parseDigits (DecimalString.NilEmpty.string_of_uint d) acc = Nat.of_uint_acc d acc.
Proof.
  induction d; intros acc; cbn [DecimalString.NilEmpty.string_of_uint parseDigits Nat.of_uint_acc];
    try reflexivity;
    match goal with
    | |- context [digitValue ?c] =>
        let v := eval vm_compute in (digitValue c) in
        change (digitValue c) with v; cbv iota
    end;
    rewrite IHd; f_equal; rewrite Nat.tail_mul_spec; cbn; lia.
Qed.

Lemma Number_toString_nonempty n :
  exists c rest d, Number_toString n = String c rest /\ digitValue c = Some d.
Proof.
  unfold Number_toString.
  assert (N : Nat.to_uint n <> Decimal.Nil).
  { rewrite <- (DecimalNat.Unsigned.of_to n) at 1.
    rewrite DecimalNat.Unsigned.to_of. apply DecimalFacts.unorm_nonnil. }
  destruct (Nat.to_uint n); try congruence; cbn; eexists _, _, _; split; reflexivity.
Qed.

Lemma Number_parseInt_toString n :
  Number_parseInt (Number_toString n) = Some (Z.of_nat n).
Proof.
  destruct (Number_toString_nonempty n) as [c [rest [d [E D]]]].
  assert (V : parseDigits (Number_toString n) 0 = n).
  { unfold Number_toString. rewrite parseDigits_of_uint.
    apply DecimalNat.Unsigned.of_to. }
  unfold Number_parseInt. rewrite E in *. cbn [trimStart].
  assert (W : isWhiteSpace c = false).
  { unfold digitValue in D. unfold isWhiteSpace.
    destruct ((48 <=? nat_of_ascii c)%nat && (nat_of_ascii c <=? 57)%nat) eqn:R;
      [|discriminate].
    apply andb_true_iff in R. destruct R as [R1 R2].
    apply Nat.leb_le in R1. apply Nat.leb_le in R2.
    repeat match goal with
           | |- context [(nat_of_ascii c =? ?k)%nat] =>
               destruct (Nat.eqb_spec (nat_of_ascii c) k); [lia|]
           end.
    reflexivity. }
  assert (S1 : Ascii.eqb c "-" = false).
  { apply Ascii.eqb_neq. intros ->. discriminate D. }
  assert (S2 : Ascii.eqb c "+" = false).
  { apply Ascii.eqb_neq. intros ->. discriminate D. }
  rewrite W, S1, S2, D, V. reflexivity.
Qed.

Lemma String_split_nonempty sep s : String_split sep s <> [].
Proof.
  destruct s as [|c rest]; cbn; [discriminate|].
  destruct (Ascii.eqb c sep); [discriminate|].
  destruct (String_split sep rest); discriminate.
Qed.

Lemma String_split_digits s t :
  digitsOnly s = true ->
  String_split "-"%char (s ++ t)
  = match String_split "-"%char t with
    | field :: fields => (s ++ field)%string :: fields
    | [] => [s]
    end.
Proof.
  induction s as [|c s IH]; cbn [digitsOnly append String_split]; intros D.
  - pose proof (String_split_nonempty "-"%char t) as NE.
    destruct (String_split "-" t); [congruence | reflexivity].
  - destruct (digitValue c) eqn:V; [|discriminate].
    assert (N : Ascii.eqb c "-" = false).
    { apply Ascii.eqb_neq. intros ->. discriminate V. }
    rewrite N, (IH D).
    pose proof (String_split_nonempty "-"%char t) as NE.
    destruct (String_split "-" t); [congruence | reflexivity].
Qed.

Lemma decodeEdgeKey_string_fields a b :
  decodeEdgeKey_string (Number_toString a ++ "-" ++ Number_toString b)
  = (Some (Z.of_nat a), Some (Z.of_nat b)).
Proof.
  unfold decodeEdgeKey_string.
  rewrite (String_split_digits _ _ (Number_toString_digits a)).
  change ("-" ++ Number_toString b)%string with (String "-"%char (Number_toString b)).
  cbn [String_split]. rewrite Ascii.eqb_refl.
  pose proof (String_split_digits (Number_toString b) "" (Number_toString_digits b)) as Sb.
  cbn [String_split] in Sb.
  assert (R : forall s, (s ++ "")%string = s).
  { induction s; cbn; congruence. }
  rewrite !R in Sb. rewrite Sb, R. cbn [map].
  now rewrite !Number_parseInt_toString.
Qed.

(** On strings, decoding an edge key gives back the two indices, smaller
    first, and two keys are the same string exactly when the pairs that stand
    for them are equal: a [Set] or [Map] of key strings behaves as one of
    canonical pairs. *)
Theorem edgeKey_string_round_trip (a b c d : nat) :
  decodeEdgeKey_string (edgeKey_string a b)
  = (Some (fst (edgeKey (Z.of_nat a) (Z.of_nat b))),
     Some (snd (edgeKey (Z.of_nat a) (Z.of_nat b)))) /\
  (edgeKey_string a b = edgeKey_string c d <->
   edgeKey (Z.of_nat a) (Z.of_nat b) = edgeKey (Z.of_nat c) (Z.of_nat d)).
Proof.
  assert (RT : forall a b,
             decodeEdgeKey_string (edgeKey_string a b)
             = (Some (fst (edgeKey (Z.of_nat a) (Z.of_nat b))),
                Some (snd (edgeKey (Z.of_nat a) (Z.of_nat b))))).
  { intros u v. unfold edgeKey_string, edgeKey.
    destruct (Nat.ltb_spec u v), (Z.ltb_spec (Z.of_nat u) (Z.of_nat v)); try lia;
      apply decodeEdgeKey_string_fields. }
  split; [apply RT|]. split.
  - intros E. pose proof (RT a b) as Rab. rewrite E, RT in Rab.
    destruct (edgeKey (Z.of_nat a) (Z.of_nat b)), (edgeKey (Z.of_nat c) (Z.of_nat d)).
    cbn in Rab. congruence.
  - unfold edgeKey_string, edgeKey.
    destruct (Nat.ltb_spec a b), (Z.ltb_spec (Z.of_nat a) (Z.of_nat b)); try lia;
      destruct (Nat.ltb_spec c d), (Z.ltb_spec (Z.of_nat c) (Z.of_nat d)); try lia;
      intros [= E1 E2]; apply Nat2Z.inj in E1, E2; subst; reflexivity.
Qed.

(** ** The slider mapping is an increasing bijection *)

Lemma sliderToRadius_Q_cases (t : Q) :
  ((t <= 0.5)%Q /\ (sliderToRadius t == 976 * t + 12)%Q) \/
  ((0.5 < t)%Q /\ (t <= 0.75)%Q /\ (sliderToRadius t == 2000 * t - 500)%Q) \/
  ((0.75 < t)%Q /\ (sliderToRadius t == 16000 * t - 11000)%Q).
Proof.
  unfold sliderToRadius, sliderToRadius_first, sliderToRadius_second,
    sliderToRadius_third, FIRST_RANGE, SECOND_RANGE, THIRD_RANGE.
  cbv [lit add sub mul div le Number_Q sliderMax radiusMin radiusMax].
  destruct (Qle_bool t 0.5) eqn:E1.
  - apply Qle_bool_iff in E1. left. split; [exact E1 | field].
  - assert (N1 : ~ (t <= 0.5)%Q) by (rewrite <- Qle_bool_iff; congruence).
    destruct (Qle_bool t 0.75) eqn:E2.
    + apply Qle_bool_iff in E2. right. left.
      split; [lra|]. split; [exact E2 | field].
    + assert (N2 : ~ (t <= 0.75)%Q) by (rewrite <- Qle_bool_iff; congruence).
      right. right. split; [lra | field].
Qed.

Lemma radiusToSlider_Q_cases (r : Q) :
  ((r <= 500)%Q /\ (976 * radiusToSlider r == r - 12)%Q) \/
  ((500 < r)%Q /\ (r <= 1000)%Q /\ (2000 * radiusToSlider r == r + 500)%Q) \/
  ((1000 < r)%Q /\ (16000 * radiusToSlider r == r + 11000)%Q).
Proof.
  unfold radiusToSlider, FIRST_RANGE, SECOND_RANGE, THIRD_RANGE.
  cbv [lit add sub mul div le Number_Q sliderMax radiusMin radiusMax].
  destruct (Qle_bool r 500) eqn:E1.
  - apply Qle_bool_iff in E1. left. split; [exact E1 | field].
  - assert (N1 : ~ (r <= 500)%Q) by (rewrite <- Qle_bool_iff; congruence).
    destruct (Qle_bool r 1000) eqn:E2.
    + apply Qle_bool_iff in E2. right. left.
      split; [lra|]. split; [exact E2 | field].
    + assert (N2 : ~ (r <= 1000)%Q) by (rewrite <- Qle_bool_iff; congruence).
      right. right. split; [lra | field].
Qed.

(** In exact arithmetic [sliderToRadius] and [radiusToSlider] are strictly
    increasing and inverse to each other in both directions, and the slider
    positions 0 and 1 give the radii 12 and 5000: the slider range [0, 1]
    covers the radii from 12 to 5000, each once. *)
Theorem slider_increasing_bijection :
  (forall t t' : Q, (t < t')%Q -> (sliderToRadius t < sliderToRadius t')%Q) /\
  (forall r r' : Q, (r < r')%Q -> (radiusToSlider r < radiusToSlider r')%Q) /\
  (forall r : Q, (sliderToRadius (radiusToSlider r) == r)%Q) /\
  (sliderToRadius (0 : Q) == 12)%Q /\ (sliderToRadius (1 : Q) == 5000)%Q.
Proof.
  split; [|split; [|split; [|split]]].
  - intros t t' L.
    destruct (sliderToRadius_Q_cases t) as [[A E]|[[A [B E]]|[A E]]];
      destruct (sliderToRadius_Q_cases t') as [[A' E']|[[A' [B' E']]|[A' E']]];
      rewrite E, E'; lra.
  - intros r r' L.
    destruct (radiusToSlider_Q_cases r) as [[A E]|[[A [B E]]|[A E]]];
      destruct (radiusToSlider_Q_cases r') as [[A' E']|[[A' [B' E']]|[A' E']]];
      lra.
  - intros r.
    destruct (radiusToSlider_Q_cases r) as [[A E]|[[A [B E]]|[A E]]];
      destruct (sliderToRadius_Q_cases (radiusToSlider r))
        as [[A' E']|[[A' [B' E']]|[A' E']]];
      rewrite E'; lra.
  - destruct (sliderToRadius_Q_cases 0) as [[A E]|[[A [B E]]|[A E]]]; rewrite E; lra.
  - destruct (sliderToRadius_Q_cases 1) as [[A E]|[[A [B E]]|[A E]]]; rewrite E; lra.
Qed.

(** ** The initial points *)

Lemma leb_not_nan (a b : float) :
  (a <=? b)%float = true -> is_nan a = false /\ is_nan b = false.
Proof.
  intros L. split.
  - destruct (is_nan a) eqn:N; [|reflexivity].
    apply is_nan_true_eq in N. subst a. rewrite FloatAxioms.leb_spec in L.
    discriminate L.
  - destruct (is_nan b) eqn:N; [|reflexivity].
    apply is_nan_true_eq in N. subst b. rewrite FloatAxioms.leb_spec in L.
    replace (Prim2SF nan) with S754_nan in L by reflexivity.
    destruct (Prim2SF a); discriminate L.
Qed.

Lemma clamp_margin (value size : float) :
  (40 <=? size - 40)%float = true ->
  is_nan (clamp value 40 (size - 40)) = true \/
  ((40 <=? clamp value 40 (size - 40))%float = true /\
   (clamp value 40 (size - 40) <=? size - 40)%float = true).
Proof.
  intros M. destruct (leb_not_nan _ _ M) as [N40 Ns].
  destruct (is_nan value) eqn:Nv.
  - left. apply clamp_nan. now left.
  - right. destruct (clamp_range value 40 (size - 40) Nv N40 Ns) as [A [B _]].
    split; [exact A | exact (B M)].
Qed.

(** Whatever [Math.sin] returns, [createInitialPoints] gives ten points
    with the ids 0 to 9 in order, and when the canvas is at least 80 wide
    (high) no point is nearer than 40 to its left or right (top or bottom)
    side: each coordinate is between 40 and the size less 40, or is NaN. *)
Theorem createInitialPoints_margins (Math_sin : float -> float) (width height : float) :
  map id (createInitialPoints Math_sin width height) = map Z.of_nat (seq 0 10) /\
  ((40 <=? width - 40)%float = true ->
   forall p, In p (createInitialPoints Math_sin width height) ->
     is_nan (x p) = true \/
     ((40 <=? x p)%float = true /\ (x p <=? width - 40)%float = true)) /\
  ((40 <=? height - 40)%float = true ->
   forall p, In p (createInitialPoints Math_sin width height) ->
     is_nan (y p) = true \/
     ((40 <=? y p)%float = true /\ (y p <=? height - 40)%float = true)).
Proof.
  split; [reflexivity|]. unfold createInitialPoints.
  split; intros M p I; apply in_map_iff in I; destruct I as [[index [u v]] [<- _]];
    cbn [fst snd createInitialPoint x y]; now apply clamp_margin.
Qed.

(** ** Thresholds and errors of the alpha filter *)

Lemma SFabs_signed r : signed false (SFabs r).
Proof. destruct r as [s|s| |s m e]; cbn; auto. Qed.

Lemma SFmul_signed r1 r2 :
  signed false r1 -> signed false r2 -> signed false (SFmul prec emax r1 r2).
Proof.
  destruct r1 as [s1|s1| |s1 m1 e1], r2 as [s2|s2| |s2 m2 e2];
    cbn [signed]; intros S1 S2; subst; cbn [SFmul xorb signed]; auto.
  apply RoundDown.binary_round_aux_signed.
Qed.

Lemma SFdiv_notNegative_signed r1 r2 :
  notNegative r1 -> signed false r2 -> notNegative (SFdiv prec emax r1 r2).
Proof.
  destruct r1 as [s1|[|]| |[|] m1 e1], r2 as [s2|s2| |s2 m2 e2];
    cbn [notNegative signed]; intros N1 S2; subst; try contradiction; try exact I;
    try (destruct s1; exact I).
  unfold SFdiv. cbn [xorb].
  destruct (SFdiv_core_binary prec emax (Z.pos m1) e1 (Z.pos m2) e2) as [[mz ez] lz].
  pose proof (RoundDown.binary_round_aux_signed false mz ez lz) as S.
  destruct (binary_round_aux prec emax false mz ez lz) as [s'|s'| |s' m' e'];
    cbn in *; subst; exact I.
Qed.

Lemma triangleArea_signed ax ay bx by' cx cy :
  signed false (Prim2SF (triangleArea ax ay bx by' cx cy)).
Proof.
  unfold triangleArea, JS.Math_abs. rewrite mul_spec, abs_spec.
  apply SFmul_signed; [apply SFabs_signed | reflexivity].
Qed.

(** [circumradius] never returns a number below zero. *)
Lemma circumradius_notNegative ax ay bx by' cx cy :
  notNegative (Prim2SF (circumradius ax ay bx by' cx cy)).
Proof.
  unfold circumradius.
  destruct (triangleArea ax ay bx by' cx cy =? 0)%float; [exact I|].
  rewrite div_spec, !mul_spec. apply SFdiv_notNegative_signed.
  - repeat apply SFmul_notNegative; apply Math_hypot_notNegative.
  - apply SFmul_signed; [reflexivity | apply triangleArea_signed].
Qed.

Lemma notNegative_not_below (r alpha : float) :
  notNegative (Prim2SF r) -> (alpha <? 0)%float = true -> (alpha <? r)%float = true \/
                                                          is_nan r = true.
Proof.
  intros N L. unfold is_nan. rewrite !FloatAxioms.ltb_spec, FloatAxioms.eqb_spec in *.
  replace (Prim2SF 0) with (S754_zero false) in L by reflexivity.
  destruct (Prim2SF r) as [s|[|]| |[|] m e]; cbn [notNegative] in N; try contradiction;
    try (now right);
    left; destruct (Prim2SF alpha) as [sa|[|]| |[|] ma ea]; try discriminate L;
    reflexivity.
Qed.

Lemma alphaLoop_same_test points alpha1 alpha2 tris :
  (forall radius, alphaKeeps alpha1 radius = alphaKeeps alpha2 radius) ->
  forall alphaTriangles edgeCount,
    alphaLoop points alpha1 tris alphaTriangles edgeCount
    = alphaLoop points alpha2 tris alphaTriangles edgeCount.
Proof.
  intros Same.
  induction tris as [|a|a b|i0 i1 i2 rest IH] using list_by_threes; intros T E;
    try reflexivity.
  cbn [alphaLoop].
  destruct ((i0 =? i1)%Z || (i1 =? i2)%Z || (i2 =? i0)%Z); [apply IH|].
  destruct (get points i0) as [p0|]; [|reflexivity].
  destruct (get points i1) as [p1|]; [|reflexivity].
  destruct (get points i2) as [p2|]; [|reflexivity].
  specialize (Same (triangleRadius p0 p1 p2)). unfold alphaKeeps in Same.
  apply (f_equal negb) in Same. rewrite !negb_involutive in Same.
  rewrite Same. clear Same. destruct (_ || _); apply IH.
Qed.

(** [computeAlphaData] throws exactly when a triangle with three different
    indices names a point that does not exist, whatever the threshold.  A NaN
    threshold filters like positive infinity: every triangle with a finite
    circumradius is kept.  A threshold below zero keeps nothing, since
    [circumradius] is never below zero. *)
Theorem computeAlphaData_thresholds (points : list Point) (delaunay : Delaunay.t) :
  (forall alpha,
      computeAlphaData points delaunay alpha = None <->
      exists t, In t (chunks3 (Delaunay.triangles delaunay)) /\ missingPoint points t) /\
  computeAlphaData points delaunay nan
  = computeAlphaData points delaunay JS.POSITIVE_INFINITY /\
  (forall alpha d,
      (alpha <? 0)%float = true ->
      computeAlphaData points delaunay alpha = Some d ->
      d = {| triangles := []; allEdges := []; boundaryEdges := [] |}).
Proof.
  split; [|split].
  - intros alpha. apply computeAlphaData_throws.
  - unfold computeAlphaData. rewrite (alphaLoop_same_test points nan infinity); [reflexivity|].
    intros radius. unfold alphaKeeps. f_equal. f_equal.
    rewrite !FloatAxioms.ltb_spec.
    replace (Prim2SF nan) with S754_nan by reflexivity.
    replace (Prim2SF infinity) with (S754_infinity false) by reflexivity.
    destruct (Prim2SF radius) as [s|[|]| |s m e]; reflexivity.
  - intros alpha d L E.
    assert (T : triangles d = []).
    { destruct (triangles d) as [|[[i0 i1] i2] rest] eqn:T; [reflexivity|].
      exfalso.
      assert (I : In (i0, i1, i2) (triangles d)) by (rewrite T; left; reflexivity).
      apply (computeAlphaData_triangles _ _ _ _ E) in I. destruct I as [_ W].
      destruct W as [_ [_ [_ [p0 [p1 [p2 [_ [_ [_ K]]]]]]]]].
      unfold alphaKeeps in K. apply negb_true_iff, orb_false_iff in K.
      destruct K as [F B]. apply negb_false_iff in F.
      destruct (notNegative_not_below (triangleRadius p0 p1 p2) alpha
                  (circumradius_notNegative _ _ _ _ _ _) L) as [A|A]; [congruence|].
      apply FloatOrder.is_finite_not_nan in F. congruence. }
    unfold computeAlphaData in E.
    destruct (alphaLoop points alpha (Delaunay.triangles delaunay) [] [])
      as [[T' m]|] eqn:Lp; [|discriminate].
    injection E as <-. cbn [triangles] in T. subst T'.
    assert (C0 : counts (flat_map sides []) []).
    { split; [constructor|]. intros k. cbn. tauto. }
    destruct (alphaLoop_counts _ _ _ _ _ _ _ C0 Lp) as [_ C].
    destruct m as [|[k v] m]; [reflexivity|].
    exfalso. apply (proj1 (proj1 (C k))). now left.
Qed.

(** ** The tree of Prim's loop is minimal *)

Lemma existsb_eqb_In (q : nat) (l : list nat) : existsb (Nat.eqb q) l = true <-> In q l.
Proof.
  rewrite existsb_exists. split.
  - intros [x [I E]]. apply Nat.eqb_eq in E. now subst.
  - intros I. exists q. split; [exact I | apply Nat.eqb_refl].
Qed.

Lemma subtree_app a b below : subtree (a ++ b) below = subtree b (subtree a below).
Proof.
  revert below. induction a as [|[u q] a IH]; intros below; [reflexivity|].
  cbn [app subtree]. apply IH.
Qed.

Lemma subtree_grows post : forall below, incl below (subtree post below).
Proof.
  induction post as [|[u q] post IH]; intros below x I; [exact I|].
  cbn [subtree]. apply IH. destruct (existsb _ below); [now right | exact I].
Qed.

Lemma subtree_mono post :
  forall below below', incl below below' -> incl (subtree post below) (subtree post below').
Proof.
  induction post as [|[u q] post IH]; intros below below' Inc; [exact Inc|].
  cbn [subtree]. apply IH.
  destruct (existsb (Nat.eqb q) below) eqn:E.
  - apply existsb_eqb_In in E. apply Inc in E. apply existsb_eqb_In in E. rewrite E.
    intros x [<-|I]; [now left | right; now apply Inc].
  - destruct (existsb _ below'); [|exact Inc].
    intros x I. right. now apply Inc.
Qed.

Lemma subtree_members post :
  forall below x, In x (subtree post below) -> In x below \/ In x (map fst post).
Proof.
  induction post as [|[u q] post IH]; intros below x I; [now left|].
  cbn [subtree] in I. apply IH in I. cbn [map fst In].
  destruct I as [I|I]; [|tauto].
  destruct (existsb _ below); [destruct I as [<-|I]; tauto | tauto].
Qed.

Lemma subtree_disjoint post :
  forall below below',
    (forall x, In x below -> ~ In x below') ->
    NoDup (map fst post) ->
    (forall x, In x (map fst post) -> ~ In x below /\ ~ In x below') ->
    forall x, In x (subtree post below) -> ~ In x (subtree post below').
Proof.
  induction post as [|[u q] post IH]; intros below below' Dis ND Fresh; [exact Dis|].
  cbn [subtree]. cbn [map fst] in ND, Fresh.
  inversion ND as [|? ? Nu ND']; subst.
  destruct (Fresh u (or_introl eq_refl)) as [F1 F2].
  apply IH; [|exact ND'|].
  - destruct (existsb (Nat.eqb q) below) eqn:E, (existsb (Nat.eqb q) below') eqn:E'.
    + apply existsb_eqb_In in E, E'. exfalso. exact (Dis q E E').
    + intros x [<-|I]; [exact F2 | now apply Dis].
    + intros x I [<-|I']; [contradiction | exact (Dis x I I')].
    + exact Dis.
  - intros x I. destruct (Fresh x (or_intror I)) as [G1 G2].
    assert (x <> u) by (intros ->; contradiction).
    split; [destruct (existsb _ below) | destruct (existsb _ below')];
      cbn [In]; intuition congruence.
Qed.

Lemma subtree_climb (base : list nat) (post : list PrimStep) :
  (forall a u q b, post = a ++ (u, q) :: b -> In q (base ++ map fst a)) ->
  forall x, In x (map fst post) ->
    exists post1 c' p' post2,
      post = post1 ++ (c', p') :: post2 /\ In p' base /\ In x (subtree post2 [c']).
Proof.
  induction post as [|[u q] post0 IH] using rev_ind; intros Par x I; [destruct I|].
  assert (Par0 : forall a u' q' b, post0 = a ++ (u', q') :: b -> In q' (base ++ map fst a)).
  { intros a u' q' b E. apply (Par a u' q' (b ++ [(u, q)])).
    rewrite E, <- app_assoc. reflexivity. }
  assert (Lift : forall y, In y (map fst post0) ->
             exists post1 c' p' post2,
               post0 ++ [(u, q)] = post1 ++ (c', p') :: post2 /\ In p' base /\
               In y (subtree post2 [c']) /\
               exists post2', post2 = post2' ++ [(u, q)] /\ In y (subtree post2' [c'])).
  { intros y Iy. destruct (IH Par0 y Iy) as [post1 [c' [p' [post2 [E [B S]]]]]].
    exists post1, c', p', (post2 ++ [(u, q)]).
    split; [rewrite E, <- app_assoc; reflexivity|]. split; [exact B|].
    split; [|exists post2; split; [reflexivity | exact S]].
    rewrite subtree_app. now apply subtree_grows. }
  rewrite map_app in I. apply in_app_or in I. destruct I as [I|[<-|[]]].
  - destruct (Lift x I) as [post1 [c' [p' [post2 [E [B [S _]]]]]]]. eauto 8.
  - cbn [fst].
    assert (Q : In q (base ++ map fst post0)).
    { apply (Par post0 u q []). reflexivity. }
    apply in_app_or in Q. destruct Q as [Q|Q].
    + exists post0, u, q, []. split; [reflexivity|]. split; [exact Q | now left].
    + destruct (Lift q Q) as [post1 [c' [p' [post2 [E [B [_ [post2' [-> S]]]]]]]]].
      exists post1, c', p', (post2' ++ [(u, q)]).
      split; [exact E|]. split; [exact B|].
      rewrite subtree_app. cbn [subtree].
      apply existsb_eqb_In in S. rewrite S. now left.
Qed.

Lemma NoDup_app_In {A : Type} (a b : list A) (x : A) :
  NoDup (a ++ b) -> In x a -> In x b -> False.
Proof.
  induction a as [|h a IH]; intros ND Ia Ib; [destruct Ia|].
  cbn [app] in ND. inversion ND as [|? ? Nh ND']; subst.
  destruct Ia as [->|Ia]; [|now apply IH].
  apply Nh. apply in_or_app. now right.
Qed.

Lemma treeEdge_connected (E : list EdgeIndex) (u q : nat) :
  In (treeEdge (u, q)) E -> connected E (Z.of_nat u) (Z.of_nat q).
Proof.
  intros I. apply connected_edge. unfold treeEdge in I. cbn [fst snd] in I.
  destruct (Z.le_ge_cases (Z.of_nat u) (Z.of_nat q)).
  - rewrite Z.min_l, Z.max_r in I by lia. now left.
  - rewrite Z.min_r, Z.max_l in I by lia. now right.
Qed.

(** The points below [c] are joined to [c] by the later edges. *)
Lemma subtree_connected (E : list EdgeIndex) (c : nat) (post : list PrimStep) :
  incl (map treeEdge post) E ->
  forall below,
    (forall x, In x below -> connected E (Z.of_nat x) (Z.of_nat c)) ->
    forall x, In x (subtree post below) -> connected E (Z.of_nat x) (Z.of_nat c).
Proof.
  induction post as [|[u q] post IH]; intros Inc below B; [exact B|].
  cbn [subtree]. apply IH; [intros e I; apply Inc; now right|].
  destruct (existsb (Nat.eqb q) below) eqn:Q; [|exact B].
  apply existsb_eqb_In in Q.
  intros x [<-|I]; [|now apply B].
  apply connected_trans with (v := Z.of_nat q); [|now apply B].
  apply treeEdge_connected. apply Inc. now left.
Qed.

Section GreedyTree.

Variable n : nat.
Variable W : Type.
Variable le : W -> W -> Prop.
Variable w : nat -> nat -> W.
Hypothesis le_trans : forall a b c, le a b -> le b c -> le a c.
Hypothesis w_sym : forall i j, w i j = w j i.

Lemma greedy_prefix (steps more : list PrimStep) :
  greedy n le w (steps ++ more) -> greedy n le w steps.
Proof.
  intros [ND G]. split.
  - unfold visitedList in *. rewrite map_app in ND.
    change (NoDup ((O :: map fst steps) ++ map fst more)) in ND.
    now apply NoDup_app_remove_r in ND.
  - intros pre c p post E. apply (G pre c p (post ++ more)).
    rewrite E, <- app_assoc. reflexivity.
Qed.

(** Every point of the tree is joined to point 0. *)
Lemma greedy_connected (steps : list PrimStep) :
  greedy n le w steps ->
  forall x, In x (visitedList steps) ->
            connected (map treeEdge steps) (Z.of_nat x) 0%Z.
Proof.
  induction steps as [|[c p] steps IH] using rev_ind; intros G x I.
  - destruct I as [<-|[]]. apply connected_refl.
  - pose proof (greedy_prefix _ _ G) as G0. specialize (IH G0).
    destruct G as [_ G]. destruct (G steps c p [] eq_refl) as [Ip _].
    assert (Old : forall y, In y (visitedList steps) ->
                            connected (map treeEdge (steps ++ [(c, p)])) (Z.of_nat y) 0%Z).
    { intros y Iy. apply connected_incl with (edges := map treeEdge steps); [|now apply IH].
      rewrite map_app. apply incl_appl, incl_refl. }
    unfold visitedList in I. rewrite map_app in I. cbn [map fst] in I.
    change (In x ((O :: map fst steps) ++ [c])) in I.
    apply in_app_or in I. destruct I as [I|[<-|[]]]; [now apply Old|].
    apply connected_trans with (v := Z.of_nat p); [|now apply Old].
    apply treeEdge_connected. rewrite map_app. apply in_or_app. right. now left.
Qed.

(** With the edge of one step taken out, every point that is not below
    the point of that step is still joined to point 0. *)
Lemma greedy_rest_connected (pre : list PrimStep) (c p : nat) :
  forall post,
    greedy n le w (pre ++ (c, p) :: post) ->
    forall x, In x (visitedList (pre ++ (c, p) :: post)) ->
              ~ In x (subtree post [c]) ->
              connected (map treeEdge (pre ++ post)) (Z.of_nat x) 0%Z.
Proof.
  induction post as [|[u q] post IH] using rev_ind; intros G x I N.
  - rewrite app_nil_r. cbn [subtree] in N.
    apply greedy_connected; [now apply (greedy_prefix pre [(c, p)])|].
    unfold visitedList in *. rewrite map_app in I. cbn [map fst] in I.
    change (In x ((O :: map fst pre) ++ [c])) in I.
    apply in_app_or in I. destruct I as [I|[<-|[]]]; [exact I|].
    exfalso. apply N. now left.
  - assert (G0 : greedy n le w (pre ++ (c, p) :: post)).
    { apply (greedy_prefix _ [(u, q)]). rewrite <- app_assoc. exact G. }
    specialize (IH G0).
    rewrite subtree_app in N. cbn [subtree] in N.
    assert (Old : forall y, In y (visitedList (pre ++ (c, p) :: post)) ->
                            ~ In y (subtree post [c]) ->
                            connected (map treeEdge (pre ++ post ++ [(u, q)]))
                              (Z.of_nat y) 0%Z).
    { intros y Iy Ny.
      apply connected_incl with (edges := map treeEdge (pre ++ post)); [|now apply IH].
      rewrite !map_app. intros e Ie. apply in_app_or in Ie.
      apply in_or_app. destruct Ie; [now left | right; apply in_or_app; now left]. }
    destruct G as [_ G].
    destruct (G (pre ++ (c, p) :: post) u q []) as [Iq _].
    { rewrite <- app_assoc. reflexivity. }
    assert (Split : In x (visitedList (pre ++ (c, p) :: post)) \/ x = u).
    { unfold visitedList in *. rewrite !map_app in *. cbn [map fst app] in *.
      rewrite !map_app in I. cbn [map fst] in I.
      destruct I as [I|I]; [left; now left|].
      apply in_app_or in I. destruct I as [I|[I|I]].
      - left. right. apply in_or_app. now left.
      - left. right. apply in_or_app. right. now left.
      - apply in_app_or in I. destruct I as [I|[I|[]]].
        + left. right. apply in_or_app. right. now right.
        + right. now symmetry. }
    destruct (existsb (Nat.eqb q) (subtree post [c])) eqn:Q.
    + destruct Split as [I' | ->]; [|exfalso; apply N; now left].
      apply Old; [exact I'|]. intros S. apply N. now right.
    + destruct Split as [I' | ->]; [now apply Old|].
      apply connected_trans with (v := Z.of_nat q).
      * apply treeEdge_connected. rewrite !map_app.
        apply in_or_app. right. apply in_or_app. right. now left.
      * apply Old; [exact Iq|]. intros S. apply existsb_eqb_In in S. congruence.
Qed.

(** The edge of a step is no heavier than any pair it separates: one
    point below the point of the step, the other not. *)
Lemma greedy_cut :
  forall m pre c p post,
    (length post <= m)%nat ->
    greedy n le w (pre ++ (c, p) :: post) ->
    forall e1 e2,
      In e1 (subtree post [c]) ->
      In e2 (visitedList (pre ++ (c, p) :: post)) -> ~ In e2 (subtree post [c]) ->
      le (w p c) (w e2 e1).
Proof.
  induction m as [|m IH]; intros pre c p post Len G e1 e2 I1 I2 N2.
  - destruct post; [|cbn in Len; lia]. cbn [subtree] in *.
    destruct I1 as [<-|[]].
    destruct G as [ND G]. destruct (G pre c p [] eq_refl) as [_ [Lc Gr]].
    assert (Fresh : ~ In c (visitedList pre)).
    { unfold visitedList in *. rewrite map_app in ND. cbn [map fst] in ND.
      change (NoDup ((O :: map fst pre) ++ [c])) in ND.
      intros Ic. apply NoDup_remove_2 in ND. apply ND. now rewrite app_nil_r. }
    apply Gr; [|exact Lc | exact Fresh].
    unfold visitedList in *. rewrite map_app in I2. cbn [map fst] in I2.
    change (In e2 ((O :: map fst pre) ++ [c])) in I2.
    apply in_app_or in I2. destruct I2 as [I2|[<-|[]]]; [exact I2|].
    exfalso. apply N2. now left.
  - destruct G as [ND G].
    destruct (G pre c p post eq_refl) as [Ip [Lc Gr]].
    assert (Vis : visitedList (pre ++ (c, p) :: post)
                  = visitedList pre ++ c :: map fst post).
    { unfold visitedList. rewrite map_app. reflexivity. }
    rewrite Vis in ND, I2.
    assert (Later : forall x, In x (c :: map fst post) -> ~ In x (visitedList pre)).
    { intros x Ix Ipre. exact (NoDup_app_In _ _ x ND Ipre Ix). }
    assert (Below : forall x, In x (subtree post [c]) -> In x (c :: map fst post)).
    { intros x Ix. apply subtree_members in Ix. destruct Ix as [[<-|[]]|Ix];
        [now left | now right]. }
    assert (L1 : (e1 < n)%nat).
    { apply Below in I1. destruct I1 as [<-|I1]; [exact Lc|].
      apply in_map_iff in I1. destruct I1 as [[u q] [<- I1]].
      apply in_split in I1. destruct I1 as [a [b ->]].
      destruct (G (pre ++ (c, p) :: a) u q b) as [_ [Lu _]]; [|exact Lu].
      rewrite <- app_assoc. reflexivity. }
    apply in_app_or in I2. destruct I2 as [I2|I2].
    { apply Gr; [exact I2 | exact L1 | apply Later, Below, I1]. }
    destruct I2 as [<-|I2]; [exfalso; apply N2, subtree_grows; now left|].
    destruct (subtree_climb (visitedList pre ++ [c]) post) with (x := e2)
      as [post1 [c' [p' [post2 [E [B S]]]]]]; [|exact I2|].
    { intros a u q b Eq.
      destruct (G (pre ++ (c, p) :: a) u q b) as [Iq _].
      { rewrite Eq, <- app_assoc. reflexivity. }
      unfold visitedList in *. rewrite map_app in Iq. cbn [map fst] in Iq.
      destruct Iq as [Iq|Iq]; [apply in_or_app; left; apply in_or_app; left; now left|].
      apply in_app_or in Iq. destruct Iq as [Iq|[Iq|Iq]].
      - apply in_or_app. left. apply in_or_app. left. now right.
      - apply in_or_app. left. apply in_or_app. right. now left.
      - apply in_or_app. now right. }
    subst post.
    assert (ND2 : NoDup (c :: map fst (post1 ++ (c', p') :: post2))).
    { now apply NoDup_app_remove_l in ND. }
    rewrite map_app in ND2. cbn [map fst] in ND2.
    change (NoDup ((c :: map fst post1) ++ c' :: map fst post2)) in ND2.
    assert (P1 : forall x, In x (subtree post1 [c]) -> In x (c :: map fst post1)).
    { intros x Ix. apply subtree_members in Ix. destruct Ix as [[<-|[]]|Ix];
        [now left | now right]. }
    apply in_app_or in B. destruct B as [B|[<-|[]]].
    + (* the parent of [c'] was in the tree before [c] *)
      assert (Fc' : ~ In c' (visitedList pre)).
      { apply Later. right. rewrite map_app. apply in_or_app. right. now left. }
      assert (Lc' : (c' < n)%nat).
      { destruct (G (pre ++ (c, p) :: post1) c' p' post2) as [_ [L _]]; [|exact L].
        rewrite <- app_assoc. reflexivity. }
      apply le_trans with (b := w p' c'); [now apply Gr|].
      rewrite (w_sym e2 e1).
      assert (Eq : (pre ++ (c, p) :: post1) ++ (c', p') :: post2
                   = pre ++ (c, p) :: post1 ++ (c', p') :: post2)
        by (rewrite <- app_assoc; reflexivity).
      apply (IH (pre ++ (c, p) :: post1) c' p' post2).
      * rewrite length_app in Len. cbn [length] in Len. lia.
      * rewrite Eq. split; [rewrite Vis; exact ND | exact G].
      * exact S.
      * rewrite Eq, Vis. apply in_or_app. right. now apply Below.
      * assert (Np' : existsb (Nat.eqb p') (subtree post1 [c]) = false).
        { destruct (existsb (Nat.eqb p') (subtree post1 [c])) eqn:Q; [|reflexivity].
          apply existsb_eqb_In in Q. apply P1 in Q. exfalso.
          apply (Later p'); [|exact B].
          destruct Q as [<-|Q]; [now left|]. right. rewrite map_app.
          apply in_or_app. now left. }
        rewrite subtree_app in I1. cbn [subtree] in I1. rewrite Np' in I1.
        intros S1. revert S1. apply (subtree_disjoint post2 (subtree post1 [c]) [c']).
        -- intros x Ix [<-|[]]. apply P1 in Ix.
           apply NoDup_remove_2 in ND2. apply ND2. apply in_or_app. now left.
        -- apply NoDup_app_remove_l in ND2. now inversion ND2.
        -- intros x Ix. split.
           ++ intros Q. apply P1 in Q.
              apply (NoDup_app_In _ _ x ND2 Q). now right.
           ++ intros [<-|[]]. apply NoDup_app_remove_l in ND2.
              inversion ND2; contradiction.
        -- exact I1.
    + (* the parent of [c'] is [c]: then [e2] would be below [c] *)
      exfalso. apply N2. rewrite subtree_app. cbn [subtree].
      assert (Q : existsb (Nat.eqb c) (subtree post1 [c]) = true).
      { apply existsb_eqb_In, subtree_grows. now left. }
      rewrite Q. revert S. apply subtree_mono. intros x [<-|[]]. now left.
Qed.

End GreedyTree.

(** Any two points of the tree that the removal of a step's edge
    separates are at least as far apart as that edge is heavy. *)
Lemma greedy_minimal (n : nat) (W : Type) (le : W -> W -> Prop) (w : nat -> nat -> W) :
  (forall a b c, le a b -> le b c -> le a c) ->
  (forall i j, w i j = w j i) ->
  forall pre c p post,
    greedy n le w (pre ++ (c, p) :: post) ->
    forall u v,
      In u (visitedList (pre ++ (c, p) :: post)) ->
      In v (visitedList (pre ++ (c, p) :: post)) ->
      ~ connected (map treeEdge (pre ++ post)) (Z.of_nat u) (Z.of_nat v) ->
      le (w p c) (w u v).
Proof.
  intros le_trans w_sym pre c p post G u v Iu Iv Sep.
  assert (Inc : incl (map treeEdge post) (map treeEdge (pre ++ post))).
  { rewrite map_app. apply incl_appr, incl_refl. }
  assert (Down : forall x, In x (subtree post [c]) ->
                           connected (map treeEdge (pre ++ post)) (Z.of_nat x) (Z.of_nat c)).
  { apply (subtree_connected _ c post Inc). intros x [<-|[]]. apply connected_refl. }
  assert (Up : forall x, In x (visitedList (pre ++ (c, p) :: post)) ->
                         ~ In x (subtree post [c]) ->
                         connected (map treeEdge (pre ++ post)) (Z.of_nat x) 0%Z).
  { now apply (greedy_rest_connected n W le w pre c p post). }
  destruct (in_dec Nat.eq_dec u (subtree post [c])) as [Su|Su],
           (in_dec Nat.eq_dec v (subtree post [c])) as [Sv|Sv].
  - exfalso. apply Sep. apply connected_trans with (v := Z.of_nat c);
      [now apply Down | apply connected_sym; now apply Down].
  - rewrite (w_sym u v).
    apply (greedy_cut n W le w le_trans w_sym (length post) pre c p post (le_n _) G u v);
      assumption.
  - apply (greedy_cut n W le w le_trans w_sym (length post) pre c p post (le_n _) G v u);
      assumption.
  - exfalso. apply Sep. apply connected_trans with (v := 0%Z);
      [now apply Up | apply connected_sym; now apply Up].
Qed.

Lemma primSelect_min count visited distances :
  (exists j, (j < count)%nat /\ nth j visited false = false) ->
  (forall j, (j < count)%nat -> nth j visited false = false ->
             (nth j distances nan <? JS.POSITIVE_INFINITY)%float = true) ->
  exists best,
    fst (primSelect count visited distances) = Z.of_nat best /\
    (best < count)%nat /\ nth best visited false = false /\
    forall j, (j < count)%nat -> nth j visited false = false ->
              noLonger (nth best distances nan) (nth j distances nan).
Proof.
  intros [j0 [L0 U0]] Fin.
  pose (P := fun (m : nat) (acc : Z * float) =>
               (acc = ((-1)%Z, JS.POSITIVE_INFINITY) /\
                forall j, (j < m)%nat -> nth j visited false = true) \/
               (exists best,
                   acc = (Z.of_nat best, nth best distances nan) /\
                   (best < m)%nat /\ nth best visited false = false /\
                   forall j, (j < m)%nat -> nth j visited false = false ->
                             noLonger (nth best distances nan) (nth j distances nan))).
  assert (H : P count (primSelect count visited distances)).
  { unfold primSelect. apply fold_left_seq_invariant.
    - left. split; [reflexivity | intros j Lj; lia].
    - intros m acc Lm Hacc. unfold primSelectStep.
      destruct (nth m visited false) eqn:Vm.
      + destruct Hacc as [[E A]|[best [E [Lb [Ub M]]]]].
        * left. split; [exact E|]. intros j Lj.
          destruct (Nat.eq_dec j m) as [->|Nj]; [exact Vm | apply A; lia].
        * right. exists best. split; [exact E|]. split; [lia|]. split; [exact Ub|].
          intros j Lj Uj. destruct (Nat.eq_dec j m) as [->|Nj]; [congruence|].
          apply M; [lia | exact Uj].
      + pose proof (Fin m Lm Vm) as Fm.
        destruct (FloatOrder.ltb_not_nan _ _ Fm) as [Nm _].
        destruct Hacc as [[-> A]|[best [-> [Lb [Ub M]]]]]; cbn [snd].
        * rewrite Fm. right. exists m. split; [reflexivity|]. split; [lia|].
          split; [exact Vm|]. intros j Lj Uj.
          destruct (Nat.eq_dec j m) as [->|Nj]; [now apply FloatOrder.leb_refl|].
          rewrite A in Uj by lia. discriminate.
        * pose proof (Fin best ltac:(lia) Ub) as Fb.
          destruct (FloatOrder.ltb_not_nan _ _ Fb) as [Nb _].
          destruct (nth m distances nan <? nth best distances nan)%float eqn:Lt.
          -- right. exists m. split; [reflexivity|]. split; [lia|]. split; [exact Vm|].
             intros j Lj Uj.
             destruct (Nat.eq_dec j m) as [->|Nj]; [now apply FloatOrder.leb_refl|].
             apply FloatOrder.ltb_leb.
             eapply FloatOrder.ltb_leb_trans; [exact Lt | apply M; [lia | exact Uj]].
          -- right. exists best. split; [reflexivity|]. split; [lia|]. split; [exact Ub|].
             intros j Lj Uj.
             destruct (Nat.eq_dec j m) as [->|Nj]; [now apply FloatOrder.not_ltb_leb|].
             apply M; [lia | exact Uj]. }
  destruct H as [[_ A]|[best [E [Lb [Ub M]]]]].
  - rewrite A in U0 by exact L0. discriminate.
  - exists best. rewrite E. auto.
Qed.

Lemma primRelax_min points visited best pb distances parent :
  nth_error points best = Some pb ->
  length distances = length points -> length parent = length points ->
  exists distances' parent',
    fold_left (primRelaxStep points visited (Z.of_nat best)) (seq 0 (length points))
      (Some (distances, parent)) = Some (distances', parent') /\
    length distances' = length points /\ length parent' = length points /\
    forall j, (j < length points)%nat ->
      (nth j visited false = true ->
       nth j distances' nan = nth j distances nan /\
       nth j parent' (-1)%Z = nth j parent (-1)%Z) /\
      (nth j visited false = false ->
       if (distance pb (pointAt points j) <? nth j distances nan)%float
       then nth j distances' nan = distance pb (pointAt points j) /\
            nth j parent' (-1)%Z = Z.of_nat best
       else nth j distances' nan = nth j distances nan /\
            nth j parent' (-1)%Z = nth j parent (-1)%Z).
Proof.
  intros Hb Ld0 Lp0.
  pose (P := fun (m : nat) (acc : option (list float * list Z)) =>
               exists ds ps,
                 acc = Some (ds, ps) /\
                 length ds = length points /\ length ps = length points /\
                 forall j, (j < length points)%nat ->
                   ((m <= j)%nat \/ nth j visited false = true ->
                    nth j ds nan = nth j distances nan /\
                    nth j ps (-1)%Z = nth j parent (-1)%Z) /\
                   ((j < m)%nat -> nth j visited false = false ->
                    if (distance pb (pointAt points j) <? nth j distances nan)%float
                    then nth j ds nan = distance pb (pointAt points j) /\
                         nth j ps (-1)%Z = Z.of_nat best
                    else nth j ds nan = nth j distances nan /\
                         nth j ps (-1)%Z = nth j parent (-1)%Z)).
  assert (H : P (length points)
                (fold_left (primRelaxStep points visited (Z.of_nat best))
                   (seq 0 (length points)) (Some (distances, parent)))).
  { apply fold_left_seq_invariant.
    - exists distances, parent. split; [reflexivity|]. split; [exact Ld0|].
      split; [exact Lp0|]. intros j Lj. split; [auto | intros; lia].
    - intros m acc Lm [ds [ps [-> [Ld [Lp C]]]]].
      unfold primRelaxStep. destruct (nth m visited false) eqn:Vm.
      + exists ds, ps. split; [reflexivity|]. split; [exact Ld|]. split; [exact Lp|].
        intros j Lj. destruct (C j Lj) as [C1 C2]. split.
        * intros [Q|Q]; apply C1; [left; lia | now right].
        * intros Q U. destruct (Nat.eq_dec j m) as [->|Nj]; [congruence|].
          apply C2; [lia | exact U].
      + rewrite get_of_nat, Hb.
        destruct (nth_error points m) as [pm|] eqn:Hpm.
        2:{ apply nth_error_None in Hpm. lia. }
        assert (Em : pointAt points m = pm).
        { unfold pointAt. now apply nth_error_nth. }
        destruct (C m Lm) as [Cm _]. destruct (Cm (or_introl (le_n m))) as [Dm Pm].
        rewrite Dm.
        destruct (distance pb pm <? nth m distances nan)%float eqn:Lt.
        * exists (update ds m (distance pb pm)), (update ps m (Z.of_nat best)).
          split; [reflexivity|]. rewrite !update_length.
          split; [exact Ld|]. split; [exact Lp|].
          intros j Lj. destruct (C j Lj) as [C1 C2].
          destruct (Nat.eq_dec m j) as [<-|Nj].
          -- split; [intros [Q|Q]; [lia | congruence]|].
             intros _ _. rewrite Em, Lt, !nth_update_eq by lia. auto.
          -- rewrite !nth_update_neq by exact Nj. split.
             ++ intros [Q|Q]; apply C1; [left; lia | now right].
             ++ intros Q U. apply C2; [lia | exact U].
        * exists ds, ps. split; [reflexivity|]. split; [exact Ld|]. split; [exact Lp|].
          intros j Lj. destruct (C j Lj) as [C1 C2]. split.
          -- intros [Q|Q]; apply C1; [left; lia | now right].
          -- intros Q U. destruct (Nat.eq_dec j m) as [->|Nj].
             ++ rewrite Em, Lt. auto.
             ++ apply C2; [lia | exact U]. }
  destruct H as [ds [ps [E [Ld [Lp C]]]]]. exists ds, ps.
  split; [exact E|]. split; [exact Ld|]. split; [exact Lp|].
  intros j Lj. destruct (C j Lj) as [C1 C2]. split.
  - intros V. apply C1. now right.
  - intros U. now apply C2.
Qed.

Lemma distanceBetween_finite points i j :
  distancesFinite points -> (i < length points)%nat -> (j < length points)%nat ->
  (distanceBetween points i j <? JS.POSITIVE_INFINITY)%float = true.
Proof.
  intros Fin Li Lj. apply Fin; apply nth_In; assumption.
Qed.


Lemma greedy_snoc {W : Type} (n : nat) (le : W -> W -> Prop) (w : nat -> nat -> W)
    (steps : list PrimStep) (c p : nat) :
  greedy n le w steps ->
  ~ In c (visitedList steps) -> In p (visitedList steps) -> (c < n)%nat ->
  (forall u j, In u (visitedList steps) -> (j < n)%nat -> ~ In j (visitedList steps) ->
               le (w p c) (w u j)) ->
  greedy n le w (steps ++ [(c, p)]).
Proof.
  intros [ND G] Fresh Ip Lc Min. split.
  - unfold visitedList in *. rewrite map_app. cbn [map fst].
    change (NoDup ((O :: map fst steps) ++ [c])).
    apply NoDup_app; [exact ND | repeat constructor; intros [] |].
    intros x Ix [<-|[]]. contradiction.
  - intros pre c0 p0 post E.
    destruct post as [|s post] using rev_ind.
    + apply app_inj_tail in E. destruct E as [<- [= <- <-]]. auto.
    + clear IHpost.
      change (pre ++ (c0, p0) :: post ++ [s]) with (pre ++ ((c0, p0) :: post) ++ [s]) in E.
      rewrite app_assoc in E. apply app_inj_tail in E. destruct E as [E _].
      now apply (G pre c0 p0 post).
Qed.

Lemma greedy_in_range {W : Type} (n : nat) (le : W -> W -> Prop) (w : nat -> nat -> W)
    (steps : list PrimStep) :
  (0 < n)%nat -> greedy n le w steps ->
  forall u, In u (visitedList steps) -> (u < n)%nat.
Proof.
  intros Pos [_ G] u [<-|I]; [exact Pos|].
  apply in_map_iff in I. destruct I as [[c p] [<- I]].
  apply in_split in I. destruct I as [a [b ->]].
  destruct (G a c p b eq_refl) as [_ [L _]]. exact L.
Qed.

Lemma primLoop_greedy points :
  distancesFinite points -> (2 <= length points)%nat ->
  forall iterations visited distances parent edges steps,
    primGreedy points visited distances parent edges steps ->
    (countVisited visited + iterations)%nat = length points ->
    exists steps',
      primLoop points (length points) iterations visited distances parent edges
        = Some (map treeEdge steps') /\
      greedy (length points) noLonger (distanceBetween points) steps' /\
      forall i, (i < length points)%nat -> In i (visitedList steps').
Proof.
  intros Fin L2. induction iterations as [|k IH];
    intros visited distances parent edges steps Inv Cnt;
    destruct Inv as [Lv [Ld [Lp [Vis [Ed [Gr [Key Len]]]]]]].
  - exists steps. split; [cbn; now rewrite Ed|]. split; [exact Gr|].
    intros i Li. apply Vis; [exact Li|]. apply countVisited_all; lia.
  - destruct (countVisited_some_unvisited visited) as [j0 [L0 U0]]; [lia|].
    assert (KeyFin : forall j, (j < length points)%nat -> nth j visited false = false ->
                               (nth j distances nan <? JS.POSITIVE_INFINITY)%float = true).
    { intros j Lj Uj. destruct (Key j Lj Uj) as [q [_ [Lq [_ [-> _]]]]].
      now apply distanceBetween_finite. }
    destruct (primSelect_min (length points) visited distances) as [best [Eb [Lb [Ub Min]]]].
    { exists j0. split; [lia | exact U0]. }
    { exact KeyFin. }
    destruct (Key best Lb Ub) as [q [Epar [Lq [Vq [Edist Near]]]]].
    assert (Hpb : nth_error points best = Some (pointAt points best)).
    { unfold pointAt. now apply nth_error_nth'. }
    cbn [primLoop]. cbv zeta. rewrite Eb.
    destruct (Z.eqb_spec (Z.of_nat best) (-1)%Z) as [Bad|_]; [lia|].
    rewrite Nat2Z.id, Epar.
    destruct (Z.leb_spec 0 (Z.of_nat q)) as [_|Bad]; [|lia].
    destruct (primRelax_min points (update visited best true) best (pointAt points best)
                distances parent Hpb Ld Lp) as [ds [ps [Er [Lds [Lps Rel]]]]].
    rewrite Er.
    assert (Pos : (0 < length points)%nat) by lia.
    assert (InRange : forall u, In u (visitedList steps) -> (u < length points)%nat)
      by (now apply (greedy_in_range _ noLonger (distanceBetween points))).
    assert (Fresh : ~ In best (visitedList steps)).
    { intros I. apply (Vis best Lb) in I. congruence. }
    assert (Keep : forall i, nth i visited false = true ->
                             nth i (update visited best true) false = true).
    { intros i Vi. rewrite nth_update_neq; [exact Vi | congruence]. }
    assert (New : nth best (update visited best true) false = true)
      by (apply nth_update_eq; lia).
    assert (Vis' : forall i, (i < length points)%nat ->
                     (nth i (update visited best true) false = true <->
                      In i (visitedList (steps ++ [(best, q)])))).
    { intros i Li. unfold visitedList. rewrite map_app. cbn [map fst].
      change (O :: map fst steps ++ [best]) with ((O :: map fst steps) ++ [best]).
      rewrite in_app_iff. cbn [In]. fold (visitedList steps).
      destruct (Nat.eq_dec best i) as [<-|Ni].
      - split; [intros _; right; now left | intros _; exact New].
      - rewrite nth_update_neq by exact Ni. rewrite (Vis i Li). unfold visitedList. cbn [In]. intuition congruence. }
    apply (IH _ _ _ _ (steps ++ [(best, q)])).
    + unfold primGreedy. rewrite update_length.
      split; [exact Lv|]. split; [exact Lds|]. split; [exact Lps|].
      split; [exact Vis'|]. split; [|split; [|split]].
      * rewrite map_app, Ed. reflexivity.
      * apply greedy_snoc; [exact Gr | exact Fresh | now apply Vis | exact Lb |].
        intros u j Iu Lj Nj.
        assert (Uj : nth j visited false = false).
        { destruct (nth j visited false) eqn:Vj; [|reflexivity].
          exfalso. apply Nj. now apply Vis. }
        destruct (Key j Lj Uj) as [qj [_ [_ [_ [Ej Nearj]]]]].
        unfold noLonger. rewrite <- Edist.
        apply FloatOrder.leb_trans with (b := nth j distances nan).
        -- now apply Min.
        -- apply Nearj; [now apply InRange | apply Vis; [now apply InRange | exact Iu]].
      * intros j Lj Uj.
        assert (Nj : best <> j) by (intros ->; congruence).
        rewrite nth_update_neq in Uj by exact Nj.
        destruct (Key j Lj Uj) as [qj [Eparj [Lqj [Vqj [Ej Nearj]]]]].
        destruct (Rel j Lj) as [_ R].
        rewrite nth_update_neq in R by exact Nj. specialize (R Uj).
        fold (distanceBetween points best j) in R.
        pose proof (distanceBetween_finite points best j Fin Lb Lj) as Fbj.
        destruct (FloatOrder.ltb_not_nan _ _ Fbj) as [Nbj _].
        pose proof (KeyFin j Lj Uj) as Fj.
        destruct (FloatOrder.ltb_not_nan _ _ Fj) as [Nnj _].
        destruct (distanceBetween points best j <? nth j distances nan)%float eqn:Lt;
          destruct R as [Rd Rp].
        -- exists best. split; [exact Rp|]. split; [exact Lb|]. split; [exact New|].
           split; [exact Rd|]. intros u Lu Vu. rewrite Rd. unfold noLonger.
           destruct (Nat.eq_dec best u) as [<-|Nu]; [now apply FloatOrder.leb_refl|].
           rewrite nth_update_neq in Vu by exact Nu.
           apply FloatOrder.ltb_leb.
           eapply FloatOrder.ltb_leb_trans; [exact Lt | now apply Nearj].
        -- exists qj. split; [now rewrite Rp|]. split; [exact Lqj|].
           split; [now apply Keep|]. split; [now rewrite Rd|].
           intros u Lu Vu. rewrite Rd. unfold noLonger.
           destruct (Nat.eq_dec best u) as [<-|Nu];
             [now apply FloatOrder.not_ltb_leb|].
           rewrite nth_update_neq in Vu by exact Nu. now apply Nearj.
      * rewrite length_app, countVisited_update by (try lia; assumption). cbn. lia.
    + rewrite countVisited_update by (try lia; assumption). lia.
Qed.

Lemma get_pointAt points (i : Z) (p : Point) :
  get points i = Some p ->
  exists k, i = Z.of_nat k /\ (k < length points)%nat /\ p = pointAt points k.
Proof.
  unfold get. destruct (Z.ltb_spec i 0) as [|Nn]; [discriminate|]. intros E.
  exists (Z.to_nat i). split; [lia|].
  assert (L : (Z.to_nat i < length points)%nat)
    by (apply nth_error_Some; congruence).
  split; [exact L|]. unfold pointAt.
  rewrite (nth_error_nth' points {| id := 0; x := nan; y := nan |} L) in E. congruence.
Qed.

Lemma computeMinimumSpanningTreeEdges_greedy points :
  (2 <= length points)%nat -> distancesFinite points ->
  exists steps,
    computeMinimumSpanningTreeEdges points = Some (map treeEdge steps) /\
    greedy (length points) noLonger (distanceBetween points) steps /\
    forall i, (i < length points)%nat -> In i (visitedList steps).
Proof.
  intros L2 Fin. unfold computeMinimumSpanningTreeEdges.
  destruct (Nat.ltb_spec (length points) 2) as [Bad|_]; [lia|].
  destruct (nth_error points 0) as [p0|] eqn:H0.
  2:{ apply nth_error_None in H0. lia. }
  destruct (primInit_spec points p0 H0) as [ds [ps [Ei [Ld [Lp C]]]]].
  rewrite Ei.
  assert (V0 : nth 0 (update (repeat false (length points)) 0 true) false = true).
  { apply nth_update_eq. rewrite repeat_length. lia. }
  assert (Only : forall i, nth i (update (repeat false (length points)) 0 true) false
                           = true -> i = O).
  { intros i Vi. destruct i; [reflexivity|].
    rewrite nth_update_neq, nth_repeat_false in Vi by lia. discriminate. }
  assert (Cv : countVisited (update (repeat false (length points)) 0 true) = 1%nat).
  { rewrite countVisited_update.
    - now rewrite countVisited_repeat_false.
    - rewrite repeat_length. lia.
    - apply nth_repeat_false. }
  apply (primLoop_greedy points Fin L2 _ _ _ _ _ []).
  - unfold primGreedy. rewrite update_length, repeat_length.
    split; [reflexivity|]. split; [exact Ld|]. split; [exact Lp|].
    split; [|split; [reflexivity|split; [|split]]].
    + intros i Li. cbn. split.
      * intros Vi. left. symmetry. now apply Only.
      * intros [<-|[]]. exact V0.
    + split; [cbn; repeat constructor; intros []|].
      intros [|s pre] c p post E; discriminate E.
    + intros j Lj Uj.
      assert (Nj : j <> O) by (intros ->; congruence).
      destruct (C j ltac:(lia)) as [Ep [pj [Hpj Ed]]].
      assert (E0 : p0 = pointAt points 0)
        by (symmetry; apply nth_error_nth; exact H0).
      assert (Ej : pj = pointAt points j)
        by (symmetry; apply nth_error_nth; exact Hpj).
      exists O. split; [exact Ep|]. split; [lia|]. split; [exact V0|].
      assert (Edist : nth j ds nan = distanceBetween points 0 j).
      { rewrite Ed, E0, Ej. reflexivity. }
      split; [exact Edist|].
      intros u Lu Vu. rewrite (Only u Vu), Edist. unfold noLonger.
      apply FloatOrder.leb_refl.
      apply (FloatOrder.ltb_not_nan _ JS.POSITIVE_INFINITY).
      apply distanceBetween_finite; [exact Fin | lia | exact Lj].
    + rewrite Cv. reflexivity.
  - rewrite Cv. lia.
Qed.

(** Every edge that [computeMinimumSpanningTreeEdges] returns is a shortest
    way across the cut it closes: for points with finite computed distances,
    the function returns, and when an edge is taken out of the result, any
    two points that the remaining edges leave disconnected are at least as
    far apart (in computed [distance]) as the two ends of that edge. *)
Theorem computeMinimumSpanningTreeEdges_minimal points :
  distancesFinite points ->
  exists result,
    computeMinimumSpanningTreeEdges points = Some result /\
    forall before e after, result = before ++ e :: after ->
    forall u v pa pb pu pv,
      get points (fst e) = Some pa -> get points (snd e) = Some pb ->
      get points u = Some pu -> get points v = Some pv ->
      ~ connected (before ++ after) u v ->
      (distance pa pb <=? distance pu pv)%float = true.
Proof.
  intros Fin. destruct (Nat.lt_ge_cases (length points) 2) as [Small|L2].
  - exists []. split.
    + unfold computeMinimumSpanningTreeEdges.
      destruct (Nat.ltb_spec (length points) 2) as [_|Bad]; [reflexivity | lia].
    + intros [|e0 before] e after E; discriminate E.
  - destruct (computeMinimumSpanningTreeEdges_greedy points L2 Fin)
      as [steps [Run [Gr All]]].
    exists (map treeEdge steps). split; [exact Run|].
    intros before e after E u v pa pb pu pv Ha Hb Hu Hv Cut.
    apply map_eq_app in E. destruct E as [pre [rest [-> [<- E]]]].
    apply map_eq_cons in E. destruct E as [[c p] [post [-> [<- <-]]]].
    destruct (get_pointAt _ _ _ Hu) as [ku [-> [Lu ->]]].
    destruct (get_pointAt _ _ _ Hv) as [kv [-> [Lv ->]]].
    rewrite <- map_app in Cut.
    pose proof (greedy_minimal (length points) float noLonger (distanceBetween points)
                  FloatOrder.leb_trans
                  (fun i j => distance_sym (pointAt points i) (pointAt points j))
                  pre c p post Gr ku kv (All ku Lu) (All kv Lv) Cut) as Min.
    unfold noLonger, distanceBetween in Min.
    destruct (get_pointAt _ _ _ Ha) as [ka [Ea [_ ->]]].
    destruct (get_pointAt _ _ _ Hb) as [kb [Eb [_ ->]]].
    cbn [treeEdge fst snd] in Ea, Eb.
    destruct (Nat.le_gt_cases c p) as [Le|Gt].
    + assert (ka = c) by lia. assert (kb = p) by lia. subst ka kb.
      rewrite distance_sym. exact Min.
    + assert (ka = p) by lia. assert (kb = c) by lia. subst ka kb. exact Min.
Qed.

Lemma computeMinimumSpanningTreeEdges_minimal_witness :
  distancesFinite unitSquare /\
  exists result,
    computeMinimumSpanningTreeEdges unitSquare = Some result /\
    forall before e after, result = before ++ e :: after ->
    forall u v pa pb pu pv,
      get unitSquare (fst e) = Some pa -> get unitSquare (snd e) = Some pb ->
      get unitSquare u = Some pu -> get unitSquare v = Some pv ->
      ~ connected (before ++ after) u v ->
      (distance pa pb <=? distance pu pv)%float = true.
Proof.
  assert (Fin : distancesFinite unitSquare).
  { intros a b Ha Hb. cbn in Ha, Hb.
    repeat (destruct Ha as [<-|Ha]; [|]); try contradiction;
      repeat (destruct Hb as [<-|Hb]; [|]); try contradiction; reflexivity. }
  split; [exact Fin|].
  exact (computeMinimumSpanningTreeEdges_minimal unitSquare Fin).
Defined.
